(** * osi/src/thread.c: the owned worker thread

    A shallow embedding of [thread.c] and a verification of its
    specification.  The C code runs on two kinds of execution contexts (the
    callers and the spawned worker); here every function is a computation
    over an explicit [world] (heap, OS thread table, allocator behaviour,
    diagnostics, the log of callbacks run), and concurrency is the
    interleaving of atomic [action]s of the callers and of the worker. *)

From Stdlib Require Import ZArith Lia.
From Stdlib.Strings Require Import Byte.
From stdpp Require Import base gmap list option.

Set Default Proof Using "Type".

(** ** Data model *)

(** Heap addresses; the null pointer is [None : option addr]. *)
Abbreviation addr := positive.

(** [thread_fn]: the functions this file ever stores in a work item.  A
    caller-supplied function is opaque and identified by its address. *)
Inductive thread_fn :=
  | fn_user (id : Z)
  | fn_register_with_reactor_cb
  | fn_unregister_with_reactor_cb.

(** The [read_ready] callbacks stored in a [reactor_object_t]. *)
Inductive reactor_cb :=
  | cb_user (id : Z)
  | cb_work_queue_read_cb.

Inductive reactor_interest := REACTOR_INTEREST_READ | REACTOR_INTEREST_WRITE.

(** [reactor_object_t] (declared in [reactor.h]): the descriptor of an
    event source, with the fields [run_thread] fills in.  Its [context] is
    opaque caller data, or the work queue for the descriptor the worker
    registers for itself. *)
Inductive ro_context_t :=
  | roc_null
  | roc_opaque (p : Z)
  | roc_queue (q : addr).

Record reactor_object_t := mk_reactor_object {
  ro_context : ro_context_t;
  ro_fd : Z;
  ro_interest : reactor_interest;
  ro_read_ready : reactor_cb
}.

(** The [void *context] of a work item.  A [void *] carries the tag of what
    it points to; a callback that casts it to something else reads garbage,
    which is a [Crash] below.  [thread_unregister] passes the address of a
    [reactor_unregister_arg_t] on its own stack, which stays put and
    unchanged until the callback has run: the context carries its three
    fields [thread], [reactor_object] and [unregistered_sem]. *)
Inductive context :=
  | ctx_null
  | ctx_opaque (p : Z)
  | ctx_register_arg (a : addr)
  | ctx_unregister_arg (thread : addr) (reactor_object : reactor_object_t)
                       (unregistered_sem : addr).

(** [typedef struct { thread_fn func; void *context; } work_item_t;] *)
Record work_item_t := mk_work_item { func : thread_fn; wi_context : context }.

(** [typedef struct { thread_t *thread; reactor_object_t *reactor_object; }
    reactor_register_arg_t;] *)
Record reactor_register_arg_t := mk_register_arg {
  ra_thread : addr;
  ra_reactor_object : reactor_object_t
}.

(** [struct thread_t]. *)
Record thread_t := mk_thread {
  pthread : option nat;
  tid : Z;
  name : list byte;
  reactor : option addr;
  work_queue : option addr
}.

(** [struct start_arg]. *)
Record start_arg := mk_start_arg {
  sa_thread : addr;
  start_sem : addr;
  error : Z
}.

#[global] Instance byte_eq_dec : EqDecision byte := Byte.byte_eq_dec.
#[global] Instance thread_fn_eq_dec : EqDecision thread_fn.
Proof. solve_decision. Defined.
#[global] Instance reactor_cb_eq_dec : EqDecision reactor_cb.
Proof. solve_decision. Defined.
#[global] Instance reactor_interest_eq_dec : EqDecision reactor_interest.
Proof. solve_decision. Defined.

#[global] Instance ro_context_eq_dec : EqDecision ro_context_t.
Proof. solve_decision. Defined.
#[global] Instance reactor_object_eq_dec : EqDecision reactor_object_t.
Proof. solve_decision. Defined.
#[global] Instance context_eq_dec : EqDecision context.
Proof. solve_decision. Defined.
#[global] Instance work_item_eq_dec : EqDecision work_item_t.
Proof. solve_decision. Defined.

(** *** The collaborators' state

    Modelled from the spec: the event-loop engine ([reactor.c]), the bounded
    work queue ([fixed_queue.c]) and the rendezvous semaphore
    ([semaphore.c]) are not part of the sources; section 6 of the
    specification gives their contract.  A reactor is the list of registered
    source descriptors and the pending stop request; a fixed queue is its
    capacity and the FIFO of the item pointers it holds; a semaphore is its
    count. *)
Record reactor_t := mk_reactor {
  registered : list reactor_object_t;
  stop_requested : bool
}.

Record fixed_queue_t := mk_queue {
  capacity : nat;
  items : list addr
}.

(** What an allocated block holds; [ObjRaw] is what [malloc] returns, before
    the first write. *)
Inductive object :=
  | ObjRaw
  | ObjThread (t : thread_t)
  | ObjReactor (r : reactor_t)
  | ObjQueue (q : fixed_queue_t)
  | ObjSem (count : nat)
  | ObjWorkItem (i : work_item_t)
  | ObjRegisterArg (a : reactor_register_arg_t).

(** Where the spawned thread stands in [run_thread]: past the start
    handshake and about to register the queue with the reactor, inside
    [reactor_start], at the head of the drain loop (the locals [item] and
    [count]), or returned. *)
Inductive pc :=
  | pc_started
  | pc_loop
  | pc_drain (item : option addr) (count : nat)
  | pc_exited.
#[global] Instance pc_eq_dec : EqDecision pc.
Proof. solve_decision. Defined.

(** Diagnostics written with ALOGE / ALOGD. *)
Inductive log_msg :=
  | log_post_alloc_failed
  | log_unregister_sem_failed
  | log_set_name_failed (errno : Z)
  | log_growing_queue.

(** What a test observes from inside the callbacks: which function ran,
    with which context, on which OS thread. *)
Inductive event :=
  | ev_item (on : nat) (f : thread_fn) (c : context)
  | ev_ready (on : nat) (o : reactor_object_t).

Record world := mk_world {
  heap : gmap positive object;
  os_threads : gmap nat pc;
  alloc_fails : nat → bool;
  alloc_calls : nat;
  prctl_errno : nat → Z;
  prctl_calls : nat;
  errno : Z;
  syslog : list log_msg;
  trace : list event;
  pthread_create_errno : nat → Z;
  pthread_create_calls : nat
}.

(** ** Computations over the world

    A call returns, or suspends its caller on a blocking primitive
    ([Block]), or has undefined behaviour / fails an assertion ([Crash]). *)
Inductive result (A : Type) :=
  | Ret (a : A) (w : world)
  | Block (w : world)
  | Crash (w : world).
Arguments Ret {A} a w.
Arguments Block {A} w.
Arguments Crash {A} w.

Definition M (A : Type) : Type := world → result A.

#[global] Instance M_ret : MRet M := λ A a w, Ret a w.
#[global] Instance M_bind : MBind M := λ A B f m w,
  match m w with
  | Ret a w' => f a w'
  | Block w' => Block w'
  | Crash w' => Crash w'
  end.

Definition block {A} : M A := λ w, Block w.
Definition crash {A} : M A := λ w, Crash w.

Definition set_heap (h : gmap positive object) (w : world) : world :=
  mk_world h (os_threads w) (alloc_fails w) (alloc_calls w)
           (prctl_errno w) (prctl_calls w) (errno w) (syslog w) (trace w)
           (pthread_create_errno w) (pthread_create_calls w).
Definition set_os_threads (o : gmap nat pc) (w : world) : world :=
  mk_world (heap w) o (alloc_fails w) (alloc_calls w)
           (prctl_errno w) (prctl_calls w) (errno w) (syslog w) (trace w)
           (pthread_create_errno w) (pthread_create_calls w).
Definition set_alloc_calls (n : nat) (w : world) : world :=
  mk_world (heap w) (os_threads w) (alloc_fails w) n
           (prctl_errno w) (prctl_calls w) (errno w) (syslog w) (trace w)
           (pthread_create_errno w) (pthread_create_calls w).
Definition set_prctl (n : nat) (e : Z) (w : world) : world :=
  mk_world (heap w) (os_threads w) (alloc_fails w) (alloc_calls w)
           (prctl_errno w) n e (syslog w) (trace w)
           (pthread_create_errno w) (pthread_create_calls w).
Definition add_log (m : log_msg) (w : world) : world :=
  mk_world (heap w) (os_threads w) (alloc_fails w) (alloc_calls w)
           (prctl_errno w) (prctl_calls w) (errno w) (syslog w ++ [m]) (trace w)
           (pthread_create_errno w) (pthread_create_calls w).
Definition add_event (e : event) (w : world) : world :=
  mk_world (heap w) (os_threads w) (alloc_fails w) (alloc_calls w)
           (prctl_errno w) (prctl_calls w) (errno w) (syslog w) (trace w ++ [e])
           (pthread_create_errno w) (pthread_create_calls w).

Definition set_pthread_create_calls (n : nat) (w : world) : world :=
  mk_world (heap w) (os_threads w) (alloc_fails w) (alloc_calls w)
           (prctl_errno w) (prctl_calls w) (errno w) (syslog w) (trace w)
           (pthread_create_errno w) n.

Arguments set_heap _ _ /.
Arguments set_os_threads _ _ /.
Arguments set_alloc_calls _ _ /.
Arguments set_prctl _ _ _ /.
Arguments add_log _ _ /.
Arguments add_event _ _ /.
Arguments set_pthread_create_calls _ _ /.

Definition ALOG (m : log_msg) : M unit := λ w, Ret tt (add_log m w).
Definition emit (e : event) : M unit := λ w, Ret tt (add_event e w).

(** *** The allocator

    [alloc_fails w k] says whether the [k]-th allocation request made in [w]
    fails.  A successful request returns an address that is not in use. *)
Definition alloc (o : object) : M (option addr) := λ w,
  let w1 := set_alloc_calls (S (alloc_calls w)) w in
  if alloc_fails w (alloc_calls w) then Ret None w1
  else let a := fresh (dom (heap w)) in
       Ret (Some a) (set_heap (<[a := o]> (heap w)) w1).

(** [free(p)]: [free(NULL)] does nothing; freeing what is not allocated is
    undefined. *)
Definition free (p : option addr) : M unit := λ w,
  match p with
  | None => Ret tt w
  | Some a =>
      match heap w !! a with
      | Some _ => Ret tt (set_heap (delete a (heap w)) w)
      | None => Crash w
      end
  end.

Definition store (a : addr) (o : object) : M unit := λ w,
  Ret tt (set_heap (<[a := o]> (heap w)) w).

Definition load_thread (a : addr) : M thread_t := λ w,
  match heap w !! a with Some (ObjThread t) => Ret t w | _ => Crash w end.
Definition load_reactor (a : addr) : M reactor_t := λ w,
  match heap w !! a with Some (ObjReactor r) => Ret r w | _ => Crash w end.
Definition load_queue (a : addr) : M fixed_queue_t := λ w,
  match heap w !! a with Some (ObjQueue q) => Ret q w | _ => Crash w end.
Definition load_sem (a : addr) : M nat := λ w,
  match heap w !! a with Some (ObjSem n) => Ret n w | _ => Crash w end.
Definition load_work_item (a : addr) : M work_item_t := λ w,
  match heap w !! a with Some (ObjWorkItem i) => Ret i w | _ => Crash w end.
Definition load_register_arg (a : addr) : M reactor_register_arg_t := λ w,
  match heap w !! a with Some (ObjRegisterArg r) => Ret r w | _ => Crash w end.

(** A dereference of a pointer that may be null. *)
Definition deref {A} (p : option A) : M A :=
  match p with Some a => mret a | None => crash end.

(** ** The collaborators

    Modelled from the spec: [semaphore.c], [fixed_queue.c] and [reactor.c]
    are not part of the sources.  What follows is their contract as section
    6 of the specification states it: [wait] blocks until a matching [post];
    [enqueue] blocks if the queue is full, [dequeue] blocks until an item is
    available, [try_dequeue] returns none if the queue is empty, [free]
    releases the items left with the destructor it is given; the engine keeps
    the registered descriptors and a stop request.  The [free] functions
    accept a null pointer, which the error path of [thread_new] passes. *)

Definition semaphore_new (value : nat) : M (option addr) := alloc (ObjSem value).

Definition semaphore_free (s : option addr) : M unit := free s.

Definition semaphore_wait (s : addr) : M unit :=
  n ← load_sem s;
  match n with
  | O => block
  | S n' => store s (ObjSem n')
  end.

Definition semaphore_post (s : addr) : M unit :=
  n ← load_sem s;
  store s (ObjSem (S n)).

Definition fixed_queue_new (cap : nat) : M (option addr) :=
  alloc (ObjQueue (mk_queue cap [])).

Fixpoint free_items (l : list addr) : M unit :=
  match l with
  | [] => mret tt
  | a :: l' => free (Some a);; free_items l'
  end.

Definition fixed_queue_free (q : option addr) : M unit :=
  match q with
  | None => mret tt
  | Some a => Q ← load_queue a; free_items (items Q);; free (Some a)
  end.

Definition fixed_queue_enqueue (q : option addr) (item : addr) : M unit :=
  a ← deref q;
  Q ← load_queue a;
  if decide (length (items Q) < capacity Q)
  then store a (ObjQueue (mk_queue (capacity Q) (items Q ++ [item])))
  else block.

Definition fixed_queue_dequeue (a : addr) : M addr :=
  Q ← load_queue a;
  match items Q with
  | [] => block
  | i :: rest => store a (ObjQueue (mk_queue (capacity Q) rest));; mret i
  end.

Definition fixed_queue_try_dequeue (q : option addr) : M (option addr) :=
  a ← deref q;
  Q ← load_queue a;
  match items Q with
  | [] => mret None
  | i :: rest => store a (ObjQueue (mk_queue (capacity Q) rest));; mret (Some i)
  end.

Definition fixed_queue_get_dequeue_fd (q : option addr) : M Z :=
  a ← deref q; mret (Z.pos a).

Definition reactor_new : M (option addr) := alloc (ObjReactor (mk_reactor [] false)).

Definition reactor_free (r : option addr) : M unit := free r.

Definition reactor_register (r : option addr) (obj : reactor_object_t) : M unit :=
  a ← deref r;
  R ← load_reactor a;
  store a (ObjReactor (mk_reactor (registered R ++ [obj]) (stop_requested R))).

Definition reactor_unregister (r : option addr) (obj : reactor_object_t) : M unit :=
  a ← deref r;
  R ← load_reactor a;
  store a (ObjReactor (mk_reactor (filter (λ o, o ≠ obj) (registered R))
                                  (stop_requested R))).

Definition reactor_stop (r : option addr) : M unit :=
  a ← deref r;
  R ← load_reactor a;
  store a (ObjReactor (mk_reactor (registered R) true)).

(** *** The C library and the OS *)

Definition malloc : M (option addr) := alloc ObjRaw.

(** [prctl(PR_SET_NAME, name)]: the [k]-th call succeeds (returns 0) when
    [prctl_errno w k] is 0, and otherwise returns -1 with [errno] set to that
    value; a failing call always sets a nonzero [errno]. *)
Definition prctl_set_name (name : list byte) : M Z := λ w,
  let e := prctl_errno w (prctl_calls w) in
  if decide (e = 0%Z) then Ret 0%Z (set_prctl (S (prctl_calls w)) (errno w) w)
  else Ret (-1)%Z (set_prctl (S (prctl_calls w)) e w).

Definition get_errno : M Z := λ w, Ret (errno w) w.

Definition gettid (self : nat) : M Z := mret (Z.of_nat self).

(** [pthread_create]: the [k]-th call succeeds when [pthread_create_errno w k]
    is 0, starts a new OS thread at the top of [run_thread] and stores its
    id; otherwise it returns that error number and starts nothing.  The
    result here is the id stored, if any: [thread_new] does not look at the
    error number. *)
Definition pthread_create : M (option nat) := λ w,
  let w1 := set_pthread_create_calls (S (pthread_create_calls w)) w in
  if decide (pthread_create_errno w (pthread_create_calls w) = 0%Z) then
    let id := fresh (dom (os_threads w)) in
    Ret (Some id) (set_os_threads (<[id := pc_started]> (os_threads w)) w1)
  else Ret None w1.

Definition set_pc (self : nat) (p : pc) : M unit := λ w,
  Ret tt (set_os_threads (<[self := p]> (os_threads w)) w).

Definition get_pc (self : nat) : M pc := λ w,
  match os_threads w !! self with Some p => Ret p w | None => Crash w end.

(** [pthread_join], called on the OS thread [caller]: it returns once the
    thread joined has returned from [run_thread], and reclaims it.  A thread
    that joins itself gets [EDEADLK] at once; [thread_free] does not look at
    the result, so the model does not carry it. *)
Definition pthread_join (caller : nat) (p : option nat) : M unit :=
  self ← deref p;
  st ← get_pc self;
  match st with
  | pc_exited => λ w, Ret tt (set_os_threads (delete self (os_threads w)) w)
  | _ => if decide (caller = self) then mret tt else block
  end.

(** [strncpy(dst, src, n)] into a zeroed buffer, and the C string a buffer
    holds.  The argument [src] is the string's characters; it ends at its
    first NUL or at the end of the list. *)
Fixpoint strncpy (src : list byte) (n : nat) : list byte :=
  match n with
  | O => []
  | S n' =>
      match src with
      | [] => x00 :: strncpy [] n'
      | c :: rest =>
          if decide (c = x00) then x00 :: strncpy [] n'
          else c :: strncpy rest n'
      end
  end.

Fixpoint c_str (buf : list byte) : list byte :=
  match buf with
  | [] => []
  | c :: rest => if decide (c = x00) then [] else c :: c_str rest
  end.

(** ** thread.c *)

Definition WORK_QUEUE_CAPACITY : nat := 128.

Definition set_thread_reactor (r : option addr) (t : thread_t) : thread_t :=
  mk_thread (pthread t) (tid t) (name t) r (work_queue t).
Definition set_thread_work_queue (q : option addr) (t : thread_t) : thread_t :=
  mk_thread (pthread t) (tid t) (name t) (reactor t) q.
Definition set_thread_name (n : list byte) (t : thread_t) : thread_t :=
  mk_thread (pthread t) (tid t) n (reactor t) (work_queue t).
Definition set_thread_pthread (p : option nat) (t : thread_t) : thread_t :=
  mk_thread p (tid t) (name t) (reactor t) (work_queue t).
Definition set_thread_tid (i : Z) (t : thread_t) : thread_t :=
  mk_thread (pthread t) i (name t) (reactor t) (work_queue t).

(** [p->field = v] for a [thread_t *p]. *)
Definition update_thread (p : addr) (f : thread_t → thread_t) : M unit :=
  t ← load_thread p; store p (ObjThread (f t)).

(** [bool thread_post(thread_t *thread, thread_fn func, void *context)] *)
Definition thread_post (thread : addr) (f : thread_fn) (c : context) : M bool :=
  item ← malloc;
  match item with
  | None => ALOG log_post_alloc_failed;; mret false
  | Some i =>
      store i (ObjWorkItem (mk_work_item f c));;
      t ← load_thread thread;
      fixed_queue_enqueue (work_queue t) i;;
      mret true
  end.

(** [void thread_stop(thread_t *thread)] *)
Definition thread_stop (thread : addr) : M unit :=
  t ← load_thread thread;
  reactor_stop (reactor t).

(** [reactor_t *thread_get_reactor(const thread_t *thread)] *)
Definition thread_get_reactor (thread : addr) : M (option addr) :=
  t ← load_thread thread; mret (reactor t).

(** [const char *thread_name(const thread_t *thread)]: the buffer
    [thread->name]; the string the caller reads from it is its [c_str]. *)
Definition thread_name (thread : addr) : M (list byte) :=
  t ← load_thread thread; mret (name t).

(** [void thread_register(thread_t *thread, reactor_object_t *reactor_object)].
    The two assignments go through [arg] whatever [malloc] returned. *)
Definition thread_register (thread : addr) (reactor_object : reactor_object_t)
  : M unit :=
  arg ← malloc;
  a ← deref arg;
  store a (ObjRegisterArg (mk_register_arg thread reactor_object));;
  thread_post thread fn_register_with_reactor_cb (ctx_register_arg a);;
  mret tt.

(** [void thread_unregister(thread_t *thread, reactor_object_t *reactor_object)],
    in two parts: up to the [thread_post] (the result is the semaphore the
    caller is about to wait on, or null when the function has returned),
    and from [semaphore_wait] on. *)
Definition thread_unregister_request (thread : addr)
    (reactor_object : reactor_object_t) : M (option addr) :=
  sem ← semaphore_new 0;
  match sem with
  | None => ALOG log_unregister_sem_failed;; mret None
  | Some s =>
      thread_post thread fn_unregister_with_reactor_cb
                  (ctx_unregister_arg thread reactor_object s);;
      mret (Some s)
  end.

Definition thread_unregister_wait (s : addr) : M unit :=
  semaphore_wait s;;
  semaphore_free (Some s).

Definition thread_unregister (thread : addr) (reactor_object : reactor_object_t)
  : M unit :=
  sem ← thread_unregister_request thread reactor_object;
  match sem with
  | None => mret tt
  | Some s => thread_unregister_wait s
  end.

(** [static void register_with_reactor_cb(void *context)] *)
Definition register_with_reactor_cb (c : context) : M unit :=
  match c with
  | ctx_register_arg a =>
      arg ← load_register_arg a;
      r ← thread_get_reactor (ra_thread arg);
      reactor_register r (ra_reactor_object arg);;
      free (Some a)
  | _ => crash
  end.

(** [static void unregister_with_reactor_cb(void *context)] *)
Definition unregister_with_reactor_cb (c : context) : M unit :=
  match c with
  | ctx_unregister_arg thread reactor_object unregistered_sem =>
      r ← thread_get_reactor thread;
      reactor_unregister r reactor_object;;
      semaphore_post unregistered_sem
  | _ => crash
  end.

(** [item->func(item->context)], run on the OS thread [self].  What a
    caller's function does is its own business: the model records that it
    ran. *)
Definition call (self : nat) (f : thread_fn) (c : context) : M unit :=
  emit (ev_item self f c);;
  match f with
  | fn_user _ => mret tt
  | fn_register_with_reactor_cb => register_with_reactor_cb c
  | fn_unregister_with_reactor_cb => unregister_with_reactor_cb c
  end.

(** [static void work_queue_read_cb(void *context)] *)
Definition work_queue_read_cb (self : nat) (c : ro_context_t) : M unit :=
  match c with
  | roc_queue queue =>
      item ← fixed_queue_dequeue queue;
      i ← load_work_item item;
      call self (func i) (wi_context i);;
      free (Some item)
  | _ => crash
  end.

(** *** [run_thread], piece by piece

    The prologue (up to [semaphore_post(start->start_sem)]) runs while the
    creator waits on the semaphore; it returns the [start_arg] as it has left
    it.  Then come the entry into the reactor, the hand-over from
    [reactor_start] to the drain loop, and one turn of the drain loop. *)
Definition run_thread_prologue (self : nat) (start : start_arg) : M start_arg :=
  t ← load_thread (sa_thread start);
  rc ← prctl_set_name (name t);
  if decide (rc = (-1)%Z) then
    e ← get_errno;
    ALOG (log_set_name_failed e);;
    semaphore_post (start_sem start);;
    set_pc self pc_exited;;
    mret (mk_start_arg (sa_thread start) (start_sem start) e)
  else
    i ← gettid self;
    update_thread (sa_thread start) (set_thread_tid i);;
    semaphore_post (start_sem start);;
    mret start.

Definition work_queue_object (q : addr) (fd : Z) : reactor_object_t :=
  mk_reactor_object (roc_queue q) fd REACTOR_INTEREST_READ cb_work_queue_read_cb.

Definition run_thread_enter (self : nat) (thread : addr) : M unit :=
  t ← load_thread thread;
  fd ← fixed_queue_get_dequeue_fd (work_queue t);
  q ← deref (work_queue t);
  reactor_register (reactor t) (work_queue_object q fd);;
  set_pc self pc_loop.

(** Modelled from the spec: one dispatch of [reactor_start], the engine
    calling the [read_ready] of a registered descriptor that is ready. *)
Definition reactor_dispatch (self : nat) (r : option addr) (obj : reactor_object_t)
  : M unit :=
  a ← deref r;
  R ← load_reactor a;
  if decide (obj ∈ registered R) then
    match ro_read_ready obj with
    | cb_work_queue_read_cb => work_queue_read_cb self (ro_context obj)
    | cb_user _ => emit (ev_ready self obj)
    end
  else crash.

(** Modelled from the spec: [reactor_start] returns once a stop has been
    requested.  Then [size_t count = 0; work_item_t *item =
    fixed_queue_try_dequeue(thread->work_queue);]. *)
Definition run_thread_leave_reactor (self : nat) (thread : addr) : M unit :=
  t ← load_thread thread;
  a ← deref (reactor t);
  R ← load_reactor a;
  if stop_requested R then
    item ← fixed_queue_try_dequeue (work_queue t);
    set_pc self (pc_drain item 0)
  else block.

(** One evaluation of [while (item && count <= WORK_QUEUE_CAPACITY)] and
    what follows it: the body, or the end of the function. *)
Definition run_thread_drain (self : nat) (thread : addr)
    (item : option addr) (count : nat) : M unit :=
  match item with
  | Some it =>
      if decide (count ≤ WORK_QUEUE_CAPACITY) then
        i ← load_work_item it;
        call self (func i) (wi_context i);;
        free (Some it);;
        t ← load_thread thread;
        item' ← fixed_queue_try_dequeue (work_queue t);
        set_pc self (pc_drain item' (S count))
      else
        (if decide (WORK_QUEUE_CAPACITY < count) then ALOG log_growing_queue
         else mret tt);;
        set_pc self pc_exited
  | None =>
      (if decide (WORK_QUEUE_CAPACITY < count) then ALOG log_growing_queue
       else mret tt);;
      set_pc self pc_exited
  end.

(** [void thread_free(thread_t *thread)], called on the OS thread [caller]:
    [thread_stop], then the part from [pthread_join] on. *)
Definition thread_free_join (caller : nat) (thread : addr) : M unit :=
  t ← load_thread thread;
  pthread_join caller (pthread t);;
  fixed_queue_free (work_queue t);;
  reactor_free (reactor t);;
  free (Some thread).

Definition thread_free (caller : nat) (thread : option addr) : M unit :=
  match thread with
  | None => mret tt
  | Some t => thread_stop t;; thread_free_join caller t
  end.

Section thread_new.
(** [THREAD_NAME_MAX] is defined in [thread.h]. *)
Variable THREAD_NAME_MAX : nat.

(** [calloc(1, sizeof(thread_t))] *)
Definition calloc_thread : M (option addr) :=
  alloc (ObjThread (mk_thread None 0 (replicate (S THREAD_NAME_MAX) x00) None None)).

(** The code at the label [error:]. *)
Definition thread_new_error (ret : option addr) : M (option addr) :=
  match ret with
  | Some r =>
      t ← load_thread r;
      fixed_queue_free (work_queue t);;
      reactor_free (reactor t)
  | None => mret tt
  end;;
  free ret;;
  mret None.

(** [strncpy(ret->name, name, THREAD_NAME_MAX)] on the buffer
    [char name[THREAD_NAME_MAX + 1]]. *)
Definition strncpy_name (src : list byte) (t : thread_t) : thread_t :=
  set_thread_name (strncpy src THREAD_NAME_MAX ++ drop THREAD_NAME_MAX (name t)) t.

(** [thread_t *thread_new(const char *name)].  Between [pthread_create] and
    the return of [semaphore_wait] the creator is suspended and the spawned
    thread runs its prologue.  When [pthread_create] fails there is no
    spawned thread, and the creator goes on to [semaphore_wait] all the
    same. *)
Definition thread_new (name : list byte) : M (option addr) :=
  ret ← calloc_thread;
  match ret with
  | None => thread_new_error ret
  | Some r =>
      re ← reactor_new;
      update_thread r (set_thread_reactor re);;
      if decide (re = None) then thread_new_error ret else
      wq ← fixed_queue_new WORK_QUEUE_CAPACITY;
      update_thread r (set_thread_work_queue wq);;
      if decide (wq = None) then thread_new_error ret else
      sem ← semaphore_new 0;
      match sem with
      | None => thread_new_error ret
      | Some s =>
          update_thread r (strncpy_name name);;
          created ← pthread_create;
          start ← match created with
                   | Some self =>
                       update_thread r (set_thread_pthread (Some self));;
                       run_thread_prologue self (mk_start_arg r s 0)
                   | None => mret (mk_start_arg r s 0)
                   end;
          semaphore_wait s;;
          semaphore_free (Some s);;
          if decide (error start = 0%Z) then mret ret
          else thread_new_error ret
      end
  end.
End thread_new.

(** ** The callers and the worker, interleaved

    A caller's event source: a [reactor_object_t] of its own, whose
    [read_ready] is one of the caller's functions ([work_queue_read_cb] is
    static, no caller can name it). *)
Record source := mk_source {
  src_context : Z;
  src_fd : Z;
  src_interest : reactor_interest;
  src_read_ready : Z
}.

Definition source_object (s : source) : reactor_object_t :=
  mk_reactor_object (roc_opaque (src_context s)) (src_fd s) (src_interest s)
                    (cb_user (src_read_ready s)).

(** *** Actions

    One [action] is one atomic step of some execution context on the thread
    under study: a caller's [thread_post] of one of its own functions,
    [thread_register], the two halves of [thread_unregister],
    [thread_stop], [thread_free] from its [pthread_join] on; or a step of the
    worker in [run_thread]: entering the reactor, the reactor finding a
    caller's source ready, the reactor finding the work queue readable,
    [reactor_start] returning, one turn of the drain loop.  An action that
    would suspend its context is not enabled ([Block]).  The callers'
    calls are made on OS threads other than the worker; a [thread_free]
    made from a work item is [thread_free] applied to the worker's own
    id. *)
Inductive action :=
  | act_post (id : Z) (c : context)
  | act_register (src : source)
  | act_unregister_request (src : source)
  | act_unregister_wait (s : addr)
  | act_stop
  | act_free_join
  | act_enter
  | act_ready (src : source)
  | act_ready_queue
  | act_leave_reactor
  | act_drain.

Definition caller_thread (t : thread_t) : nat :=
  match pthread t with Some self => S self | None => 0 end.

Definition worker_step (thread : addr) (a : action) : M unit :=
  t ← load_thread thread;
  self ← deref (pthread t);
  p ← get_pc self;
  match p, a with
  | pc_started, act_enter => run_thread_enter self thread
  | pc_loop, act_ready src => reactor_dispatch self (reactor t) (source_object src)
  | pc_loop, act_ready_queue =>
      fd ← fixed_queue_get_dequeue_fd (work_queue t);
      q ← deref (work_queue t);
      reactor_dispatch self (reactor t) (work_queue_object q fd)
  | pc_loop, act_leave_reactor => run_thread_leave_reactor self thread
  | pc_drain item count, act_drain => run_thread_drain self thread item count
  | _, _ => block
  end.

(** A step returns the work items whose [thread_post] has just returned
    [true] to a caller. *)
Definition step (thread : addr) (a : action) : M (list work_item_t) :=
  match a with
  | act_post id c =>
      b ← thread_post thread (fn_user id) c;
      mret (if b : bool then [mk_work_item (fn_user id) c] else [])
  | act_register src => thread_register thread (source_object src);; mret []
  | act_unregister_request src =>
      thread_unregister_request thread (source_object src);; mret []
  | act_unregister_wait s => thread_unregister_wait s;; mret []
  | act_stop => thread_stop thread;; mret []
  | act_free_join =>
      t ← load_thread thread;
      thread_free_join (caller_thread t) thread;; mret []
  | _ => worker_step thread a;; mret []
  end.

Fixpoint run (thread : addr) (sched : list action) : M (list work_item_t) :=
  match sched with
  | [] => mret []
  | a :: rest =>
      ps ← step thread a;
      qs ← run thread rest;
      mret (ps ++ qs)
  end.

(** *** Observations *)

(** The work items run so far, in the order they ran. *)
Definition executed (w : world) : list work_item_t :=
  omap (λ e, match e with
             | ev_item _ f c => Some (mk_work_item f c)
             | ev_ready _ _ => None
             end) (trace w).

(** The OS threads that have run a callback. *)
Definition ran_on (e : event) : nat :=
  match e with ev_item on _ _ => on | ev_ready on _ => on end.

Definition lookup_thread (w : world) (thread : addr) : option thread_t :=
  match heap w !! thread with Some (ObjThread t) => Some t | _ => None end.

Definition lookup_item (w : world) (a : addr) : option work_item_t :=
  match heap w !! a with Some (ObjWorkItem i) => Some i | _ => None end.

Definition lookup_queue (w : world) (thread : addr) : option fixed_queue_t :=
  t ← lookup_thread w thread;
  q ← work_queue t;
  match heap w !! q with Some (ObjQueue Q) => Some Q | _ => None end.

Definition lookup_reactor (w : world) (thread : addr) : option reactor_t :=
  t ← lookup_thread w thread;
  r ← reactor t;
  match heap w !! r with Some (ObjReactor R) => Some R | _ => None end.

(** The work items in the queue, oldest first. *)
Definition queued (w : world) (thread : addr) : list work_item_t :=
  match lookup_queue w thread with
  | Some Q => omap (lookup_item w) (items Q)
  | None => []
  end.

Definition worker_pc (w : world) (thread : addr) : option pc :=
  t ← lookup_thread w thread;
  self ← pthread t;
  os_threads w !! self.

Definition is_user_item (i : work_item_t) : bool :=
  match func i with fn_user _ => true | _ => false end.

(** The item the drain loop holds in its local [item]. *)
Definition cur_item (p : pc) : list addr :=
  match p with pc_drain (Some a) _ => [a] | _ => [] end.

(** *** Well-formed threads

    What [thread_new] establishes and every action keeps: the handle points
    to a control block whose reactor, queue and OS thread exist, the queue
    has the capacity it was created with and respects it, and the pointers
    in the queue (and in the drain loop's [item]) are distinct live work
    items, here [its]. *)
Definition thread_inv (w : world) (thread : addr) (t : thread_t) (self : nat)
    (ra qa : addr) (p : pc) (Q : fixed_queue_t) (its : list work_item_t) : Prop :=
  heap w !! thread = Some (ObjThread t) ∧
  pthread t = Some self ∧ reactor t = Some ra ∧ work_queue t = Some qa ∧
  (∃ R, heap w !! ra = Some (ObjReactor R)) ∧
  os_threads w !! self = Some p ∧
  heap w !! qa = Some (ObjQueue Q) ∧
  capacity Q = WORK_QUEUE_CAPACITY ∧
  length (items Q) ≤ capacity Q ∧
  Forall2 (λ a i, heap w !! a = Some (ObjWorkItem i)) (cur_item p ++ items Q) its ∧
  NoDup (cur_item p ++ items Q).

Definition thread_ok (w : world) (thread : addr) : Prop :=
  ∃ t self ra qa p Q its, thread_inv w thread t self ra qa p Q its.

(** * The vocabulary of the statements *)

(** ** The heap cells a callback leaves alone

    The functions this file posts to itself touch reactors, semaphores and
    their own argument block; control blocks, queues and work items stay as
    they are, and a reactor stays a reactor with the same stop request. *)
Definition stable (o : object) : Prop :=
  match o with ObjThread _ | ObjQueue _ | ObjWorkItem _ => True | _ => False end.

Definition heap_frame (w w' : world) : Prop :=
  (∀ a o, heap w !! a = Some o → stable o → heap w' !! a = Some o) ∧
  (∀ a R, heap w !! a = Some (ObjReactor R) →
     ∃ R', heap w' !! a = Some (ObjReactor R') ∧ stop_requested R' = stop_requested R).

Definition frame (w w' : world) : Prop :=
  heap_frame w w' ∧ os_threads w' = os_threads w ∧ syslog w' = syslog w.

(** What a successful [thread_new] returns. *)
Definition fresh_thread (THREAD_NAME_MAX : nat) (w w' : world)
    (nm : list byte) (r : addr) : Prop :=
  ∃ t self ra qa,
    thread_inv w' r t self ra qa pc_started (mk_queue WORK_QUEUE_CAPACITY []) [] ∧
    name t = strncpy nm THREAD_NAME_MAX ++ [x00] ∧
    tid t = Z.of_nat self ∧
    heap w !! r = None ∧ heap w !! ra = None ∧ heap w !! qa = None ∧
    heap w' = <[r := ObjThread t]>
                (<[qa := ObjQueue (mk_queue WORK_QUEUE_CAPACITY [])]>
                   (<[ra := ObjReactor (mk_reactor [] false)]> (heap w))) ∧
    os_threads w !! self = None ∧
    os_threads w' = <[self := pc_started]> (os_threads w).

(** ** What one action does, seen from outside

    The view of a thread: where the worker stands, the work items not yet
    run (the one in the drain loop's hands first, then the queue, oldest
    first), the callbacks run so far, and the diagnostics. *)
Record view := mk_view {
  v_pc : pc;
  v_pending : list work_item_t;
  v_trace : list event;
  v_log : list log_msg
}.

Definition is_caller (a : action) : Prop :=
  match a with
  | act_post _ _ | act_register _ | act_unregister_request _
  | act_unregister_wait _ | act_stop | act_free_join => True
  | _ => False
  end.

Inductive astep (self : nat) : action → list work_item_t → view → view → Prop :=
  | as_post id c p its tr lg :
      astep self (act_post id c) [mk_work_item (fn_user id) c]
        (mk_view p its tr lg)
        (mk_view p (its ++ [mk_work_item (fn_user id) c]) tr lg)
  | as_post_fail id c p its tr lg :
      astep self (act_post id c) []
        (mk_view p its tr lg) (mk_view p its tr (lg ++ [log_post_alloc_failed]))
  | as_register (o : source) a p its tr lg :
      astep self (act_register o) []
        (mk_view p its tr lg)
        (mk_view p (its ++ [mk_work_item fn_register_with_reactor_cb (ctx_register_arg a)])
                 tr lg)
  | as_register_fail o p its tr lg :
      astep self (act_register o) []
        (mk_view p its tr lg) (mk_view p its tr (lg ++ [log_post_alloc_failed]))
  | as_unregister o th s p its tr lg :
      astep self (act_unregister_request o) []
        (mk_view p its tr lg)
        (mk_view p (its ++ [mk_work_item fn_unregister_with_reactor_cb
                                         (ctx_unregister_arg th (source_object o) s)])
                 tr lg)
  | as_unregister_fail o m p its tr lg :
      m = log_post_alloc_failed ∨ m = log_unregister_sem_failed →
      astep self (act_unregister_request o) []
        (mk_view p its tr lg) (mk_view p its tr (lg ++ [m]))
  | as_unregister_wait s v :
      astep self (act_unregister_wait s) [] v v
  | as_stop v :
      astep self act_stop [] v v
  | as_enter its tr lg :
      astep self act_enter []
        (mk_view pc_started its tr lg) (mk_view pc_loop its tr lg)
  | as_ready_source o its tr lg :
      astep self (act_ready o) []
        (mk_view pc_loop its tr lg)
        (mk_view pc_loop its (tr ++ [ev_ready self (source_object o)]) lg)
  | as_ready_queue i its tr lg :
      astep self act_ready_queue []
        (mk_view pc_loop (i :: its) tr lg)
        (mk_view pc_loop its (tr ++ [ev_item self (func i) (wi_context i)]) lg)
  | as_leave item its tr lg :
      (item = None ↔ its = []) →
      astep self act_leave_reactor []
        (mk_view pc_loop its tr lg) (mk_view (pc_drain item 0) its tr lg)
  | as_drain_body x n item i its tr lg :
      n ≤ WORK_QUEUE_CAPACITY →
      (item = None ↔ its = []) →
      astep self act_drain []
        (mk_view (pc_drain (Some x) n) (i :: its) tr lg)
        (mk_view (pc_drain item (S n)) its
                 (tr ++ [ev_item self (func i) (wi_context i)]) lg)
  | as_drain_exit item n its tr lg :
      item = None ∨ WORK_QUEUE_CAPACITY < n →
      astep self act_drain []
        (mk_view (pc_drain item n) its tr lg)
        (mk_view pc_exited (drop (length (cur_item (pc_drain item n))) its) tr
                 (lg ++ if decide (WORK_QUEUE_CAPACITY < n)
                        then [log_growing_queue] else [])).

(** The thread's invariant with the view it induces and the reactor's stop
    request. *)
Definition thread_view (w : world) (thread : addr) (t : thread_t) (self : nat)
    (ra qa : addr) (stop : bool) (v : view) : Prop :=
  (∃ Q, thread_inv w thread t self ra qa (v_pc v) Q (v_pending v)) ∧
  (∃ R, heap w !! ra = Some (ObjReactor R) ∧ stop_requested R = stop) ∧
  v_trace v = trace w ∧ v_log v = syslog w.

Definition is_stop (a : action) : bool :=
  match a with act_stop => true | _ => false end.

(** [astep], iterated along a schedule. *)
Inductive aruns (self : nat) : list action → list work_item_t → view → view → Prop :=
  | aruns_nil v : aruns self [] [] v v
  | aruns_cons a sched ps qs v1 v2 v3 :
      astep self a ps v1 v2 →
      aruns self sched qs v2 v3 →
      aruns self (a :: sched) (ps ++ qs) v1 v3.

Definition items_of (tr : list event) : list work_item_t :=
  omap (λ e, match e with
             | ev_item _ f c => Some (mk_work_item f c)
             | ev_ready _ _ => None
             end) tr.

(** The OS thread that runs [run_thread] for a handle, and the work items
    it has not run yet: the one in the hands of the drain loop, then the
    queue. *)
Definition worker_id (w : world) (thread : addr) : option nat :=
  t ← lookup_thread w thread; pthread t.

Definition pending (w : world) (thread : addr) : list work_item_t :=
  match worker_pc w thread with
  | Some p => omap (lookup_item w) (cur_item p)
  | None => []
  end ++ queued w thread.

#[global] Instance source_eq_dec : EqDecision source.
Proof. solve_decision. Defined.
#[global] Instance action_eq_dec : EqDecision action.
Proof. solve_decision. Defined.

(** What can happen once the reactor is about to return: callers go on
    calling, the worker leaves [reactor_start] and turns in the drain
    loop. *)
Definition drain_phase (a : action) : Prop :=
  match a with
  | act_post _ _ | act_register _ | act_unregister_request _
  | act_unregister_wait _ | act_stop | act_leave_reactor | act_drain => True
  | _ => False
  end.

(** How many times the condition of the drain loop is evaluated. *)
Definition loop_tests (sched : list action) : nat :=
  length (filter (λ a, a = act_drain) sched).

Definition caller_change (v v' : view) : Prop :=
  v_pc v' = v_pc v ∧ v_trace v' = v_trace v ∧
  ∃ new l, v_pending v' = v_pending v ++ new ∧ v_log v' = v_log v ++ l ∧
           log_growing_queue ∉ l.

(** The state of the drain after [k] evaluations of the loop condition,
    relative to the moment the reactor was about to return with [its0]
    pending, [tr0] run and [lg0] logged. *)
Definition drain_inv (its0 : list work_item_t) (tr0 : list event)
    (lg0 : list log_msg) (v : view) (k : nat) : Prop :=
  match v_pc v with
  | pc_started => False
  | pc_loop =>
      k = 0 ∧ v_trace v = tr0 ∧
      ∃ new l, v_pending v = its0 ++ new ∧ v_log v = lg0 ++ l ∧ log_growing_queue ∉ l
  | pc_drain item n =>
      k = n ∧ n ≤ S WORK_QUEUE_CAPACITY ∧
      ∃ evs new l,
        v_trace v = tr0 ++ evs ∧ length (items_of evs) = n ∧
        items_of evs ++ v_pending v = its0 ++ new ∧
        (item = None → ∃ e, items_of evs = its0 ++ e) ∧
        v_log v = lg0 ++ l ∧ log_growing_queue ∉ l
  | pc_exited =>
      k ≤ S (S WORK_QUEUE_CAPACITY) ∧
      ∃ evs extra l,
        v_trace v = tr0 ++ evs ∧ items_of evs = its0 ++ extra ∧
        length (its0 ++ extra) ≤ S WORK_QUEUE_CAPACITY ∧
        v_log v = lg0 ++ l ∧
        (log_growing_queue ∈ l ↔ WORK_QUEUE_CAPACITY < length (its0 ++ extra))
  end.

(** What the worker has run since a moment at which it was inside
    [reactor_start] (or about to enter it) with the items [its0] pending
    and the events [tr0] behind it: as long as it has not returned from
    [run_thread], the items run since, followed by those pending, are
    [its0] followed by what has been posted since; once the drain loop has
    found the queue empty, or the worker has returned, all of [its0] have
    been run, before anything else. *)
Definition served (its0 : list work_item_t) (tr0 : list event) (v : view) : Prop :=
  ∃ evs, v_trace v = tr0 ++ evs ∧
    match v_pc v with
    | pc_started | pc_loop => ∃ new, items_of evs ++ v_pending v = its0 ++ new
    | pc_drain item n =>
        n ≤ length (items_of evs) ∧
        (∃ new, items_of evs ++ v_pending v = its0 ++ new) ∧
        (item = None → ∃ e, items_of evs = its0 ++ e)
    | pc_exited => ∃ e, items_of evs = its0 ++ e
    end.

(** The worker is inside [reactor_start] with the descriptor of its queue
    registered. *)
Definition in_reactor (w : world) (thread : addr) : Prop :=
  worker_pc w thread = Some pc_loop ∧
  ∃ t q R, lookup_thread w thread = Some t ∧ work_queue t = Some q ∧
           lookup_reactor w thread = Some R ∧
           work_queue_object q (Z.pos q) ∈ registered R.

(** What [thread_free] makes happen: the stop request, then the reactor
    still calling [work_queue_read_cb] [k] times before it returns, then
    the drain loop evaluating its condition [m] times. *)
Definition free_schedule (k m : nat) : list action :=
  [act_stop] ++ repeat act_ready_queue k ++ [act_leave_reactor] ++ repeat act_drain m.

(** ** The books of the heap, and the course of the worker *)

(** The bookkeeping of the heap between two states: [D] and [D'] are the
    cells a thread holds before and after.  Every cell it does not hold
    afterwards is as it was, or is gone if the thread held it before; and
    what it holds now and did not hold before was not allocated before. *)
Definition accounted (D D' : list addr) (w w' : world) : Prop :=
  (∀ a, a ∉ D' →
        heap w' !! a = if bool_decide (a ∈ D) then None else heap w !! a) ∧
  (∀ a, a ∈ D' → a ∉ D → heap w !! a = None).

(** The cells a thread holds: its control block, reactor and queue, the
    work item in the hands of the drain loop and those in the queue. *)
Definition thread_cells (w : world) (thread : addr) : list addr :=
  match lookup_thread w thread with
  | Some t =>
      thread :: option_list (reactor t) ++ option_list (work_queue t) ++
      match worker_pc w thread with Some p => cur_item p | None => [] end ++
      match lookup_queue w thread with Some Q => items Q | None => [] end
  | None => []
  end.

(** Posting, stopping, and the steps of the worker. *)
Definition lifecycle_action (a : action) : Prop :=
  match a with
  | act_post _ _ | act_stop | act_enter | act_ready_queue
  | act_leave_reactor | act_drain => True
  | _ => False
  end.

(** How far the worker has got in [run_thread]. *)
Definition pc_rank (p : pc) : nat :=
  match p with
  | pc_started => 0
  | pc_loop => 1
  | pc_drain _ _ => 2
  | pc_exited => 3
  end.

(** ** A test thread

    The worlds the statements are tried on: nothing allocated and nothing
    failing; a thread named "test" created there with room for sixteen
    characters; the same thread inside its reactor with three work items
    posted; and that thread after its shutdown has run to the end. *)
Definition world_of {A} (r : result A) : world :=
  match r with Ret _ w | Block w | Crash w => w end.

Definition world0 : world :=
  mk_world ∅ ∅ (λ _, false) 0 (λ _, 0%Z) 0 0%Z [] [] (λ _, 0%Z) 0.

Definition name_test : list byte := [x74; x65; x73; x74].

Definition thread1 : addr := 1%positive.

Definition world1 : world := world_of (thread_new 16 name_test world0).

Definition posts3 : list action :=
  [act_post 1 (ctx_opaque 1); act_post 2 (ctx_opaque 2); act_post 3 (ctx_opaque 3)].

Definition items3 : list work_item_t :=
  [mk_work_item (fn_user 1) (ctx_opaque 1); mk_work_item (fn_user 2) (ctx_opaque 2);
   mk_work_item (fn_user 3) (ctx_opaque 3)].

Definition world2 : world := world_of (run thread1 (act_enter :: posts3) world1).

Definition drain_sched : list action :=
  [act_stop; act_leave_reactor; act_drain; act_drain; act_drain; act_drain].

Definition world3 : world := world_of (run thread1 drain_sched world2).

(** The same state with an allocator that has nothing left; an empty
    world where [prctl] fails with [EPERM]; and one where [pthread_create]
    fails with [EAGAIN]. *)
Definition no_memory (w : world) : world :=
  mk_world (heap w) (os_threads w) (λ _, true) (alloc_calls w)
           (prctl_errno w) (prctl_calls w) (errno w) (syslog w) (trace w)
           (pthread_create_errno w) (pthread_create_calls w).

Definition world_eperm : world :=
  mk_world ∅ ∅ (λ _, false) 0 (λ _, 1%Z) 0 0%Z [] [] (λ _, 0%Z) 0.

Definition world_eagain : world :=
  mk_world ∅ ∅ (λ _, false) 0 (λ _, 0%Z) 0 0%Z [] [] (λ _, 11%Z) 0.

(** A caller's event source, and the world where the worker has carried
    out the requests to register it and to unregister it again. *)
Definition source1 : source := mk_source 5 9 REACTOR_INTEREST_READ 11.

Definition unregister_sched : list action :=
  [act_register source1; act_unregister_request source1; act_ready_queue;
   act_ready_queue; act_ready_queue; act_ready_queue; act_ready_queue].

(** The semaphore that request allocates. *)
Definition sem1 : addr := 9%positive.

Definition world_unregistered : world :=
  world_of (run thread1 unregister_sched world2).

(** A post that comes after the worker has left its drain loop, followed
    by [thread_free]. *)
Definition late_post_sched : list action :=
  [act_enter; act_stop; act_leave_reactor; act_drain;
   act_post 7 (ctx_opaque 7); act_free_join].

(** A schedule in which the worker runs two of three posted items inside
    the reactor. *)
Definition order_sched : list action :=
  act_enter :: posts3 ++ [act_ready_queue; act_ready_queue].

Definition world4 : world := world_of (run thread1 order_sched world1).

(** An allocator that serves one request and refuses the next. *)
Definition second_alloc_fails (w : world) : world :=
  mk_world (heap w) (os_threads w) (λ n, bool_decide (n = S (alloc_calls w)))
           (alloc_calls w) (prctl_errno w) (prctl_calls w) (errno w)
           (syslog w) (trace w) (pthread_create_errno w) (pthread_create_calls w).

(** Further states of the test thread: inside the reactor with nothing
    posted; with its stop requested, and a little later; with a post that
    came after the worker's return; and after a shutdown during which
    callers kept posting, the drain loop having run 129 items and holding
    a 130th. *)
Definition world_idle : world := world_of (run thread1 [act_enter] world1).

Definition world_stopped : world := world_of (run thread1 [act_stop] world2).

Definition stopped_sched : list action :=
  [act_post 4 (ctx_opaque 4); act_ready_queue].

Definition world_stopped_later : world :=
  world_of (run thread1 stopped_sched world_stopped).

Definition world_late : world :=
  world_of (run thread1 [act_enter; act_stop; act_leave_reactor; act_drain;
                         act_post 7 (ctx_opaque 7)] world1).

Definition post_nth (k : nat) : action :=
  act_post (Z.of_nat k) (ctx_opaque (Z.of_nat k)).

Definition item_nth (k : nat) : work_item_t :=
  mk_work_item (fn_user (Z.of_nat k)) (ctx_opaque (Z.of_nat k)).

Definition overflow_sched : list action :=
  act_enter :: map post_nth (seq 1 128) ++
  [act_stop; act_leave_reactor; post_nth 129; act_drain; post_nth 130] ++
  repeat act_drain 128.

Definition world_overflow : world :=
  world_of (run thread1 overflow_sched world1).

Definition item_overflow : addr := 133%positive.

(** The whole life of the test thread between [thread_new] and
    [thread_free]. *)
Definition full_sched : list action := (act_enter :: posts3) ++ drain_sched.

(** The test thread just after its stop has been requested, the worker
    having served one more item inside the reactor; and what [thread_free]
    leaves once the worker has returned. *)
Definition world_stopping : world :=
  world_of (run thread1 [act_stop; act_ready_queue] world2).

Definition world_freed : world := world_of (step thread1 act_free_join world3).

(** A shutdown with the queue full: 128 items posted, the stop requested,
    and two more posts made by callers while the drain loop runs. *)
Definition fill_sched : list action := act_enter :: map post_nth (seq 1 128).

Definition world_full : world := world_of (run thread1 fill_sched world1).

Definition overflow_drain_sched : list action :=
  [act_stop; act_leave_reactor; post_nth 129; act_drain; post_nth 130] ++
  repeat act_drain 129.

Definition world_drained : world :=
  world_of (run thread1 overflow_drain_sched world_full).

(** * Verification *)

(** ** Running computations *)

Lemma bind_unfold {A B} (m : M A) (f : A → M B) w :
  (m ≫= f) w = match m w with
                | Ret a w' => f a w'
                | Block w' => Block w'
                | Crash w' => Crash w'
                end.
Proof. reflexivity. Qed.

Lemma bind_Ret {A B} (m : M A) (f : A → M B) w b w' :
  (m ≫= f) w = Ret b w' → ∃ a w1, m w = Ret a w1 ∧ f a w1 = Ret b w'.
Proof. rewrite bind_unfold. destruct (m w); naive_solver. Qed.

Lemma bind_Ret_intro {A B} (m : M A) (f : A → M B) w a w1 :
  m w = Ret a w1 → (m ≫= f) w = f a w1.
Proof. intros H. by rewrite bind_unfold, H. Qed.

Lemma alloc_ok o w :
  alloc_fails w (alloc_calls w) = false →
  ∃ a, heap w !! a = None ∧
       alloc o w = Ret (Some a) (set_heap (<[a := o]> (heap w))
                                  (set_alloc_calls (S (alloc_calls w)) w)).
Proof.
  intros H. exists (fresh (dom (heap w))). split.
  - apply not_elem_of_dom, is_fresh.
  - unfold alloc. by rewrite H.
Qed.

Lemma alloc_fail o w :
  alloc_fails w (alloc_calls w) = true →
  alloc o w = Ret None (set_alloc_calls (S (alloc_calls w)) w).
Proof. intros H. unfold alloc. by rewrite H. Qed.

Lemma alloc_Ret o w r w' :
  alloc o w = Ret r w' →
  (r = None ∧ alloc_fails w (alloc_calls w) = true ∧
   w' = set_alloc_calls (S (alloc_calls w)) w) ∨
  (∃ a, r = Some a ∧ alloc_fails w (alloc_calls w) = false ∧ heap w !! a = None ∧
        w' = set_heap (<[a := o]> (heap w)) (set_alloc_calls (S (alloc_calls w)) w)).
Proof.
  unfold alloc. destruct (alloc_fails w (alloc_calls w)); intros [= <- <-].
  - by left.
  - right. eexists. repeat split. apply not_elem_of_dom, is_fresh.
Qed.

(** The C-level pieces unfold under [simpl] once applied to a world. *)
Ltac unfold_prims :=
  unfold malloc, semaphore_new, semaphore_free, semaphore_wait, semaphore_post,
    fixed_queue_new, fixed_queue_enqueue, fixed_queue_dequeue,
    fixed_queue_try_dequeue, fixed_queue_get_dequeue_fd, reactor_new,
    reactor_free, reactor_register, reactor_unregister, reactor_stop,
    update_thread, thread_get_reactor, get_errno, gettid, set_pc, get_pc,
    pthread_join, ALOG, emit, deref, crash, block,
    load_thread, load_reactor, load_queue, load_sem, load_work_item,
    load_register_arg, store, free, mret, M_ret in *.

(** Forward: evaluate a call in a world about which enough is known. *)
Ltac mrun_step :=
  first
  [ rewrite bind_unfold
  | rewrite lookup_insert_eq | rewrite lookup_insert_ne by congruence
  | rewrite lookup_delete_eq | rewrite lookup_delete_ne by congruence
  | match goal with H : ?h !! ?a = _ |- context [?h !! ?a] => rewrite H end
  | match goal with H : ?x = Some _ |- context [match ?x with _ => _ end] => rewrite H end
  | match goal with H : ?x = true |- context [if ?x then _ else _] => rewrite H end
  | match goal with H : ?x = false |- context [if ?x then _ else _] => rewrite H end
  | rewrite decide_True by (done || lia)
  | rewrite decide_False by (done || lia)
  | progress simpl ].
Ltac mrun := repeat first [progress unfold_prims | mrun_step].

(** Backward: take apart the hypotheses that say how a call ended. *)
Ltac minv1 :=
  match goal with
  | H : Ret _ _ = _ |- _ => first [discriminate H | inversion H; subst; clear H]
  | H : Crash _ = _ |- _ => first [discriminate H | inversion H; subst; clear H]
  | H : Block _ = _ |- _ => first [discriminate H | inversion H; subst; clear H]
  | H : (_ ≫= _) _ = _ |- _ => rewrite bind_unfold in H
  | _ => progress simpl in *
  | H : context [<[?i:=_]> _ !! ?i] |- _ => rewrite lookup_insert_eq in H
  | H : context [<[_:=_]> _ !! _] |- _ => rewrite lookup_insert_ne in H by congruence
  | H : context [delete ?i _ !! ?i] |- _ => rewrite lookup_delete_eq in H
  | H : context [delete _ _ !! _] |- _ => rewrite lookup_delete_ne in H by congruence
  | H : (match ?x with _ => _ end) = _ , H' : ?x = _ |- _ => rewrite H' in H
  | H : (match ?x with _ => _ end) _ = _ , H' : ?x = _ |- _ => rewrite H' in H
  | H' : ?x = _, H : context [match ?x with _ => _ end] |- _ => rewrite H' in H
  | H : (match ?x with _ => _ end) = _ |- _ => destruct x eqn:?
  | H : (match ?x with _ => _ end) _ = _ |- _ => destruct x eqn:?
  end.
Ltac minv := repeat first [progress unfold_prims | minv1].

Ltac frame_lookup :=
  simpl in *; rewrite ?lookup_delete, ?lookup_insert in *;
  repeat case_decide; simplify_eq/=; try contradiction; eauto.

Lemma heap_frame_refl w w' : heap w' = heap w → heap_frame w w'.
Proof. intros E. split; rewrite E; eauto. Qed.

Lemma heap_frame_trans w1 w2 w3 :
  heap_frame w1 w2 → heap_frame w2 w3 → heap_frame w1 w3.
Proof.
  intros (H1 & H2) (G1 & G2). split.
  - eauto.
  - intros a R HR. destruct (H2 _ _ HR) as (R' & HR' & <-). eauto.
Qed.

Lemma heap_frame_insert_fresh w w' a o :
  heap w !! a = None → heap w' = <[a := o]> (heap w) → heap_frame w w'.
Proof.
  intros Hfr E. split; rewrite E.
  - intros b ob Hb _. rewrite lookup_insert_ne by congruence. done.
  - intros b R Hb. rewrite lookup_insert_ne by congruence. eauto.
Qed.

Lemma call_frame self f c w w' :
  call self f c w = Ret tt w' →
  frame w w' ∧ trace w' = trace w ++ [ev_item self f c].
Proof.
  intros H. unfold call, register_with_reactor_cb, unregister_with_reactor_cb in H.
  minv.
  - split; [|done]. repeat split; simpl; eauto.
  - split; [|done]. repeat split; simpl; try done.
    + intros ? ? Hb Hst. frame_lookup; try done.
    + intros ? ? Hb. frame_lookup.
  - split; [|done]. repeat split; simpl; try done.
    + intros ? ? Hb Hst. frame_lookup; try done.
    + intros ? ? Hb. frame_lookup.
Qed.

Lemma call_user self id c w :
  call self (fn_user id) c w = Ret tt (add_event (ev_item self (fn_user id) c) w).
Proof. reflexivity. Qed.

Lemma call_not_Block self f c w w' : call self f c w ≠ Block w'.
Proof.
  unfold call, register_with_reactor_cb, unregister_with_reactor_cb.
  intros H. minv.
Qed.

Arguments call : simpl never.

(** ** The queue as a list of work items *)

Lemma items_frame (h h' : gmap positive object) l its :
  Forall2 (λ a i, h !! a = Some (ObjWorkItem i)) l its →
  (∀ a i, a ∈ l → h !! a = Some (ObjWorkItem i) → h' !! a = Some (ObjWorkItem i)) →
  Forall2 (λ a i, h' !! a = Some (ObjWorkItem i)) l its.
Proof.
  induction 1 as [|a i l its Ha _ IH]; intros Hf; constructor.
  - apply Hf; [left | done].
  - apply IH. intros b j Hb. apply Hf. by right.
Qed.

Lemma items_stable (w w' : world) l its :
  Forall2 (λ a i, heap w !! a = Some (ObjWorkItem i)) l its →
  (∀ a o, heap w !! a = Some o → stable o → heap w' !! a = Some o) →
  Forall2 (λ a i, heap w' !! a = Some (ObjWorkItem i)) l its.
Proof. intros H Hf. eapply items_frame; [done|]. intros a i _ Ha. by apply Hf. Qed.

Lemma omap_lookup_items (w : world) l its :
  Forall2 (λ a i, heap w !! a = Some (ObjWorkItem i)) l its →
  omap (lookup_item w) l = its.
Proof.
  induction 1 as [|a i l its Ha _ IH]; [done|].
  cbn. unfold lookup_item at 1. rewrite Ha. cbn. by f_equal.
Qed.

Lemma queued_inv w thread t self ra qa p Q its :
  thread_inv w thread t self ra qa p Q its →
  queued w thread = drop (length (cur_item p)) its ∧
  worker_pc w thread = Some p ∧
  lookup_queue w thread = Some Q.
Proof.
  intros (Ht & Hp & Hr & Hq & _ & Hpc & HQ & _ & _ & Hits & _).
  assert (lookup_queue w thread = Some Q) as HlQ.
  { unfold lookup_queue, lookup_thread. rewrite Ht. simpl. rewrite Hq. simpl.
    by rewrite HQ. }
  split_and!; [|unfold worker_pc, lookup_thread; rewrite Ht; simpl; rewrite Hp; done|done].
  unfold queued. rewrite HlQ.
  apply Forall2_app_inv_l in Hits as (i1 & i2 & H1 & H2 & ->).
  rewrite (omap_lookup_items _ _ _ H2).
  apply Forall2_length in H1. rewrite H1. by rewrite drop_app_length.
Qed.

(** ** [thread_post] *)

Lemma thread_post_ok thread f c w t self ra qa p Q its :
  thread_inv w thread t self ra qa p Q its →
  alloc_fails w (alloc_calls w) = false →
  length (items Q) < capacity Q →
  ∃ i w', heap w !! i = None ∧
    thread_post thread f c w = Ret true w' ∧
    heap w' = <[qa := ObjQueue (mk_queue (capacity Q) (items Q ++ [i]))]>
                (<[i := ObjWorkItem (mk_work_item f c)]> (heap w)) ∧
    os_threads w' = os_threads w ∧ trace w' = trace w ∧ syslog w' = syslog w ∧
    thread_inv w' thread t self ra qa p (mk_queue (capacity Q) (items Q ++ [i]))
               (its ++ [mk_work_item f c]).
Proof.
  intros (Ht & Hp & Hr & Hq & [R HR] & Hpc & HQ & Hcap & Hlen & Hits & Hnd) Ha Hroom.
  destruct (alloc_ok ObjRaw w Ha) as (i & Hi & Hal).
  exists i. eexists. split; [done|].
  assert (i ≠ thread ∧ i ≠ qa ∧ i ≠ ra) as (? & ? & ?) by (split_and!; congruence).
  split.
  { unfold thread_post, malloc. rewrite (bind_Ret_intro _ _ _ _ _ Hal).
    mrun. reflexivity. }
  simpl. rewrite insert_insert_eq.
  split_and!; try done.
  assert (Forall (λ a, a ≠ i) (cur_item p ++ items Q)) as Hne.
  { eapply Forall2_Forall_l; [exact Hits|]. apply list.Forall_forall. intros; congruence. }
  repeat split; simpl; mrun; try done.
  - eauto.
  - rewrite length_app. simpl. lia.
  - rewrite app_assoc. apply Forall2_app.
    + eapply items_frame; [done|]. intros a j Hin Haj.
      rewrite list.Forall_forall in Hne. specialize (Hne a Hin).
      rewrite !lookup_insert_ne by congruence. done.
    + constructor; [|constructor]. mrun. done.
  - rewrite app_assoc. apply list.NoDup_app. split_and!; [done| |apply NoDup_singleton].
    intros a Hin ->%list_elem_of_singleton. rewrite list.Forall_forall in Hne.
    by apply (Hne i).
Qed.

Lemma thread_post_fail thread f c w :
  alloc_fails w (alloc_calls w) = true →
  thread_post thread f c w =
    Ret false (add_log log_post_alloc_failed (set_alloc_calls (S (alloc_calls w)) w)).
Proof.
  intros Ha. unfold thread_post, malloc.
  by rewrite (bind_Ret_intro _ _ _ _ _ (alloc_fail _ _ Ha)).
Qed.

Lemma thread_post_full thread f c w t self ra qa p Q its :
  thread_inv w thread t self ra qa p Q its →
  alloc_fails w (alloc_calls w) = false →
  ¬ length (items Q) < capacity Q →
  ∃ w', thread_post thread f c w = Block w'.
Proof.
  intros (Ht & Hp & Hr & Hq & [R HR] & Hpc & HQ & Hcap & Hlen & Hits & Hnd) Ha Hroom.
  destruct (alloc_ok ObjRaw w Ha) as (i & Hi & Hal).
  assert (i ≠ thread ∧ i ≠ qa ∧ i ≠ ra) as (? & ? & ?) by (split_and!; congruence).
  eexists. unfold thread_post, malloc. rewrite (bind_Ret_intro _ _ _ _ _ Hal).
  mrun. reflexivity.
Qed.

(** ** [thread_free] on a null handle *)

(** C8: [thread_free(NULL)] returns, does not fail, and leaves the whole
    world as it found it. *)
Theorem thread_free_null (caller : nat) (w : world) :
  thread_free caller None w = Ret tt w.
Proof. reflexivity. Qed.

Lemma queued_app_post w w' thread t self ra qa p Q Q' its i :
  thread_inv w thread t self ra qa p Q its →
  thread_inv w' thread t self ra qa p Q' (its ++ [i]) →
  queued w' thread = queued w thread ++ [i].
Proof.
  intros H H'.
  destruct (queued_inv _ _ _ _ _ _ _ _ _ H) as (-> & _ & _).
  destruct (queued_inv _ _ _ _ _ _ _ _ _ H') as (-> & _ & _).
  destruct H as (_ & _ & _ & _ & _ & _ & _ & _ & _ & Hits & _).
  apply Forall2_length in Hits. rewrite length_app in Hits.
  rewrite drop_app_le by lia. done.
Qed.

(** C7: [thread_post] returns [false] exactly when the allocation of the
    work item fails (and then leaves the queue alone).  Otherwise, as soon as
    the queue has room, it returns [true] having appended one work item
    holding exactly [f] and [c] at the tail of the queue, and nothing else a
    caller can observe has changed: no callback has run, no diagnostic was
    written, the reactor and the control block are as before and every
    other heap cell is untouched.  On a full queue the caller stays suspended
    in the enqueue. *)
Theorem thread_post_spec (thread : addr) (f : thread_fn) (c : context) (w : world) :
  thread_ok w thread →
  ((∃ w', thread_post thread f c w = Ret false w') ↔
     alloc_fails w (alloc_calls w) = true) ∧
  (alloc_fails w (alloc_calls w) = true →
     ∃ w', thread_post thread f c w = Ret false w' ∧
           queued w' thread = queued w thread ∧ heap w' = heap w ∧
           trace w' = trace w) ∧
  (alloc_fails w (alloc_calls w) = false →
     ∃ Q, lookup_queue w thread = Some Q ∧
       if decide (length (items Q) < capacity Q) then
         ∃ w', thread_post thread f c w = Ret true w' ∧
           queued w' thread = queued w thread ++ [mk_work_item f c] ∧
           trace w' = trace w ∧ syslog w' = syslog w ∧
           os_threads w' = os_threads w ∧
           lookup_thread w' thread = lookup_thread w thread ∧
           lookup_reactor w' thread = lookup_reactor w thread ∧
           (∀ a o, heap w !! a = Some o → work_queue <$> lookup_thread w thread ≠ Some (Some a) →
                   heap w' !! a = Some o) ∧
           thread_ok w' thread
       else ∃ w', thread_post thread f c w = Block w').
Proof.
  intros (t & self & ra & qa & p & Q & its & Hinv).
  pose proof Hinv as (Ht & Hp & Hr & Hq & [R HR] & Hpc & HQ & Hcap & Hlen & Hits & Hnd).
  destruct (queued_inv _ _ _ _ _ _ _ _ _ Hinv) as (Hqd & _ & HlQ).
  split_and!.
  - split.
    + intros [w' H]. destruct (alloc_fails w (alloc_calls w)) eqn:Ha; [done|].
      destruct (decide (length (items Q) < capacity Q)) as [Hroom|Hfull].
      * destruct (thread_post_ok thread f c _ _ _ _ _ _ _ _ Hinv Ha Hroom)
          as (? & ? & _ & H' & _). congruence.
      * destruct (thread_post_full thread f c _ _ _ _ _ _ _ _ Hinv Ha Hfull) as (? & H').
        congruence.
    + intros Ha. rewrite (thread_post_fail _ _ _ _ Ha). eauto.
  - intros Ha. rewrite (thread_post_fail _ _ _ _ Ha). eexists. split; [done|].
    split_and!; try done.
  - intros Ha. exists Q. split; [done|].
    destruct (decide (length (items Q) < capacity Q)) as [Hroom|Hfull].
    + destruct (thread_post_ok thread f c _ _ _ _ _ _ _ _ Hinv Ha Hroom)
        as (i & w' & Hi & H' & Hh & Hos & Htr & Hlog & Hinv').
      exists w'. split_and!; try done.
      * eapply queued_app_post; eauto.
      * unfold lookup_thread. rewrite Hh, Ht.
        rewrite !lookup_insert_ne by congruence. by rewrite Ht.
      * unfold lookup_reactor, lookup_thread. rewrite Hh, Ht.
        rewrite !lookup_insert_ne by congruence. rewrite Ht. simpl. rewrite Hr. simpl.
        rewrite !lookup_insert_ne by congruence. done.
      * intros a o Ha' Hne. rewrite Hh.
        unfold lookup_thread in Hne. rewrite Ht in Hne. simpl in Hne. rewrite Hq in Hne.
        rewrite !lookup_insert_ne by congruence. done.
      * do 7 eexists; exact Hinv'.
    + apply (thread_post_full thread f c _ _ _ _ _ _ _ _ Hinv Ha Hfull).
Qed.

(** ** [thread_new] *)

Ltac do_alloc Ha :=
  match goal with
  | |- context [alloc ?o ?w'] =>
      let a := fresh "a" in
      let Hfr := fresh "Hfr" in
      let Hal := fresh "Hal" in
      destruct (alloc_ok o w' Ha) as (a & Hfr & Hal); rewrite Hal; clear Hal;
      simpl in Hfr;
      repeat (let Hne := fresh "Hne" in apply lookup_insert_None in Hfr as [Hfr Hne])
  end.

Ltac do_alloc_fail Ha :=
  match goal with
  | |- context [alloc ?o ?w'] => rewrite (alloc_fail o w' Ha)
  end.

Ltac heap_eq :=
  simpl; apply map_eq; intros ?; rewrite ?lookup_delete, ?lookup_insert;
  repeat case_decide; simplify_eq/=; congruence.

Section thread_new_proofs.
Variable THREAD_NAME_MAX : nat.

Lemma thread_new_cases (nm : list byte) (w : world) :
  let n := alloc_calls w in
  if alloc_fails w n || alloc_fails w (S n) || alloc_fails w (S (S n))
     || alloc_fails w (S (S (S n)))
  then ∃ w', thread_new THREAD_NAME_MAX nm w = Ret None w' ∧ heap w' = heap w ∧
             os_threads w' = os_threads w ∧ trace w' = trace w ∧
             pthread_create_calls w' = pthread_create_calls w
  else if decide (pthread_create_errno w (pthread_create_calls w) = 0%Z)
  then
    if decide (prctl_errno w (prctl_calls w) = 0%Z)
    then ∃ r w', thread_new THREAD_NAME_MAX nm w = Ret (Some r) w' ∧
                 fresh_thread THREAD_NAME_MAX w w' nm r ∧ trace w' = trace w ∧
                 syslog w' = syslog w
    else ∃ self w', thread_new THREAD_NAME_MAX nm w = Ret None w' ∧
                 heap w' = heap w ∧ os_threads w !! self = None ∧
                 os_threads w' = <[self := pc_exited]> (os_threads w) ∧
                 syslog w' = syslog w ++ [log_set_name_failed (prctl_errno w (prctl_calls w))] ∧
                 trace w' = trace w
  else ∃ r ra qa s t w',
         thread_new THREAD_NAME_MAX nm w = Block w' ∧
         NoDup [r; ra; qa; s] ∧
         heap w !! r = None ∧ heap w !! ra = None ∧
         heap w !! qa = None ∧ heap w !! s = None ∧
         heap w' = <[s := ObjSem 0]>
                     (<[r := ObjThread t]>
                        (<[qa := ObjQueue (mk_queue WORK_QUEUE_CAPACITY [])]>
                           (<[ra := ObjReactor (mk_reactor [] false)]> (heap w)))) ∧
         pthread t = None ∧ reactor t = Some ra ∧ work_queue t = Some qa ∧
         os_threads w' = os_threads w ∧ trace w' = trace w ∧ syslog w' = syslog w.
Proof.
  intros n. subst n. unfold thread_new, calloc_thread, thread_new_error.
  destruct (alloc_fails w (alloc_calls w)) eqn:A0; simpl.
  { unfold_prims. rewrite bind_unfold. do_alloc_fail A0. mrun. eauto 10. }
  destruct (alloc_fails w (S (alloc_calls w))) eqn:A1; simpl.
  { unfold_prims. rewrite bind_unfold. do_alloc A0. simpl. rewrite bind_unfold.
    do_alloc_fail A1. mrun. eexists. split; [done|]. split_and!; try done. heap_eq. }
  destruct (alloc_fails w (S (S (alloc_calls w)))) eqn:A2; simpl.
  { unfold_prims. rewrite bind_unfold. do_alloc A0. simpl. rewrite bind_unfold.
    do_alloc A1. mrun. do_alloc_fail A2. mrun.
    eexists. split; [done|]. split_and!; try done.
    heap_eq. }
  destruct (alloc_fails w (S (S (S (alloc_calls w))))) eqn:A3; simpl.
  { unfold_prims. rewrite bind_unfold. do_alloc A0. simpl. rewrite bind_unfold.
    do_alloc A1. mrun. do_alloc A2. mrun. do_alloc_fail A3. mrun.
    eexists. split; [done|]. split_and!; try done.
    heap_eq. }
  unfold_prims. rewrite bind_unfold. do_alloc A0. simpl. rewrite bind_unfold.
  do_alloc A1. mrun. do_alloc A2. mrun. do_alloc A3.
  unfold run_thread_prologue, pthread_create, prctl_set_name. mrun.
  destruct (decide (pthread_create_errno w (pthread_create_calls w) = 0%Z)) as [C|C];
    mrun.
  2:{ exists a, a0, a1, a2.
      exists (strncpy_name THREAD_NAME_MAX nm
                (set_thread_work_queue (Some a1)
                   (set_thread_reactor (Some a0)
                      (mk_thread None 0 (replicate (S THREAD_NAME_MAX) x00) None None)))).
      eexists. split; [reflexivity|]. simpl.
      split_and!; try done.
      - repeat constructor; set_solver.
      - heap_eq. }
  pose proof (is_fresh (dom (os_threads w))) as Hself%not_elem_of_dom.
  set (self := fresh (dom (os_threads w))) in *.
  destruct (decide (prctl_errno w (prctl_calls w) = 0%Z)) as [E|E]; mrun.
  - exists a. eexists. split; [done|]. split; [|done].
    eexists _, self, a0, a1. split_and!; simpl; mrun; try done.
    + repeat split; simpl; mrun; eauto using NoDup_nil_2.
      unfold WORK_QUEUE_CAPACITY. lia.
    + unfold strncpy_name. simpl. f_equal.
      change (x00 :: replicate THREAD_NAME_MAX x00)
        with (replicate (S THREAD_NAME_MAX) x00).
      rewrite drop_replicate. by replace (S THREAD_NAME_MAX - THREAD_NAME_MAX) with 1 by lia.
    + reflexivity.
    + heap_eq.
  - exists self. eexists. split; [done|]. split_and!; try done; heap_eq.
Qed.

Lemma thread_new_Some (nm : list byte) (w : world) (r : addr) (w1 : world) :
  thread_new THREAD_NAME_MAX nm w = Ret (Some r) w1 →
  fresh_thread THREAD_NAME_MAX w w1 nm r ∧ trace w1 = trace w ∧
  syslog w1 = syslog w.
Proof.
  intros Hnew. pose proof (thread_new_cases nm w) as H. simpl in H.
  destruct (_ || _).
  { destruct H as (w' & H & _). congruence. }
  destruct (decide (pthread_create_errno _ _ = _)).
  2:{ destruct H as (? & ? & ? & ? & ? & w' & H & _). congruence. }
  destruct (decide _).
  2:{ destruct H as (self & w' & H & _). congruence. }
  destruct H as (r' & w' & H & Hfresh & Htr & Hlog).
  rewrite Hnew in H. by injection H as <- <-.
Qed.


Lemma run_thread_prologue_failure (self : nat) (start : start_arg) (w : world)
    (t : thread_t) (n : nat) :
  prctl_errno w (prctl_calls w) ≠ 0%Z →
  heap w !! sa_thread start = Some (ObjThread t) →
  heap w !! start_sem start = Some (ObjSem n) →
  ∃ w', run_thread_prologue self start w =
          Ret (mk_start_arg (sa_thread start) (start_sem start)
                            (prctl_errno w (prctl_calls w))) w' ∧
        heap w' = <[start_sem start := ObjSem (S n)]> (heap w) ∧
        os_threads w' = <[self := pc_exited]> (os_threads w) ∧
        syslog w' = syslog w ++ [log_set_name_failed (prctl_errno w (prctl_calls w))] ∧
        trace w' = trace w.
Proof.
  intros E Ht Hs. unfold run_thread_prologue, prctl_set_name. mrun.
  eexists. split; [reflexivity|]. by split_and!.
Qed.

(** C6: when the spawned thread cannot set its name, it stores the error
    in [start->error], posts the start semaphore and returns from
    [run_thread] at once, never reaching the reactor; and [thread_new], for
    which that is the [prctl] call made on behalf of the thread it has
    spawned, returns null, with nothing left on the heap and no OS thread
    left running. *)
Theorem thread_new_init_failure (nm : list byte) (w : world) :
  prctl_errno w (prctl_calls w) ≠ 0%Z →
  (∀ self start t n,
     heap w !! sa_thread start = Some (ObjThread t) →
     heap w !! start_sem start = Some (ObjSem n) →
     ∃ start' w', run_thread_prologue self start w = Ret start' w' ∧
       error start' = prctl_errno w (prctl_calls w) ∧ error start' ≠ 0%Z ∧
       heap w' !! start_sem start = Some (ObjSem (S n)) ∧
       os_threads w' !! self = Some pc_exited ∧
       trace w' = trace w) ∧
  (pthread_create_errno w (pthread_create_calls w) = 0%Z →
   ∃ w', thread_new THREAD_NAME_MAX nm w = Ret None w' ∧
     heap w' = heap w ∧ trace w' = trace w ∧
     (∀ s, os_threads w' !! s = os_threads w !! s ∨
           os_threads w' !! s = Some pc_exited) ∧
     (alloc_fails w (alloc_calls w) = false →
      alloc_fails w (S (alloc_calls w)) = false →
      alloc_fails w (S (S (alloc_calls w))) = false →
      alloc_fails w (S (S (S (alloc_calls w)))) = false →
      ∃ self, os_threads w !! self = None ∧
              os_threads w' !! self = Some pc_exited ∧
              log_set_name_failed (prctl_errno w (prctl_calls w)) ∈ syslog w')).
Proof.
  intros E. split.
  - intros self start t n Ht Hs.
    destruct (run_thread_prologue_failure self start w t n E Ht Hs)
      as (w' & H & Hh & Hos & _ & Htr).
    eexists _, w'. split; [done|]. simpl. split_and!; try done.
    + rewrite Hh. apply lookup_insert_eq.
    + rewrite Hos. apply lookup_insert_eq.
  - intros C. pose proof (thread_new_cases nm w) as H. simpl in H.
    destruct (_ || _) eqn:A.
    + destruct H as (w' & H & Hh & Hos & Htr & _). exists w'. split_and!; try done.
      * intros s. left. by rewrite Hos.
      * intros A0 A1 A2 A3. rewrite A0, A1, A2, A3 in A. done.
    + rewrite decide_True in H by done. rewrite decide_False in H by done.
      destruct H as (self & w' & H & Hh & Hself & Hos & Hlog & Htr).
      exists w'. split_and!; try done.
      * intros s. rewrite Hos. destruct (decide (s = self)) as [->|].
        -- right. apply lookup_insert_eq.
        -- left. by apply lookup_insert_ne.
      * intros _ _ _ _. exists self. split_and!; try done.
        -- rewrite Hos. apply lookup_insert_eq.
        -- rewrite Hlog. set_solver.
Qed.
End thread_new_proofs.

Lemma thread_inv_stable w w' thread t self ra qa p p' Q its :
  thread_inv w thread t self ra qa p Q its →
  (∀ a o, heap w !! a = Some o → stable o → heap w' !! a = Some o) →
  (∃ R', heap w' !! ra = Some (ObjReactor R')) →
  os_threads w' !! self = Some p' →
  cur_item p' = cur_item p →
  thread_inv w' thread t self ra qa p' Q its.
Proof.
  intros (Ht & Hp & Hr & Hq & [R HR] & Hpc & HQ & Hcap & Hlen & Hits & Hnd)
         Hst Hre Hpc' Hcur.
  repeat split; try done; rewrite ?Hcur.
  - by apply Hst.
  - by apply Hst.
  - eapply items_stable; eauto.
  - done.
Qed.

Lemma thread_inv_frame w w' thread t self ra qa p p' Q its :
  thread_inv w thread t self ra qa p Q its →
  heap_frame w w' →
  os_threads w' !! self = Some p' →
  cur_item p' = cur_item p →
  thread_inv w' thread t self ra qa p' Q its.
Proof.
  intros Hinv [Hst Hre] Hpc' Hcur.
  pose proof Hinv as (_ & _ & _ & _ & [R HR] & _).
  destruct (Hre _ _ HR) as (R' & HR' & _).
  eapply thread_inv_stable; eauto.
Qed.

Lemma thread_view_frame w w' thread t self ra qa stop v :
  thread_view w thread t self ra qa stop v →
  heap_frame w w' → os_threads w' = os_threads w →
  trace w' = trace w → syslog w' = syslog w →
  thread_view w' thread t self ra qa stop v.
Proof.
  intros ([Q Hinv] & (R & HR & Hstop) & Htr & Hlg) Hf Hos Htr' Hlg'.
  pose proof Hinv as (_ & _ & _ & _ & _ & Hpc & _).
  split_and!.
  - exists Q. eapply thread_inv_frame; eauto. by rewrite Hos.
  - destruct Hf as [_ Hre]. destruct (Hre _ _ HR) as (R' & HR' & E).
    exists R'. split; [done|congruence].
  - congruence.
  - congruence.
Qed.

Arguments thread_post : simpl never.

Lemma thread_post_view thread f c w t self ra qa stop v b w' :
  thread_view w thread t self ra qa stop v →
  thread_post thread f c w = Ret b w' →
  (b = true ∧
   thread_view w' thread t self ra qa stop
     (mk_view (v_pc v) (v_pending v ++ [mk_work_item f c]) (v_trace v) (v_log v))) ∨
  (b = false ∧
   thread_view w' thread t self ra qa stop
     (mk_view (v_pc v) (v_pending v) (v_trace v) (v_log v ++ [log_post_alloc_failed]))).
Proof.
  intros ([Q Hinv] & (R & HR & Hstop) & Htr & Hlg) H.
  destruct (alloc_fails w (alloc_calls w)) eqn:Ha.
  - rewrite (thread_post_fail _ _ _ _ Ha) in H. injection H as <- <-.
    right. split; [done|]. split_and!; simpl; [|eauto|done|congruence].
    exists Q. eapply thread_inv_frame; eauto.
    + by apply heap_frame_refl.
    + apply Hinv.
  - destruct (decide (length (items Q) < capacity Q)) as [Hroom|Hfull].
    + destruct (thread_post_ok thread f c _ _ _ _ _ _ _ _ Hinv Ha Hroom)
        as (i & w1 & Hi & H' & Hh & Hos & Htr' & Hlog & Hinv').
      rewrite H' in H. injection H as <- <-.
      left. split; [done|]. split_and!; simpl; [eauto| |congruence..].
      exists R. split; [|done]. rewrite Hh.
      destruct Hinv as (_ & _ & _ & _ & _ & _ & HQ & _).
      rewrite !lookup_insert_ne by congruence. done.
    + destruct (thread_post_full thread f c _ _ _ _ _ _ _ _ Hinv Ha Hfull) as (? & H').
      congruence.
Qed.

Lemma step_post thread t self ra qa stop v id c w ps w' :
  thread_view w thread t self ra qa stop v →
  step thread (act_post id c) w = Ret ps w' →
  ∃ v', thread_view w' thread t self ra qa stop v' ∧ astep self (act_post id c) ps v v'.
Proof.
  intros Hv H. simpl in H. apply bind_Ret in H as (b & w1 & H & Hr).
  injection Hr as <- <-.
  destruct (thread_post_view _ _ _ _ _ _ _ _ _ _ _ _ Hv H) as [[-> Hv']|[-> Hv']];
    eexists; (split; [exact Hv'|]); destruct v; constructor.
Qed.

Lemma step_register thread t self ra qa stop v o w ps w' :
  thread_view w thread t self ra qa stop v →
  step thread (act_register o) w = Ret ps w' →
  ∃ v', thread_view w' thread t self ra qa stop v' ∧ astep self (act_register o) ps v v'.
Proof.
  intros Hv H. simpl in H. apply bind_Ret in H as ([] & w1 & H & Hr).
  injection Hr as <- <-. unfold thread_register, malloc in H.
  apply bind_Ret in H as (arg & w2 & Hal & H).
  apply alloc_Ret in Hal as [(-> & _ & ->)|(a & -> & _ & Hfr & ->)]; [minv|].
  simpl in H. rewrite bind_unfold in H. simpl in H.
  rewrite bind_unfold in H. unfold store in H. simpl in H.
  rewrite insert_insert_eq in H.
  apply bind_Ret in H as (b & w3 & H & Hr). injection Hr as <-.
  match type of H with thread_post _ _ _ ?w0 = _ =>
    assert (thread_view w0 thread t self ra qa stop v) as Hv1
  end.
  { eapply thread_view_frame; [exact Hv| |done..].
    eapply heap_frame_insert_fresh; [exact Hfr|done]. }
  destruct (thread_post_view _ _ _ _ _ _ _ _ _ _ _ _ Hv1 H) as [[-> Hv']|[-> Hv']].
  - eexists; (split; [exact Hv'|]); destruct v; constructor.
  - eexists; (split; [exact Hv'|]); destruct v; constructor.
Qed.

Lemma step_unregister_request thread t self ra qa stop v o w ps w' :
  thread_view w thread t self ra qa stop v →
  step thread (act_unregister_request o) w = Ret ps w' →
  ∃ v', thread_view w' thread t self ra qa stop v' ∧
        astep self (act_unregister_request o) ps v v'.
Proof.
  intros Hv H. simpl in H. apply bind_Ret in H as (r & w1 & H & Hr).
  injection Hr as <- <-. unfold thread_unregister_request, semaphore_new in H.
  apply bind_Ret in H as (sem & w2 & Hal & H).
  apply alloc_Ret in Hal as [(-> & _ & ->)|(a & -> & _ & Hfr & ->)].
  - minv. destruct v as [p its tr lg].
    exists (mk_view p its tr (lg ++ [log_unregister_sem_failed])).
    split; [|apply as_unregister_fail; by right].
    destruct Hv as ([Q Hinv] & (R & HR & Hstop) & Htr & Hlg). simpl in *.
    split_and!; simpl; [|eauto|done|congruence].
    exists Q. eapply thread_inv_frame; eauto.
    + by apply heap_frame_refl.
    + apply Hinv.
  - apply bind_Ret in H as (b & w3 & H & Hr). injection Hr as <- <-.
    match type of H with thread_post _ _ _ ?w0 = _ =>
      assert (thread_view w0 thread t self ra qa stop v) as Hv1
    end.
    { eapply thread_view_frame; [exact Hv| |done..].
      eapply heap_frame_insert_fresh; [exact Hfr|done]. }
    destruct (thread_post_view _ _ _ _ _ _ _ _ _ _ _ _ Hv1 H) as [[-> Hv']|[-> Hv']].
    + eexists; (split; [exact Hv'|]); destruct v; constructor.
    + eexists; (split; [exact Hv'|]); destruct v; apply as_unregister_fail; by left.
Qed.

Ltac view_intro Hv :=
  let Q := fresh "Q" in let R := fresh "R" in
  destruct Hv as ([Q Hinv] & (R & HR & Hstop) & Htr & Hlg);
  pose proof Hinv as (Ht & Hp & Hr & Hq & _ & Hpc & HQ & Hcap & Hlen & Hits & Hnd);
  simpl in *.

Lemma step_stop thread t self ra qa stop v w ps w' :
  thread_view w thread t self ra qa stop v →
  step thread act_stop w = Ret ps w' →
  ∃ v', thread_view w' thread t self ra qa true v' ∧ astep self act_stop ps v v'.
Proof.
  intros Hv H. view_intro Hv. unfold step, thread_stop in H. minv.
  exists v. split; [|constructor].
  split_and!; simpl; try done.
  - exists Q. eapply thread_inv_stable; eauto; simpl.
    + intros ? ? Hb Hst; frame_lookup; done.
    + eexists. by rewrite lookup_insert_eq.
  - eexists. by rewrite lookup_insert_eq.
Qed.

Lemma step_unregister_wait thread t self ra qa stop v s w ps w' :
  thread_view w thread t self ra qa stop v →
  step thread (act_unregister_wait s) w = Ret ps w' →
  ∃ v', thread_view w' thread t self ra qa stop v' ∧
        astep self (act_unregister_wait s) ps v v'.
Proof.
  intros Hv H. unfold step, thread_unregister_wait in H. minv.
  exists v. split; [|constructor].
  eapply thread_view_frame; [exact Hv| |done..].
  split; simpl; intros ? ? Hb; [intros Hst|]; frame_lookup; done.
Qed.

Lemma step_enter thread t self ra qa stop v w ps w' :
  thread_view w thread t self ra qa stop v →
  step thread act_enter w = Ret ps w' →
  ∃ v', thread_view w' thread t self ra qa stop v' ∧ astep self act_enter ps v v'.
Proof.
  intros Hv H. view_intro Hv. destruct v as [p its tr lg]. simpl in *.
  unfold step, worker_step, run_thread_enter in H. minv.
  simplify_eq. eexists (mk_view pc_loop its _ _). split; [|constructor].
  split_and!; simpl; try done.
  - exists Q. eapply thread_inv_frame; eauto; simpl.
    + split; simpl; intros ? ? Hb; [intros Hst|]; frame_lookup; done.
    + by rewrite lookup_insert_eq.
  - eexists. by rewrite lookup_insert_eq.
Qed.

Lemma step_ready thread t self ra qa stop v src w ps w' :
  thread_view w thread t self ra qa stop v →
  step thread (act_ready src) w = Ret ps w' →
  ∃ v', thread_view w' thread t self ra qa stop v' ∧ astep self (act_ready src) ps v v'.
Proof.
  intros Hv H. pose proof Hv as Hv0. view_intro Hv. destruct v as [p its tr lg]. simpl in *.
  unfold step, worker_step, reactor_dispatch in H. minv.
  eexists. split; [|constructor].
  eapply thread_view_frame in Hv0; [| |done..]; [|by apply heap_frame_refl].
  destruct Hv0 as (? & ? & ? & ?). split_and!; simpl in *; done.
Qed.

Lemma cur_item_length p : length (cur_item p) ≤ 1.
Proof. destruct p as [| |[?|] ?|]; simpl; lia. Qed.

(** The oldest pending item [x] has been taken and its block released. *)
Lemma thread_inv_consume w w' thread t self ra qa p p' Q Q' x i its :
  thread_inv w thread t self ra qa p Q (i :: its) →
  cur_item p ++ items Q = x :: (cur_item p' ++ items Q') →
  capacity Q' = capacity Q →
  (∀ a o, heap w !! a = Some o → stable o → a ≠ x → a ≠ qa → heap w' !! a = Some o) →
  heap w' !! qa = Some (ObjQueue Q') →
  (∃ R', heap w' !! ra = Some (ObjReactor R')) →
  os_threads w' !! self = Some p' →
  thread_inv w' thread t self ra qa p' Q' its.
Proof.
  intros (Ht & Hp & Hr & Hq & [R HR] & Hpc & HQ & Hcap & Hlen & Hits & Hnd)
         Hsplit Hcap' Hst HQ' HR' Hpc'.
  rewrite Hsplit in Hits, Hnd.
  apply Forall2_cons_1 in Hits as [Hx Hits].
  apply list.NoDup_cons in Hnd as [Hnx Hnd].
  repeat split; try done.
  - apply Hst; [done..| |]; congruence.
  - congruence.
  - apply (f_equal length) in Hsplit. rewrite !length_app in Hsplit. simpl in Hsplit.
    rewrite length_app in Hsplit. pose proof (cur_item_length p). lia.
  - eapply items_frame; [exact Hits|]. intros a j Hin Ha.
    apply Hst; [done..| |]; [|congruence]. intros ->. done.
Qed.

Lemma heap_item_stable w w1 x i :
  heap_frame w w1 → heap w !! x = Some (ObjWorkItem i) →
  heap w1 !! x = Some (ObjWorkItem i).
Proof. intros [Hst _] Hx. by apply Hst. Qed.

Ltac name_call :=
  match goal with
  | H : call _ _ _ _ = Ret ?u ?w2 |- _ =>
      destruct u; apply call_frame in H as (([Hst Hre] & Hos & Hlog) & Htr');
      simpl in Hst, Hre, Hos, Hlog, Htr'
  end.

Lemma step_ready_queue thread t self ra qa stop v w ps w' :
  thread_view w thread t self ra qa stop v →
  step thread act_ready_queue w = Ret ps w' →
  ∃ v', thread_view w' thread t self ra qa stop v' ∧ astep self act_ready_queue ps v v'.
Proof.
  intros Hv H. view_intro Hv. destruct v as [p its tr lg]. simpl in *.
  unfold step, worker_step, reactor_dispatch, work_queue_read_cb in H. minv.
  all: simplify_eq.
  name_call.
  match goal with
  | H : items ?Q0 = ?x :: ?l |- _ =>
      rename H into HeQ; rename x into x0; rename l into rest; rename Q0 into Qq
  end.
  destruct its as [|i its]; [by apply Forall2_cons_nil_inv in Hits|].
  apply Forall2_cons_1 in Hits as Hx. destruct Hx as [Hx _].
  match goal with
  | H : <[_:=_]> _ !! x0 = Some (ObjWorkItem ?j) |- _ =>
      rewrite lookup_insert_ne in H by congruence; rewrite Hx in H; injection H as <-
  end.
  eexists (mk_view pc_loop its _ _). split; [|constructor].
  split_and!; simpl; try done.
  - exists (mk_queue (capacity Qq) rest). eapply thread_inv_consume; eauto; simpl.
    + intros b o' Hb Hsb ? ?. rewrite lookup_delete_ne by done.
      apply Hst; [|done]. by rewrite lookup_insert_ne.
    + rewrite lookup_delete_ne by congruence. apply Hst; [|done]. by rewrite lookup_insert_eq.
    + destruct (Hre ra R) as (R' & HR' & _).
      { rewrite lookup_insert_ne by congruence. done. }
      exists R'. rewrite lookup_delete_ne; [done|]. intros ->.
      rewrite (Hst ra (ObjWorkItem i)) in HR'; [done| |done].
      rewrite lookup_insert_ne by congruence. done.
    + by rewrite Hos.
  - destruct (Hre ra R) as (R' & HR' & E).
    { rewrite lookup_insert_ne by congruence. done. }
    exists R'. split; [|done]. rewrite lookup_delete_ne; [done|]. intros ->.
    rewrite (Hst ra (ObjWorkItem i)) in HR'; [done| |done].
    rewrite lookup_insert_ne by congruence. done.
Qed.

Lemma thread_inv_requeue w w' thread t self ra qa p p' Q Q' its :
  thread_inv w thread t self ra qa p Q its →
  cur_item p' ++ items Q' = cur_item p ++ items Q →
  capacity Q' = capacity Q →
  length (items Q') ≤ capacity Q' →
  heap w' = <[qa := ObjQueue Q']> (heap w) →
  os_threads w' !! self = Some p' →
  thread_inv w' thread t self ra qa p' Q' its.
Proof.
  intros (Ht & Hp & Hr & Hq & [R HR] & Hpc & HQ & Hcap & Hlen & Hits & Hnd)
         Hsplit Hcap' Hlen' Hh Hpc'.
  repeat split; try done; rewrite ?Hh, ?Hsplit.
  - rewrite lookup_insert_ne by congruence. done.
  - exists R. rewrite lookup_insert_ne by congruence. done.
  - by rewrite lookup_insert_eq.
  - congruence.
  - eapply items_frame; [exact Hits|]. intros a j _ Ha.
    rewrite lookup_insert_ne by congruence. done.
  - done.
Qed.

Lemma step_leave thread t self ra qa stop v w ps w' :
  thread_view w thread t self ra qa stop v →
  step thread act_leave_reactor w = Ret ps w' →
  stop = true ∧
  ∃ v', thread_view w' thread t self ra qa stop v' ∧ astep self act_leave_reactor ps v v'.
Proof.
  intros Hv H. view_intro Hv. destruct v as [p its tr lg]. simpl in *.
  unfold step, worker_step, run_thread_leave_reactor in H. minv.
  - (* the queue is empty *)
    split; [done|]. eexists (mk_view (pc_drain None 0) its _ _).
    match goal with H : items Q = [] |- _ => rename H into HeQ end.
    split; [|constructor].
    + split_and!; simpl; try done; [|eauto].
      exists Q. eapply thread_inv_frame; eauto; simpl.
      * by apply heap_frame_refl.
      * by rewrite lookup_insert_eq.
    + apply Forall2_nil_inv_l in Hits. done.
  - (* the oldest item is taken *)
    split; [done|].
    match goal with
    | H : items Q = ?x :: ?l |- _ => rename H into HeQ; rename x into x0; rename l into rest
    end.
    eexists (mk_view (pc_drain (Some x0) 0) its _ _). split; [|constructor].
    + split_and!; simpl; try done.
      * exists (mk_queue (capacity Q) rest).
        eapply thread_inv_requeue; eauto; simpl.
        -- lia.
        -- by rewrite lookup_insert_eq.
      * exists R. rewrite lookup_insert_ne by congruence. done.
    + destruct its; [by apply Forall2_cons_nil_inv in Hits|].
      split; intros; discriminate.
Qed.

Lemma thread_inv_exit w w' thread t self ra qa p Q its :
  thread_inv w thread t self ra qa p Q its →
  heap w' = heap w →
  os_threads w' !! self = Some pc_exited →
  thread_inv w' thread t self ra qa pc_exited Q (drop (length (cur_item p)) its).
Proof.
  intros (Ht & Hp & Hr & Hq & [R HR] & Hpc & HQ & Hcap & Hlen & Hits & Hnd) Hh Hpc'.
  apply Forall2_app_inv_l in Hits as (i1 & i2 & H1 & H2 & ->).
  rewrite (Forall2_length H1), drop_app_length.
  apply list.NoDup_app in Hnd as (_ & _ & Hnd).
  repeat split; try done; rewrite ?Hh; eauto.
Qed.

Lemma step_drain thread t self ra qa stop v w ps w' :
  thread_view w thread t self ra qa stop v →
  step thread act_drain w = Ret ps w' →
  ∃ v', thread_view w' thread t self ra qa stop v' ∧ astep self act_drain ps v v'.
Proof.
  intros Hv H. view_intro Hv. destruct v as [p its tr lg]. simpl in *.
  unfold step, worker_step in H. minv.
  match goal with
  | H : run_thread_drain _ _ ?it ?n _ = _ |- _ =>
      rename H into Hd; rename n into count; destruct it as [x|]
  end; simpl in *.
  - unfold run_thread_drain in Hd.
    destruct (decide (count ≤ WORK_QUEUE_CAPACITY)) as [Hle|Hgt].
    + (* the body of the loop *)
      destruct its as [|i its]; [by apply Forall2_cons_nil_inv in Hits|].
      apply Forall2_cons_1 in Hits as Hx. destruct Hx as [Hx HitsQ].
      apply list.NoDup_cons in Hnd as Hnx. destruct Hnx as [Hnx HndQ].
      apply bind_Ret in Hd as (i' & w0 & Hld & Hd).
      unfold load_work_item in Hld. rewrite Hx in Hld. injection Hld as <- <-.
      apply bind_Ret in Hd as (u & w1 & Hcall & Hd).
      name_call.
      pose proof (Hst _ _ Ht I) as Ht1. pose proof (Hst _ _ HQ I) as HQ1.
      pose proof (Hst _ _ Hx I) as Hx1.
      destruct (Hre _ _ HR) as (R1 & HR1 & HstopR).
      minv.
      * (* nothing left in the queue *)
        match goal with H : items Q = [] |- _ => rename H into HeQ end.
        apply Forall2_nil_inv_l in HitsQ as ->.
        eexists (mk_view (pc_drain None (S count)) [] _ _).
        split; [|by apply as_drain_body].
        split_and!; simpl; try done; [|exists R1; split; [|congruence]; by mrun].
        exists Q. eapply thread_inv_consume; eauto; simpl.
        -- intros b o' Hb Hsb ? ?. rewrite lookup_delete_ne by done. by apply Hst.
        -- by mrun.
        -- exists R1. by mrun.
        -- by rewrite lookup_insert_eq.
      * (* the next item is taken *)
        match goal with
        | H : items Q = ?y :: ?l |- _ => rename H into HeQ; rename y into y0; rename l into rest
        end.
        eexists (mk_view (pc_drain (Some y0) (S count)) its _ _).
        split.
        2:{ apply as_drain_body; [done|].
            destruct its; [by apply Forall2_cons_nil_inv in HitsQ|].
            split; intros; discriminate. }
        split_and!; simpl; try done; [|exists R1; split; [|congruence]; by mrun].
        exists (mk_queue (capacity Q) rest). eapply thread_inv_consume; eauto; simpl.
        -- by rewrite HeQ.
        -- intros b o' Hb Hsb ? ?. rewrite lookup_insert_ne by done.
           rewrite lookup_delete_ne by done. by apply Hst.
        -- by rewrite lookup_insert_eq.
        -- exists R1. by mrun.
        -- by rewrite lookup_insert_eq.
    + (* the loop is left with an item in hand *)
      minv; (eexists (mk_view pc_exited _ _ _); split; [|constructor; right; lia]).
      * split_and!; simpl; try done; [|eauto|by rewrite decide_True by lia; congruence].
        exists Q. eapply (thread_inv_exit _ _ _ _ _ _ _ (pc_drain (Some x) count)); eauto.
        simpl. by rewrite lookup_insert_eq.
      * lia.
  - (* the loop is left because the queue was empty *)
    unfold run_thread_drain in Hd. minv;
      (eexists (mk_view pc_exited _ _ _); split; [|constructor; by left]).
    + split_and!; simpl; try done; [|eauto|by rewrite decide_True by lia; congruence].
      exists Q. eapply (thread_inv_exit _ _ _ _ _ _ _ (pc_drain None count)); eauto.
      simpl. by rewrite lookup_insert_eq.
    + split_and!; simpl; try done; [|eauto|rewrite decide_False by lia; by rewrite app_nil_r].
      exists Q. eapply (thread_inv_exit _ _ _ _ _ _ _ (pc_drain None count)); eauto.
      simpl. by rewrite lookup_insert_eq.
Qed.

(** Every action but the tail of [thread_free] keeps the thread well formed
    and moves its view by [astep]. *)
Lemma step_view thread t self ra qa stop v a w ps w' :
  thread_view w thread t self ra qa stop v →
  step thread a w = Ret ps w' →
  a ≠ act_free_join →
  ∃ v', thread_view w' thread t self ra qa (stop || is_stop a) v' ∧
        astep self a ps v v' ∧
        (a = act_leave_reactor → stop = true).
Proof.
  intros Hv H Hne. destruct a; simpl is_stop; rewrite ?orb_false_r, ?orb_true_r.
  - destruct (step_post _ _ _ _ _ _ _ _ _ _ _ _ Hv H) as (v' & ? & ?). exists v'. by split_and!.
  - destruct (step_register _ _ _ _ _ _ _ _ _ _ _ Hv H) as (v' & ? & ?). exists v'. by split_and!.
  - destruct (step_unregister_request _ _ _ _ _ _ _ _ _ _ _ Hv H) as (v' & ? & ?). exists v'. by split_and!.
  - destruct (step_unregister_wait _ _ _ _ _ _ _ _ _ _ _ Hv H) as (v' & ? & ?). exists v'. by split_and!.
  - destruct (step_stop _ _ _ _ _ _ _ _ _ _ Hv H) as (v' & ? & ?). exists v'. by split_and!.
  - done.
  - destruct (step_enter _ _ _ _ _ _ _ _ _ _ Hv H) as (v' & ? & ?). exists v'. by split_and!.
  - destruct (step_ready _ _ _ _ _ _ _ _ _ _ _ Hv H) as (v' & ? & ?). exists v'. by split_and!.
  - destruct (step_ready_queue _ _ _ _ _ _ _ _ _ _ Hv H) as (v' & ? & ?). exists v'. by split_and!.
  - destruct (step_leave _ _ _ _ _ _ _ _ _ _ Hv H) as (? & v' & ? & ?). exists v'. by split_and!.
  - destruct (step_drain _ _ _ _ _ _ _ _ _ _ Hv H) as (v' & ? & ?). exists v'. by split_and!.
Qed.

Lemma run_view thread t self ra qa sched : ∀ stop v w ps w',
  thread_view w thread t self ra qa stop v →
  run thread sched w = Ret ps w' →
  act_free_join ∉ sched →
  ∃ stop' v', thread_view w' thread t self ra qa stop' v' ∧
              aruns self sched ps v v' ∧ (stop = true → stop' = true).
Proof.
  induction sched as [|a sched IH]; intros stop v w ps w' Hv H Hnf.
  - simpl in H. injection H as <- <-. exists stop, v. split_and!; [done|constructor|done].
  - simpl in H. apply bind_Ret in H as (ps1 & w1 & Hstep & H).
    apply bind_Ret in H as (ps2 & w2 & Hrun & H). injection H as <- <-.
    apply not_elem_of_cons in Hnf as [Hne Hnf].
    destruct (step_view _ _ _ _ _ _ _ _ _ _ _ Hv Hstep) as (v1 & Hv1 & Ha & _); [done|].
    destruct (IH _ _ _ _ _ Hv1 Hrun Hnf) as (stop' & v' & Hv' & Hr & Hs).
    exists stop', v'. split_and!; [done|econstructor; eauto|].
    intros ->. apply Hs. done.
Qed.

Lemma thread_ok_view w thread :
  thread_ok w thread ↔
  ∃ t self ra qa stop v, thread_view w thread t self ra qa stop v.
Proof.
  split.
  - intros (t & self & ra & qa & p & Q & its & Hinv).
    pose proof Hinv as (_ & _ & _ & _ & [R HR] & _).
    exists t, self, ra, qa, (stop_requested R), (mk_view p its (trace w) (syslog w)).
    split_and!; simpl; eauto.
  - intros (t & self & ra & qa & stop & v & [Q Hinv] & _).
    do 7 eexists. exact Hinv.
Qed.

Lemma run_ok thread sched w ps w' :
  thread_ok w thread →
  run thread sched w = Ret ps w' →
  act_free_join ∉ sched →
  thread_ok w' thread.
Proof.
  intros (t & self & ra & qa & stop & v & Hv)%thread_ok_view H Hnf.
  destruct (run_view _ _ _ _ _ _ _ _ _ _ _ Hv H Hnf) as (stop' & v' & Hv' & _).
  apply thread_ok_view. eauto 10.
Qed.

(** ** Order of execution *)

Lemma executed_items_of w : executed w = items_of (trace w).
Proof. reflexivity. Qed.

Lemma items_of_app tr1 tr2 : items_of (tr1 ++ tr2) = items_of tr1 ++ items_of tr2.
Proof. apply omap_app. Qed.

Lemma work_item_eta i : mk_work_item (func i) (wi_context i) = i.
Proof. by destruct i. Qed.

(** One action: the events it adds all come from the worker; the work
    items it runs are the oldest pending ones; what it adds to the pending
    items comes behind them; only the end of the drain loop lets go of an
    item, and once the worker has returned nothing runs any more. *)
Lemma astep_fifo self a ps v v' :
  astep self a ps v v' →
  ∃ evs new dropped,
    v_trace v' = v_trace v ++ evs ∧
    Forall (λ e, ran_on e = self) evs ∧
    v_pending v ++ new = items_of evs ++ dropped ++ v_pending v' ∧
    filter is_user_item new = ps ∧
    (dropped ≠ [] → v_pc v' = pc_exited) ∧
    (v_pc v = pc_exited → v_pc v' = pc_exited ∧ evs = [] ∧ dropped = []).
Proof.
  destruct 1; simpl.
  - exists [], [mk_work_item (fn_user id) c], []. by rewrite app_nil_r.
  - exists [], [], []. by rewrite !app_nil_r.
  - eexists [], [_], []. rewrite app_nil_r. by split_and!.
  - exists [], [], []. by rewrite !app_nil_r.
  - eexists [], [_], []. rewrite app_nil_r. by split_and!.
  - exists [], [], []. by rewrite !app_nil_r.
  - exists [], [], []. by rewrite !app_nil_r.
  - exists [], [], []. by rewrite !app_nil_r.
  - exists [], [], []. by rewrite !app_nil_r.
  - exists [ev_ready self (source_object o)], [], [].
    rewrite app_nil_r. split_and!; try done. by repeat constructor.
  - exists [ev_item self (func i) (wi_context i)], [], [].
    rewrite app_nil_r. simpl. rewrite work_item_eta.
    split_and!; try done. by repeat constructor.
  - exists [], [], []. by rewrite !app_nil_r.
  - exists [ev_item self (func i) (wi_context i)], [], [].
    rewrite app_nil_r. simpl. rewrite work_item_eta.
    split_and!; try done. by repeat constructor.
  - exists [], [], (take (length (cur_item (pc_drain item n))) its).
    rewrite !app_nil_r, take_drop. split_and!; try done.
Qed.

Lemma aruns_fifo self sched ps v v' :
  aruns self sched ps v v' →
  ∃ evs new rest,
    v_trace v' = v_trace v ++ evs ∧
    Forall (λ e, ran_on e = self) evs ∧
    v_pending v ++ new = items_of evs ++ rest ∧
    filter is_user_item new = ps ∧
    (v_pc v' ≠ pc_exited → rest = v_pending v') ∧
    (v_pc v = pc_exited → v_pc v' = pc_exited ∧ evs = []).
Proof.
  induction 1 as [v|a sched ps qs v1 v2 v3 Hstep Hrun IH].
  - exists [], [], (v_pending v). by rewrite !app_nil_r.
  - destruct (astep_fifo _ _ _ _ _ Hstep)
      as (evs1 & new1 & dropped & Htr1 & Hon1 & Hpend1 & Hps1 & Hdrop & Hex1).
    destruct IH as (evs2 & new2 & rest & Htr2 & Hon2 & Hpend2 & Hps2 & Hrest & Hex2).
    destruct (decide (dropped = [])) as [->|Hd].
    + exists (evs1 ++ evs2), (new1 ++ new2), rest. split_and!.
      * by rewrite Htr2, Htr1, app_assoc.
      * by apply Forall_app.
      * rewrite items_of_app, app_assoc, Hpend1. simpl.
        rewrite <- !app_assoc. by rewrite Hpend2.
      * by rewrite list.filter_app, Hps1, Hps2.
      * done.
      * intros Hp. destruct (Hex1 Hp) as (Hp2 & -> & _).
        destruct (Hex2 Hp2) as (Hp3 & ->). done.
    + destruct (Hex2 (Hdrop Hd)) as (Hp3 & ->).
      exists evs1, (new1 ++ new2), (dropped ++ v_pending v2 ++ new2). split_and!.
      * by rewrite Htr2, Htr1, app_nil_r.
      * done.
      * rewrite app_assoc, Hpend1. by rewrite <- !app_assoc.
      * by rewrite list.filter_app, Hps1, Hps2.
      * done.
      * intros Hp. destruct (Hex1 Hp) as (_ & -> & _). done.
Qed.

Lemma pending_inv w thread t self ra qa p Q its :
  thread_inv w thread t self ra qa p Q its →
  pending w thread = its ∧ worker_id w thread = Some self ∧
  worker_pc w thread = Some p.
Proof.
  intros Hinv. destruct (queued_inv _ _ _ _ _ _ _ _ _ Hinv) as (Hq & Hpc & _).
  destruct Hinv as (Ht & Hp & _ & _ & _ & _ & _ & _ & _ & Hits & _).
  split_and!; [|unfold worker_id, lookup_thread; rewrite Ht; done|done].
  unfold pending. rewrite Hpc, Hq.
  apply Forall2_app_inv_l in Hits as (i1 & i2 & H1 & H2 & ->).
  rewrite (omap_lookup_items _ _ _ H1).
  rewrite (Forall2_length H1), drop_app_length. done.
Qed.

Lemma thread_view_obs w thread t self ra qa stop v :
  thread_view w thread t self ra qa stop v →
  pending w thread = v_pending v ∧ worker_id w thread = Some self ∧
  worker_pc w thread = Some (v_pc v) ∧ trace w = v_trace v ∧ syslog w = v_log v.
Proof.
  intros ([Q Hinv] & _ & Htr & Hlg).
  destruct (pending_inv _ _ _ _ _ _ _ _ _ Hinv) as (? & ? & ?). by split_and!.
Qed.

(** C4, as the code has it: along any interleaving of callers and worker,
    every callback is run by the one OS thread of the handle, one step of
    [run_thread] at a time; the callers' work items that are run are an
    initial segment of the sequence of those that were pending followed by
    the successful posts in the order they were enqueued (so in order and
    none twice); as long as the worker has not returned, the others are
    still pending, none is lost; once the worker has returned, nothing is
    run any more. *)
Theorem work_items_run_in_order (thread : addr) (sched : list action)
    (w : world) (ps : list work_item_t) (w' : world) :
  thread_ok w thread →
  act_free_join ∉ sched →
  run thread sched w = Ret ps w' →
  ∃ self evs rest,
    worker_id w thread = Some self ∧
    trace w' = trace w ++ evs ∧
    Forall (λ e, ran_on e = self) evs ∧
    filter is_user_item (pending w thread) ++ ps =
      filter is_user_item (items_of evs) ++ rest ∧
    (worker_pc w' thread ≠ Some pc_exited →
       rest = filter is_user_item (pending w' thread)) ∧
    (worker_pc w thread = Some pc_exited → evs = []).
Proof.
  intros (t & self & ra & qa & stop & v & Hv)%thread_ok_view Hnf H.
  destruct (run_view _ _ _ _ _ _ _ _ _ _ _ Hv H Hnf) as (stop' & v' & Hv' & Hr & _).
  destruct (thread_view_obs _ _ _ _ _ _ _ _ Hv) as (Hp & Hid & Hpc & Htr & _).
  destruct (thread_view_obs _ _ _ _ _ _ _ _ Hv') as (Hp' & _ & Hpc' & Htr' & _).
  destruct (aruns_fifo _ _ _ _ _ Hr) as (evs & new & rest & E1 & E2 & E3 & E4 & E5 & E6).
  exists self, evs, (filter is_user_item rest). split_and!.
  - done.
  - congruence.
  - done.
  - rewrite Hp, <- E4, <- !list.filter_app. by rewrite E3.
  - rewrite Hpc', Hp'. intros Hne. rewrite E5; [done|]. congruence.
  - rewrite Hpc. intros [= Hex]. by destruct (E6 Hex).
Qed.

(** ** The drain on shutdown *)

Lemma astep_caller self a ps v v' :
  astep self a ps v v' → is_caller a → caller_change v v'.
Proof.
  destruct 1; simpl; intros Hc; try done; split_and!; try done.
  - exists [mk_work_item (fn_user id) c], []. rewrite app_nil_r. split_and!; [done..|set_solver].
  - exists [], [log_post_alloc_failed]. rewrite app_nil_r. split_and!; [done..|set_solver].
  - eexists [_], []. rewrite app_nil_r. split_and!; [done..|set_solver].
  - exists [], [log_post_alloc_failed]. rewrite app_nil_r. split_and!; [done..|set_solver].
  - eexists [_], []. rewrite app_nil_r. split_and!; [done..|set_solver].
  - exists [], [m]. rewrite app_nil_r. split_and!; [done..|]. set_solver.
  - exists [], []. rewrite !app_nil_r. split_and!; [done..|set_solver].
  - exists [], []. rewrite !app_nil_r. split_and!; [done..|set_solver].
Qed.

Lemma app_eq_prefix {A} (l1 l2 k1 k2 : list A) :
  l1 ++ l2 = k1 ++ k2 → length k1 ≤ length l1 → ∃ e, l1 = k1 ++ e.
Proof.
  revert k1. induction l1 as [|x l1 IH]; intros [|y k1] H Hlen; simpl in *.
  - by exists [].
  - lia.
  - eauto.
  - injection H as -> H. destruct (IH k1 H) as [e ->]; [lia|]. eauto.
Qed.

Lemma drain_inv_caller its0 tr0 lg0 v v' k :
  drain_inv its0 tr0 lg0 v k → caller_change v v' → drain_inv its0 tr0 lg0 v' k.
Proof.
  unfold drain_inv. intros H (Hpc & Htr & new' & l' & Hp & Hl & Hno).
  rewrite Hpc, Htr, Hp, Hl. destruct (v_pc v) as [| |item n|]; [done|..].
  - destruct H as (-> & -> & new & l & -> & -> & Hn). split_and!; [done..|].
    exists (new ++ new'), (l ++ l'). rewrite !app_assoc. split_and!; [done..|set_solver].
  - destruct H as (-> & Hle & evs & new & l & -> & Hlen & Happ & Hnone & -> & Hn).
    split_and!; [done..|].
    exists evs, (new ++ new'), (l ++ l'). rewrite !app_assoc, Happ.
    split_and!; [done..|set_solver].
  - destruct H as (Hle & evs & extra & l & -> & Hit & Hlen & -> & Hg).
    split; [done|].
    exists evs, extra, (l ++ l'). rewrite !app_assoc. split_and!; [done..|set_solver].
Qed.

Lemma drain_inv_step its0 tr0 lg0 self a ps v v' k :
  length its0 ≤ WORK_QUEUE_CAPACITY →
  drain_inv its0 tr0 lg0 v k →
  astep self a ps v v' →
  drain_phase a →
  drain_inv its0 tr0 lg0 v' (k + if decide (a = act_drain) then 1 else 0).
Proof.
  intros Hcap HJ Hstep Hph.
  destruct (decide (a = act_drain)) as [->|Hnd].
  - clear Hph. inversion Hstep; subst; unfold drain_inv in *; simpl in *.
    + (* the body *)
      destruct HJ as (-> & Hle & evs & new & l & -> & Hlen & Happ & Hnone & -> & Hn).
      split_and!; [lia|lia|].
      exists (evs ++ [ev_item self (func i) (wi_context i)]), new, l.
      rewrite items_of_app, length_app. simpl. rewrite work_item_eta.
      split_and!; try done.
      * by rewrite app_assoc.
      * simpl. lia.
      * by rewrite <- app_assoc.
      * intros Hi. exists new. match goal with H : _ ↔ _ |- _ => apply H in Hi end.
        by subst.
    + (* the loop is left *)
      destruct HJ as (-> & Hle & evs & new & l & -> & Hlen & Happ & Hnone & -> & Hn).
      split; [lia|].
      assert (∃ e, items_of evs = its0 ++ e) as [e He].
      { match goal with H : _ ∨ _ |- _ => destruct H as [Hi|Hgt] end; [by apply Hnone|].
        eapply app_eq_prefix; [exact Happ|lia]. }
      exists evs, e, (l ++ if decide (WORK_QUEUE_CAPACITY < n)
                           then [log_growing_queue] else []).
      rewrite <- He, Hlen. split_and!; try done; [by rewrite app_assoc|].
      destruct (decide (WORK_QUEUE_CAPACITY < n)); [set_solver|].
      rewrite app_nil_r. split; [done|lia].
  - rewrite Nat.add_0_r. destruct a; try done.
    1-5: eapply drain_inv_caller; [done|]; eapply astep_caller; [done|done].
    (* the reactor returns *)
    inversion Hstep; subst; unfold drain_inv in *; simpl in *.
    destruct HJ as (-> & -> & new & l & -> & -> & Hn).
    split_and!; [done|lia|]. exists [], new, l. rewrite app_nil_r. split_and!; try done.
    intros Hi. match goal with H : _ ↔ _ |- _ => apply H in Hi end.
    apply app_eq_nil in Hi as [-> ->]. by exists [].
Qed.

Lemma loop_tests_cons a sched :
  loop_tests (a :: sched) = (if decide (a = act_drain) then 1 else 0) + loop_tests sched.
Proof.
  unfold loop_tests. rewrite filter_cons. by destruct (decide (a = act_drain)).
Qed.

Lemma drain_inv_run its0 tr0 lg0 self sched ps v v' :
  length its0 ≤ WORK_QUEUE_CAPACITY →
  aruns self sched ps v v' →
  ∀ k, drain_inv its0 tr0 lg0 v k →
  Forall drain_phase sched →
  drain_inv its0 tr0 lg0 v' (k + loop_tests sched).
Proof.
  intros Hcap. induction 1 as [v|a sched ps qs v1 v2 v3 Hstep Hrun IH]; intros k HJ Hph.
  - unfold loop_tests. simpl. by rewrite Nat.add_0_r.
  - apply list.Forall_cons in Hph as [Ha Hph].
    rewrite loop_tests_cons, Nat.add_assoc. apply IH; [|done].
    eapply drain_inv_step; eauto.
Qed.

(** *** The worker can always go on *)

Lemma user_item_inv i : is_user_item i → ∃ id c, i = mk_work_item (fn_user id) c.
Proof. destruct i as [[] c]; simpl; intros H; try done. eauto. Qed.

Lemma leave_progress thread t self ra qa v w :
  thread_view w thread t self ra qa true v →
  v_pc v = pc_loop →
  ∃ w', step thread act_leave_reactor w = Ret [] w'.
Proof.
  intros Hv Hpc'. view_intro Hv. rewrite Hpc' in *.
  unfold step, worker_step, run_thread_leave_reactor. mrun.
  destruct (items Q); mrun; eauto.
Qed.

Lemma drain_progress thread t self ra qa stop v w item n :
  thread_view w thread t self ra qa stop v →
  v_pc v = pc_drain item n →
  (∀ wb, step thread act_drain w ≠ Block wb) ∧
  (match item with
   | Some _ => n ≤ WORK_QUEUE_CAPACITY → ∃ i, head (v_pending v) = Some i ∧ is_user_item i
   | None => True
   end → ∃ w', step thread act_drain w = Ret [] w').
Proof.
  intros Hv Hpc'. view_intro Hv. rewrite Hpc' in *. split.
  - intros wb H. unfold step, worker_step, run_thread_drain in H.
    repeat first
      [ match goal with
        | H : call _ _ _ _ = Block _ |- _ => exfalso; exact (call_not_Block _ _ _ _ _ H)
        end
      | progress unfold_prims | minv1 ].
  - intros Hhd. unfold step, worker_step, run_thread_drain.
    destruct item as [x|]; simpl in *.
    + destruct (v_pending v) as [|i its]; [by apply Forall2_cons_nil_inv in Hits|].
      apply Forall2_cons_1 in Hits as [Hx HitsQ].
      apply list.NoDup_cons in Hnd as [Hnx HndQ].
      destruct (decide (n ≤ WORK_QUEUE_CAPACITY)) as [Hle|Hgt].
      * destruct (Hhd Hle) as (i' & [= <-] & (id & c & ->)%user_item_inv).
        mrun. destruct (items Q); mrun; eauto.
      * mrun. destruct (decide (WORK_QUEUE_CAPACITY < n)); mrun; eauto.
    + mrun. destruct (decide (WORK_QUEUE_CAPACITY < n)); mrun; eauto.
Qed.

Lemma drain_phase_not_free sched : Forall drain_phase sched → act_free_join ∉ sched.
Proof.
  rewrite list.Forall_forall. intros H Hin. by apply H in Hin.
Qed.

(** C1: from the moment the reactor is about to return, whatever the
    callers do meanwhile (post, register, unregister, stop), the drain loop
    evaluates its condition at most [WORK_QUEUE_CAPACITY + 2] times, so it
    runs at most [WORK_QUEUE_CAPACITY + 1] items; a turn of the loop never
    suspends the worker (and it returns when the item in hand is a caller's
    function); and when the worker has returned, every item that was in the
    queue when the reactor returned has been run, in order, before at most
    that many late arrivals, and "growing event queue on shutdown" has been
    logged exactly when more than [WORK_QUEUE_CAPACITY] items were run. *)
Theorem drain_completes (thread : addr) (sched : list action) (w : world)
    (ps : list work_item_t) (w' : world) :
  thread_ok w thread →
  worker_pc w thread = Some pc_loop →
  Forall drain_phase sched →
  run thread sched w = Ret ps w' →
  loop_tests sched ≤ WORK_QUEUE_CAPACITY + 2 ∧
  (∀ item n, worker_pc w' thread = Some (pc_drain item n) →
     (∀ wb, step thread act_drain w' ≠ Block wb) ∧
     (match item with
      | Some _ => n ≤ WORK_QUEUE_CAPACITY →
                  ∃ i, head (pending w' thread) = Some i ∧ is_user_item i
      | None => True
      end → ∃ w'', step thread act_drain w' = Ret [] w'')) ∧
  (worker_pc w' thread = Some pc_exited →
     ∃ extra lg,
       executed w' = executed w ++ queued w thread ++ extra ∧
       length (queued w thread ++ extra) ≤ WORK_QUEUE_CAPACITY + 1 ∧
       syslog w' = syslog w ++ lg ∧
       (log_growing_queue ∈ lg ↔
          WORK_QUEUE_CAPACITY < length (queued w thread ++ extra))).
Proof.
  intros (t & self & ra & qa & stop & v & Hv)%thread_ok_view Hloop Hph H.
  destruct (run_view _ _ _ _ _ _ _ _ _ _ _ Hv H (drain_phase_not_free _ Hph))
    as (stop' & v' & Hv' & Hr & _).
  destruct (thread_view_obs _ _ _ _ _ _ _ _ Hv) as (Hp & _ & Hpc & Htr & Hlg).
  destruct (thread_view_obs _ _ _ _ _ _ _ _ Hv') as (Hp' & _ & Hpc' & Htr' & Hlg').
  rewrite Hpc in Hloop. injection Hloop as Hloop.
  assert (queued w thread = v_pending v ∧ length (v_pending v) ≤ WORK_QUEUE_CAPACITY)
    as [Hq Hcap].
  { destruct Hv as ([Q Hinv] & _).
    destruct (queued_inv _ _ _ _ _ _ _ _ _ Hinv) as (-> & _).
    destruct Hinv as (_ & _ & _ & _ & _ & _ & _ & Hc & Hl & Hits & _).
    rewrite Hloop in *. simpl in *. split; [done|].
    rewrite <- (Forall2_length Hits). lia. }
  assert (drain_inv (v_pending v) (v_trace v) (v_log v) v 0) as HJ.
  { unfold drain_inv. rewrite Hloop. split_and!; [done..|].
    exists [], []. rewrite !app_nil_r. split_and!; [done..|set_solver]. }
  pose proof (drain_inv_run _ _ _ _ _ _ _ _ Hcap Hr 0 HJ Hph) as HJ'.
  simpl in HJ'. unfold drain_inv in HJ'. rewrite Hpc'. split_and!.
  - destruct (v_pc v') as [| |item n|]; [done|..].
    + destruct HJ' as [-> _]. lia.
    + destruct HJ' as (-> & ? & _). lia.
    + destruct HJ' as [? _]. lia.
  - intros item n [= Hd]. rewrite Hp'.
    eapply drain_progress; eauto.
  - intros [= Hex]. rewrite Hex in HJ'.
    destruct HJ' as (_ & evs & extra & l & E1 & E2 & E3 & E4 & E5).
    exists extra, l. rewrite Hq, !executed_items_of, Htr', Htr, Hlg', Hlg.
    rewrite E1, items_of_app, E2. split_and!; [done|lia|done|done].
Qed.

(** ** [thread_free] *)

Lemma run_app thread s1 : ∀ s2 w ps1 w1 ps2 w2,
  run thread s1 w = Ret ps1 w1 →
  run thread s2 w1 = Ret ps2 w2 →
  run thread (s1 ++ s2) w = Ret (ps1 ++ ps2) w2.
Proof.
  induction s1 as [|a s1 IH]; intros s2 w ps1 w1 ps2 w2 H1 H2; simpl in *.
  - by injection H1 as <- <-.
  - apply bind_Ret in H1 as (p & wa & Ha & H1).
    apply bind_Ret in H1 as (q & wb & Hb & H1). injection H1 as <- <-.
    rewrite (bind_Ret_intro _ _ _ _ _ Ha).
    rewrite (bind_Ret_intro _ _ _ _ _ (IH _ _ _ _ _ _ Hb H2)).
    simpl. by rewrite app_assoc.
Qed.

Lemma run_one thread a w ps w' :
  step thread a w = Ret ps w' → run thread [a] w = Ret ps w'.
Proof.
  intros H. simpl. rewrite (bind_Ret_intro _ _ _ _ _ H).
  unfold mret, M_ret, mbind, M_bind. by rewrite app_nil_r.
Qed.

Lemma lookup_reactor_view w thread t self ra qa stop v R :
  thread_view w thread t self ra qa stop v →
  lookup_reactor w thread = Some R ↔ heap w !! ra = Some (ObjReactor R).
Proof.
  intros Hv. view_intro Hv. unfold lookup_reactor, lookup_thread.
  rewrite Ht. simpl. rewrite Hr. simpl. rewrite HR. naive_solver.
Qed.

Lemma stop_progress thread t self ra qa stop v w :
  thread_view w thread t self ra qa stop v →
  ∃ w', step thread act_stop w = Ret [] w' ∧
        ∀ R, lookup_reactor w thread = Some R →
             lookup_reactor w' thread = Some (mk_reactor (registered R) true).
Proof.
  intros Hv. view_intro Hv. unfold step, thread_stop, lookup_reactor, lookup_thread.
  mrun. eexists. split; [done|]. rewrite Hr. simpl. rewrite HR.
  intros R' [= <-]. mrun. rewrite Hr. simpl. by mrun.
Qed.

Lemma ready_queue_progress thread t self ra qa stop v w R i its :
  thread_view w thread t self ra qa stop v →
  v_pc v = pc_loop →
  heap w !! ra = Some (ObjReactor R) →
  work_queue_object qa (Z.pos qa) ∈ registered R →
  v_pending v = i :: its → is_user_item i →
  ∃ w', step thread act_ready_queue w = Ret [] w' ∧
        heap w' !! ra = Some (ObjReactor R).
Proof.
  intros Hv Hpc' HR' Hreg Hpend (id & c & ->)%user_item_inv. view_intro Hv.
  rewrite Hpc', Hpend in *. simpl in *.
  destruct (items Q) as [|x rest] eqn:HeQ; [by apply Forall2_nil_cons_inv in Hits|].
  apply Forall2_cons_1 in Hits as [Hx HitsQ].
  unfold step, worker_step, reactor_dispatch, work_queue_read_cb. mrun.
  rewrite HeQ.
  assert (x ≠ ra ∧ x ≠ qa) as [? ?] by (split; congruence).
  mrun. eexists. split; [done|]. by mrun.
Qed.

Arguments run : simpl never.
Arguments step : simpl never.

Lemma ready_queue_run thread t self ra qa stop R (k : nat) : ∀ w v,
  thread_view w thread t self ra qa stop v →
  v_pc v = pc_loop →
  heap w !! ra = Some (ObjReactor R) →
  work_queue_object qa (Z.pos qa) ∈ registered R →
  Forall is_user_item (v_pending v) →
  k ≤ length (v_pending v) →
  ∃ w' v',
    run thread (repeat act_ready_queue k) w = Ret [] w' ∧
    thread_view w' thread t self ra qa stop v' ∧
    v_pc v' = pc_loop ∧ v_pending v' = drop k (v_pending v) ∧
    items_of (v_trace v') = items_of (v_trace v) ++ take k (v_pending v) ∧
    v_log v' = v_log v ∧
    heap w' !! ra = Some (ObjReactor R).
Proof.
  induction k as [|k IH]; intros w v Hv Hpc HR Hreg Huser Hk.
  - exists w, v. rewrite drop_0, take_0, app_nil_r. by split_and!.
  - destruct (v_pending v) as [|i its] eqn:Hpend; [simpl in Hk; lia|].
    apply list.Forall_cons in Huser as [Hi Hits].
    destruct (ready_queue_progress _ _ _ _ _ _ _ _ _ _ _ Hv Hpc HR Hreg Hpend Hi)
      as (w1 & Hstep & HR1).
    destruct (step_ready_queue _ _ _ _ _ _ _ _ _ _ Hv Hstep) as (v1 & Hv1 & Ha).
    inversion Ha; subst. simpl in *. injection Hpend as -> ->.
    destruct (IH w1 _ Hv1 eq_refl HR1 Hreg Hits)
      as (w' & v' & Hrun & Hv' & Hpc' & Hp' & Htr' & Hlg' & HR'); [simpl; lia|].
    exists w', v'. simpl in *. split_and!; try done.
    + apply (run_app thread [act_ready_queue] _ _ [] w1 [] w'); [|done].
      by apply run_one.
    + rewrite Htr', items_of_app. simpl. rewrite work_item_eta.
      by rewrite <- app_assoc.
Qed.

Lemma drain_run thread t self ra qa stop (its : list work_item_t) : ∀ w v item n,
  thread_view w thread t self ra qa stop v →
  v_pc v = pc_drain item n →
  v_pending v = its →
  (item = None ↔ its = []) →
  Forall is_user_item its →
  n + length its ≤ WORK_QUEUE_CAPACITY →
  ∃ w' v',
    run thread (repeat act_drain (S (length its))) w = Ret [] w' ∧
    thread_view w' thread t self ra qa stop v' ∧
    v_pc v' = pc_exited ∧ v_pending v' = [] ∧
    items_of (v_trace v') = items_of (v_trace v) ++ its ∧
    v_log v' = v_log v.
Proof.
  induction its as [|i its IH]; intros w v item n Hv Hpc Hpend Hnone Huser Hn.
  - assert (item = None) as -> by by apply Hnone.
    destruct (drain_progress _ _ _ _ _ _ _ _ _ _ Hv Hpc) as [_ Hgo].
    destruct (Hgo I) as (w1 & Hstep).
    destruct (step_drain _ _ _ _ _ _ _ _ _ _ Hv Hstep) as (v1 & Hv1 & Ha).
    exists w1, v1. split; [by apply run_one|]. split; [done|].
    inversion Ha; simplify_eq/=.
    rewrite decide_False by lia. rewrite !app_nil_r. by split_and!.
  - destruct item as [x|]; [|by destruct Hnone as [Hn' _]; specialize (Hn' eq_refl)].
    apply list.Forall_cons in Huser as [Hi Hits]. simpl in Hn.
    destruct (drain_progress _ _ _ _ _ _ _ _ _ _ Hv Hpc) as [_ Hgo].
    destruct Hgo as (w1 & Hstep).
    { intros _. exists i. by rewrite Hpend. }
    destruct (step_drain _ _ _ _ _ _ _ _ _ _ Hv Hstep) as (v1 & Hv1 & Ha).
    inversion Ha; simplify_eq/=.
    2:{ match goal with H : _ ∨ _ |- _ => destruct H as [?|?]; [done|lia] end. }
    destruct (IH w1 _ _ _ Hv1 eq_refl eq_refl) as (w' & v' & Hrun & Hv' & Hpc' & Hp' & Htr' & Hlg');
      [done|done|simpl; lia|].
    exists w', v'. simpl in *. split_and!; try done.
    + apply (run_app thread [act_drain] _ _ [] w1 [] w'); [|done].
      by apply run_one.
    + rewrite Htr', items_of_app. simpl. rewrite work_item_eta.
      by rewrite <- app_assoc.
Qed.

Lemma free_items_ok (l : list addr) : ∀ w,
  NoDup l → (∀ a, a ∈ l → is_Some (heap w !! a)) →
  free_items l w = Ret tt (set_heap (fold_left (λ h a, delete a h) l (heap w)) w).
Proof.
  induction l as [|x l IH]; intros w Hnd Hall.
  - by destruct w.
  - apply list.NoDup_cons in Hnd as [Hx Hnd].
    destruct (Hall x) as [o Ho]; [left|].
    simpl. unfold free at 1. rewrite bind_unfold. simpl. rewrite Ho.
    rewrite IH; [done|done|].
    intros a Ha. simpl. rewrite lookup_delete_ne; [apply Hall; by right|].
    by intros ->.
Qed.

Lemma lookup_fold_delete (l : list addr) : ∀ (h : gmap positive object) a,
  fold_left (λ h a, delete a h) l h !! a =
    if bool_decide (a ∈ l) then None else h !! a.
Proof.
  induction l as [|x l IH]; intros h a; cbn [fold_left].
  - rewrite bool_decide_eq_false_2; [done|]. apply not_elem_of_nil.
  - rewrite IH. destruct (decide (a = x)) as [->|Hne].
    + rewrite lookup_delete_eq, (bool_decide_eq_true_2 (x ∈ x :: l)) by left.
      by destruct (bool_decide _).
    + rewrite lookup_delete_ne by done.
      destruct (bool_decide (a ∈ l)) eqn:E.
      * apply bool_decide_eq_true in E. rewrite bool_decide_eq_true_2; [done|by right].
      * apply bool_decide_eq_false in E. rewrite bool_decide_eq_false_2; [done|].
        intros [?|?]%elem_of_cons; done.
Qed.

Lemma thread_inv_items w thread t self ra qa p Q its a :
  thread_inv w thread t self ra qa p Q its →
  a ∈ cur_item p ++ items Q → ∃ i, heap w !! a = Some (ObjWorkItem i).
Proof.
  intros (_ & _ & _ & _ & _ & _ & _ & _ & _ & Hf & _) Ha.
  apply list_elem_of_lookup in Ha as [k Hk].
  destruct (Forall2_lookup_l _ _ _ _ _ Hf Hk) as (i & _ & Hi). eauto.
Qed.

(** The part of [thread_free] after [thread_stop], when its [pthread_join]
    returns: because the worker has returned from [run_thread], or because
    the caller is the worker itself. *)
Lemma thread_free_join_releases caller thread w t self ra qa p Q its :
  thread_inv w thread t self ra qa p Q its →
  p = pc_exited ∨ caller = self →
  ∃ w', thread_free_join caller thread w = Ret tt w' ∧
        (∀ a, heap w' !! a =
              if bool_decide (a ∈ thread :: ra :: qa :: items Q) then None
              else heap w !! a) ∧
        os_threads w' = match p with
                        | pc_exited => delete self (os_threads w)
                        | _ => os_threads w
                        end ∧
        trace w' = trace w ∧ syslog w' = syslog w.
Proof.
  intros Hinv Hc.
  pose proof Hinv as (Ht & Hp & Hr & Hq & (R & HR) & Hos & HQ & _ & _ & Hf & Hnd).
  apply list.NoDup_app in Hnd as (_ & _ & Hnd).
  assert (Hitem : ∀ a, a ∈ items Q → ∃ i, heap w !! a = Some (ObjWorkItem i)).
  { intros a Ha. apply (thread_inv_items _ _ _ _ _ _ _ _ _ a Hinv).
    apply elem_of_app. by right. }
  assert (Hqa : qa ∉ items Q).
  { intros [i Hi]%Hitem. congruence. }
  assert (Hra : ra ∉ items Q).
  { intros [i Hi]%Hitem. congruence. }
  assert (Hth : thread ∉ items Q).
  { intros [i Hi]%Hitem. congruence. }
  assert (ra ≠ qa) by congruence.
  assert (thread ≠ qa) by congruence.
  assert (thread ≠ ra) by congruence.
  assert (Hjoin : ∃ w0, pthread_join caller (Some self) w = Ret tt w0 ∧
            heap w0 = heap w ∧ trace w0 = trace w ∧ syslog w0 = syslog w ∧
            os_threads w0 = match p with
                            | pc_exited => delete self (os_threads w)
                            | _ => os_threads w
                            end).
  { unfold pthread_join. mrun.
    destruct p; destruct Hc as [Hc|Hc]; try discriminate Hc; subst; mrun;
      eexists; (split; [reflexivity|]); done. }
  destruct Hjoin as (w0 & Hjoin & Hh0 & Htr0 & Hlog0 & Hos0).
  unfold thread_free_join, fixed_queue_free.
  rewrite bind_unfold. unfold load_thread at 1. rewrite Ht, Hp.
  rewrite bind_unfold, Hjoin, Hq, Hr. clear Hjoin.
  rewrite <- Hh0 in Ht, HR, HQ, Hitem.
  mrun.
  rewrite free_items_ok; [|done|].
  2:{ intros a [i Hi]%Hitem. simpl. eauto. }
  mrun. rewrite !lookup_fold_delete, !bool_decide_eq_false_2 by done.
  mrun. rewrite !lookup_fold_delete, !bool_decide_eq_false_2 by done.
  mrun. rewrite !lookup_fold_delete, !bool_decide_eq_false_2 by done.
  mrun.
  eexists. split; [done|]. simpl. split_and!; try done.
  intros a. rewrite <- Hh0.
  destruct (bool_decide (a ∈ thread :: ra :: qa :: items Q)) eqn:E.
  - apply bool_decide_eq_true in E. rewrite !elem_of_cons in E.
    rewrite !lookup_delete, lookup_fold_delete.
    repeat case_decide; try done.
    rewrite bool_decide_eq_true_2; [done|]. naive_solver.
  - apply bool_decide_eq_false in E. rewrite !elem_of_cons in E.
    rewrite !lookup_delete_ne, lookup_fold_delete, bool_decide_eq_false_2;
      naive_solver.
Qed.

Lemma step_free_join thread t w :
  heap w !! thread = Some (ObjThread t) →
  step thread act_free_join w =
  (thread_free_join (caller_thread t) thread ;; mret []) w.
Proof. intros Ht. unfold step. rewrite bind_unfold. unfold load_thread. by rewrite Ht. Qed.

(** While the worker has not returned, a caller's [thread_free] stays in
    [pthread_join]. *)
Lemma free_join_waits thread t self ra qa stop v w :
  thread_view w thread t self ra qa stop v →
  v_pc v ≠ pc_exited →
  step thread act_free_join w = Block w.
Proof.
  intros Hv Hne. view_intro Hv.
  rewrite (step_free_join _ _ _ Ht). unfold thread_free_join, pthread_join, caller_thread.
  mrun. destruct (v_pc v); try done; mrun; by rewrite decide_False by lia.
Qed.

Lemma free_join_returns thread t self ra qa stop v w ps w' :
  thread_view w thread t self ra qa stop v →
  step thread act_free_join w = Ret ps w' →
  v_pc v = pc_exited ∧ trace w' = trace w ∧ lookup_thread w' thread = None.
Proof.
  intros Hv H.
  destruct (decide (v_pc v = pc_exited)) as [E|E].
  2:{ rewrite (free_join_waits _ _ _ _ _ _ _ _ Hv E) in H. done. }
  split; [done|]. pose proof Hv as ([Q Hinv] & _). rewrite E in Hinv.
  destruct (thread_free_join_releases (caller_thread t) _ _ _ _ _ _ _ _ _ Hinv)
    as (w2 & Hf & Hh & _ & Htr & _); [by left|].
  destruct Hinv as (Ht & _).
  rewrite (step_free_join _ _ _ Ht), bind_unfold, Hf in H. injection H as <- <-.
  split; [done|]. unfold lookup_thread. rewrite Hh, bool_decide_eq_true_2; [done|left].
Qed.

(** [served] is kept by every step. *)
Lemma astep_served its0 tr0 self a ps v v' :
  length its0 ≤ WORK_QUEUE_CAPACITY →
  astep self a ps v v' → served its0 tr0 v → served its0 tr0 v'.
Proof.
  intros Hlen Ha (evs & Htr & Hm). destruct Ha; simpl in *.
  - (* thread_post *)
    exists evs. split; [done|]. destruct p; simpl in *.
    + destruct Hm as [new Hm]. exists (new ++ [mk_work_item (fn_user id) c]).
      by rewrite !app_assoc, Hm.
    + destruct Hm as [new Hm]. exists (new ++ [mk_work_item (fn_user id) c]).
      by rewrite !app_assoc, Hm.
    + destruct Hm as (? & [new Hm] & ?). split_and!; try done.
      exists (new ++ [mk_work_item (fn_user id) c]). by rewrite !app_assoc, Hm.
    + done.
  - by exists evs.
  - (* thread_register *)
    exists evs. split; [done|]. destruct p; simpl in *.
    + destruct Hm as [new Hm]. eexists (new ++ [_]). by rewrite !app_assoc, Hm.
    + destruct Hm as [new Hm]. eexists (new ++ [_]). by rewrite !app_assoc, Hm.
    + destruct Hm as (? & [new Hm] & ?). split_and!; try done.
      eexists (new ++ [_]). by rewrite !app_assoc, Hm.
    + done.
  - by exists evs.
  - (* thread_unregister *)
    exists evs. split; [done|]. destruct p; simpl in *.
    + destruct Hm as [new Hm]. eexists (new ++ [_]). by rewrite !app_assoc, Hm.
    + destruct Hm as [new Hm]. eexists (new ++ [_]). by rewrite !app_assoc, Hm.
    + destruct Hm as (? & [new Hm] & ?). split_and!; try done.
      eexists (new ++ [_]). by rewrite !app_assoc, Hm.
    + done.
  - by exists evs.
  - by exists evs.
  - by exists evs.
  - (* into the reactor *)
    by exists evs.
  - (* a caller's source is ready *)
    exists (evs ++ [ev_ready self (source_object o)]).
    split; [by rewrite Htr, app_assoc|].
    rewrite items_of_app. simpl. by rewrite app_nil_r.
  - (* work_queue_read_cb *)
    exists (evs ++ [ev_item self (func i) (wi_context i)]).
    split; [by rewrite Htr, app_assoc|].
    destruct Hm as [new Hm]. exists new.
    rewrite items_of_app. simpl. rewrite work_item_eta.
    by rewrite <- app_assoc.
  - (* out of the reactor *)
    exists evs. split; [done|]. destruct Hm as [new Hm]. split_and!.
    + lia.
    + by exists new.
    + intros Hn. exists new. apply H in Hn. subst. by rewrite app_nil_r in Hm.
  - (* the body of the drain loop *)
    exists (evs ++ [ev_item self (func i) (wi_context i)]).
    split; [by rewrite Htr, app_assoc|].
    destruct Hm as (Hn & [new Hm] & _).
    rewrite items_of_app. simpl. rewrite work_item_eta. split_and!.
    + rewrite length_app. simpl. lia.
    + exists new. by rewrite <- app_assoc.
    + intros Hnone. exists new. apply H0 in Hnone. subst.
      by rewrite <- Hm.
  - (* the end of the drain loop *)
    exists evs. split; [done|]. destruct Hm as (Hn & [new Hm] & Hnone).
    destruct H as [->|Hgt]; [by apply Hnone|].
    apply (app_eq_prefix _ _ _ _ Hm). lia.
Qed.

Lemma aruns_served its0 tr0 self sched ps v v' :
  length its0 ≤ WORK_QUEUE_CAPACITY →
  aruns self sched ps v v' → served its0 tr0 v → served its0 tr0 v'.
Proof.
  intros Hlen. induction 1 as [v|a sched ps qs v1 v2 v3 Ha Hr IH]; [done|].
  intros Hs. apply IH. by apply (astep_served _ _ _ _ _ _ _ Hlen Ha).
Qed.


(** ** [thread_unregister] and [thread_register] when memory runs out *)

(** C2, as the code has it: when the semaphore cannot be allocated,
    [thread_unregister] writes a diagnostic and returns, without a value
    (it is a [void] function); no request has been posted, the queue and
    the reactor's registrations are as before, no callback has run. *)
Theorem thread_unregister_sem_failure (thread : addr) (obj : reactor_object_t)
    (w : world) :
  alloc_fails w (alloc_calls w) = true →
  ∃ w', thread_unregister thread obj w = Ret tt w' ∧
        thread_unregister_request thread obj w = Ret None w' ∧
        heap w' = heap w ∧ os_threads w' = os_threads w ∧ trace w' = trace w ∧
        syslog w' = syslog w ++ [log_unregister_sem_failed] ∧
        queued w' thread = queued w thread ∧
        lookup_reactor w' thread = lookup_reactor w thread.
Proof.
  intros Ha. unfold thread_unregister, thread_unregister_request, semaphore_new.
  rewrite !bind_unfold, (alloc_fail _ _ Ha). simpl. eexists. by split_and!.
Qed.

(** C10: [thread_register] can fail without telling its caller.  When the
    allocation of its argument block fails, it writes through the null
    pointer.  When that allocation succeeds and the one made by
    [thread_post] fails, it returns as usual, the request is not in the
    queue, nothing is registered, and the argument block stays allocated for
    good.  When nothing fails (and the queue has room) it returns the same
    way, with the request queued. *)
Theorem thread_register_silent_failure (thread : addr) (obj : reactor_object_t)
    (w : world) :
  thread_ok w thread →
  (alloc_fails w (alloc_calls w) = true →
     ∃ w', thread_register thread obj w = Crash w') ∧
  (alloc_fails w (alloc_calls w) = false →
   alloc_fails w (S (alloc_calls w)) = true →
     ∃ a w', thread_register thread obj w = Ret tt w' ∧
       heap w !! a = None ∧
       heap w' = <[a := ObjRegisterArg (mk_register_arg thread obj)]> (heap w) ∧
       pending w' thread = pending w thread ∧
       lookup_reactor w' thread = lookup_reactor w thread ∧
       trace w' = trace w ∧ thread_ok w' thread) ∧
  (alloc_fails w (alloc_calls w) = false →
   alloc_fails w (S (alloc_calls w)) = false →
   (∀ Q, lookup_queue w thread = Some Q → length (items Q) < capacity Q) →
     ∃ a w', thread_register thread obj w = Ret tt w' ∧
       pending w' thread =
         pending w thread ++ [mk_work_item fn_register_with_reactor_cb (ctx_register_arg a)] ∧
       heap w' !! a = Some (ObjRegisterArg (mk_register_arg thread obj))).
Proof.
  intros (t & self & ra & qa & stop & v & Hv)%thread_ok_view. split_and!.
  - intros Ha. unfold thread_register, malloc.
    rewrite bind_unfold, (alloc_fail _ _ Ha). simpl. eauto.
  - intros Ha0 Ha1. unfold thread_register, malloc.
    destruct (alloc_ok ObjRaw w Ha0) as (a & Hfr & Hal).
    rewrite bind_unfold, Hal. simpl. rewrite bind_unfold. unfold store. simpl.
    rewrite bind_unfold. simpl. rewrite insert_insert_eq.
    rewrite bind_unfold, thread_post_fail by done. simpl.
    exists a. eexists. split; [done|].
    match goal with |- context [pending ?w1 thread] =>
      assert (thread_view w1 thread t self ra qa stop
                (mk_view (v_pc v) (v_pending v) (v_trace v)
                         (v_log v ++ [log_post_alloc_failed]))) as Hv1
    end.
    { destruct (thread_view_frame w
        (set_heap (<[a:=ObjRegisterArg (mk_register_arg thread obj)]> (heap w)) w)
        _ _ _ _ _ _ _ Hv) as (HA & HB & HC & HD); try done.
      { eapply heap_frame_insert_fresh; [exact Hfr|done]. }
      split_and!; simpl in *; try done. congruence. }
    destruct (thread_view_obs _ _ _ _ _ _ _ _ Hv) as (Hp & _).
    destruct (thread_view_obs _ _ _ _ _ _ _ _ Hv1) as (Hp1 & _).
    split_and!; try done.
    + by rewrite Hp, Hp1.
    + destruct Hv as ([Q Hinv] & (R & HR & _) & _).
      pose proof Hinv as (Ht & _ & Hr & _).
      unfold lookup_reactor, lookup_thread. simpl.
      rewrite !lookup_insert_ne by congruence. rewrite Ht. simpl. rewrite Hr. simpl.
      rewrite !lookup_insert_ne by congruence. done.
    + apply thread_ok_view. eauto 10.
  - intros Ha0 Ha1 Hroom. unfold thread_register, malloc.
    destruct (alloc_ok ObjRaw w Ha0) as (a & Hfr & Hal).
    rewrite bind_unfold, Hal. simpl. rewrite bind_unfold. unfold store. simpl.
    rewrite bind_unfold. simpl. rewrite insert_insert_eq.
    match goal with |- context [(_ ≫= _) ?w1] =>
      assert (thread_view w1 thread t self ra qa stop v) as Hv1
    end.
    { eapply thread_view_frame; [exact Hv| |done..].
      eapply heap_frame_insert_fresh; [exact Hfr|done]. }
    destruct Hv1 as ([Q1 Hinv1] & _).
    destruct (thread_post_ok thread fn_register_with_reactor_cb (ctx_register_arg a)
                _ _ _ _ _ _ _ _ Hinv1 Ha1) as (i & w' & Hi & Hpost & Hh & _ & _ & _ & Hinv').
    { destruct Hv as ([Q Hinv] & _).
      destruct (queued_inv _ _ _ _ _ _ _ _ _ Hinv) as (_ & _ & HlQ).
      specialize (Hroom _ HlQ).
      destruct Hinv as (_ & _ & _ & _ & _ & _ & HQ & _).
      destruct Hinv1 as (_ & _ & _ & _ & _ & _ & HQ1 & _). simpl in HQ1.
      rewrite lookup_insert_ne in HQ1 by congruence. congruence. }
    rewrite bind_unfold, Hpost. simpl. exists a, w'. split; [done|].
    destruct (thread_view_obs _ _ _ _ _ _ _ _ Hv) as (Hp & _).
    destruct (pending_inv _ _ _ _ _ _ _ _ _ Hinv') as (Hp' & _).
    split; [by rewrite Hp, Hp'|].
    rewrite Hh. simpl in Hi. apply lookup_insert_None in Hi as [Hi Hne].
    destruct Hinv1 as (_ & _ & _ & _ & _ & _ & HQ1 & _). simpl in HQ1.
    assert (qa ≠ a) by (intros ->; rewrite lookup_insert_eq in HQ1; done).
    rewrite !lookup_insert_ne by congruence. apply lookup_insert_eq.
Qed.

(** ** The name of a thread *)

Lemma strncpy_length src n : length (strncpy src n) = n.
Proof.
  revert src. induction n as [|n IH]; intros [|c rest]; simpl; try done.
  - by rewrite IH.
  - destruct (decide (c = x00)); simpl; by rewrite IH.
Qed.

Lemma c_str_strncpy src n : c_str (strncpy src n ++ [x00]) = take n (c_str src).
Proof.
  revert src. induction n as [|n IH]; intros [|c rest]; simpl;
    rewrite ?(decide_True (P := x00 = x00)) by done; try done.
  destruct (decide (c = x00)) as [->|Hc]; simpl.
  - done.
  - rewrite decide_False by done. by rewrite IH.
Qed.

Lemma thread_inv_view w thread t self ra qa p Q its :
  thread_inv w thread t self ra qa p Q its →
  ∃ stop, thread_view w thread t self ra qa stop (mk_view p its (trace w) (syslog w)).
Proof.
  intros Hinv. pose proof Hinv as (_ & _ & _ & _ & [R HR] & _).
  exists (stop_requested R). split_and!; simpl; eauto.
Qed.

Section thread_name_proofs.
Variable THREAD_NAME_MAX : nat.

(** C9: after [thread_new] has accepted a name, and after any further
    calls and worker steps short of freeing the thread, [thread_name]
    returns the buffer [thread->name], which has
    [THREAD_NAME_MAX + 1] bytes, ends with a NUL, and holds as a C string
    the first [THREAD_NAME_MAX] characters of the name that was passed
    (the whole name when it is shorter). *)
Theorem thread_name_invariant (nm : list byte) (w : world) (r : addr)
    (w1 : world) (sched : list action) (ps : list work_item_t) (w2 : world) :
  thread_new THREAD_NAME_MAX nm w = Ret (Some r) w1 →
  act_free_join ∉ sched →
  run r sched w1 = Ret ps w2 →
  ∃ buf, thread_name r w2 = Ret buf w2 ∧
         length buf = S THREAD_NAME_MAX ∧
         buf !! THREAD_NAME_MAX = Some x00 ∧
         length (c_str buf) ≤ THREAD_NAME_MAX ∧
         c_str buf = take THREAD_NAME_MAX (c_str nm).
Proof.
  intros Hnew Hnf Hrun.
  destruct (thread_new_Some THREAD_NAME_MAX _ _ _ _ Hnew)
    as ((t & self & ra & qa & Hinv & Hname & _) & _).
  destruct (thread_inv_view _ _ _ _ _ _ _ _ _ Hinv) as [stop Hv].
  destruct (run_view _ _ _ _ _ _ _ _ _ _ _ Hv Hrun Hnf) as (stop' & v' & Hv' & _).
  destruct Hv' as ([Q' (Ht & _)] & _).
  exists (name t). split_and!.
  - unfold thread_name. by mrun.
  - rewrite Hname, length_app, strncpy_length. simpl. lia.
  - rewrite Hname, lookup_app_r; rewrite strncpy_length; [|done].
    by rewrite Nat.sub_diag.
  - rewrite Hname, c_str_strncpy, length_take. lia.
  - by rewrite Hname, c_str_strncpy.
Qed.
End thread_name_proofs.

(** * The rest of thread.c *)

(** ** When [thread_new] succeeds *)

Section thread_new_more.
Variable THREAD_NAME_MAX : nat.

(** X1: [thread_new] returns a handle exactly when none of its four
    allocations (control block, reactor, queue, start semaphore) fails,
    [pthread_create] succeeds and the spawned thread manages to set its
    name.  When one of the allocations fails it returns null before
    [pthread_create] is reached: no OS thread is created and no callback
    runs.  When the allocations succeed and [pthread_create] fails, it does
    not return: no OS thread exists that could post the start semaphore. *)
Theorem thread_new_succeeds_iff (nm : list byte) (w : world) :
  let n := alloc_calls w in
  ((∃ r w', thread_new THREAD_NAME_MAX nm w = Ret (Some r) w') ↔
   alloc_fails w n = false ∧ alloc_fails w (S n) = false ∧
   alloc_fails w (S (S n)) = false ∧ alloc_fails w (S (S (S n))) = false ∧
   pthread_create_errno w (pthread_create_calls w) = 0%Z ∧
   prctl_errno w (prctl_calls w) = 0%Z) ∧
  (alloc_fails w n = true ∨ alloc_fails w (S n) = true ∨
   alloc_fails w (S (S n)) = true ∨ alloc_fails w (S (S (S n))) = true →
   ∃ w', thread_new THREAD_NAME_MAX nm w = Ret None w' ∧
         os_threads w' = os_threads w ∧ trace w' = trace w ∧
         pthread_create_calls w' = pthread_create_calls w) ∧
  (alloc_fails w n = false → alloc_fails w (S n) = false →
   alloc_fails w (S (S n)) = false → alloc_fails w (S (S (S n))) = false →
   pthread_create_errno w (pthread_create_calls w) ≠ 0%Z →
   ∃ w', thread_new THREAD_NAME_MAX nm w = Block w' ∧
         os_threads w' = os_threads w ∧ trace w' = trace w).
Proof.
  intros n. pose proof (thread_new_cases THREAD_NAME_MAX nm w) as H.
  simpl in H. fold n in H.
  destruct (alloc_fails w n) eqn:A0, (alloc_fails w (S n)) eqn:A1,
    (alloc_fails w (S (S n))) eqn:A2, (alloc_fails w (S (S (S n)))) eqn:A3;
    simpl in H;
    try (destruct H as (w' & H & _ & Hos & Htr & Hpc); split_and!;
         [split; [intros (r & w1 & Hr); congruence
                 | intros (? & ? & ? & ? & _); congruence]
         | intros _; eauto 10
         | intros; congruence]).
  destruct (decide (pthread_create_errno w (pthread_create_calls w) = 0%Z)) as [C|C].
  - destruct (decide (prctl_errno w (prctl_calls w) = 0%Z)) as [E|E].
    + destruct H as (r & w' & H & _). split_and!.
      * split; [by intros _ | by eauto].
      * intros [|[|[|]]]; congruence.
      * intros; congruence.
    + destruct H as (self & w' & H & _). split_and!.
      * split; [intros (r & w1 & Hr); congruence | by intros (_ & _ & _ & _ & _ & ?)].
      * intros [|[|[|]]]; congruence.
      * intros; congruence.
  - destruct H as (r & ra & qa & s & t & w' & H & _ & _ & _ & _ & _ & _ & _ & _ & _
                   & Hos & Htr & _).
    split_and!.
    + split; [intros (r' & w1 & Hr); congruence | by intros (_ & _ & _ & _ & ? & _)].
    + intros [|[|[|]]]; congruence.
    + intros _ _ _ _ _. eauto.
Qed.
End thread_new_more.

(** ** The control block *)

(** X2: once [thread_new] has returned, the control block is never written
    again.  Whatever the callers and the worker do short of [thread_free],
    the handle designates the same [thread_t], the same OS thread serves
    it, and [thread_get_reactor] returns the same non-null pointer to a
    live reactor. *)
Theorem control_block_immutable (thread : addr) (sched : list action)
    (w : world) (ps : list work_item_t) (w' : world) :
  thread_ok w thread →
  act_free_join ∉ sched →
  run thread sched w = Ret ps w' →
  lookup_thread w' thread = lookup_thread w thread ∧
  worker_id w' thread = worker_id w thread ∧
  ∃ ra, thread_get_reactor thread w = Ret (Some ra) w ∧
        thread_get_reactor thread w' = Ret (Some ra) w' ∧
        ∃ R R', heap w !! ra = Some (ObjReactor R) ∧
                heap w' !! ra = Some (ObjReactor R').
Proof.
  intros (t & self & ra & qa & stop & v & Hv)%thread_ok_view Hnf Hrun.
  destruct (run_view _ _ _ _ _ _ _ _ _ _ _ Hv Hrun Hnf) as (stop' & v' & Hv' & _).
  destruct (thread_view_obs _ _ _ _ _ _ _ _ Hv) as (_ & Hid & _).
  destruct (thread_view_obs _ _ _ _ _ _ _ _ Hv') as (_ & Hid' & _).
  destruct Hv as ([Q (Ht & Hp & Hr & Hq & _)] & (R & HR & _) & _).
  destruct Hv' as ([Q' (Ht' & _)] & (R' & HR' & _) & _).
  split_and!.
  - unfold lookup_thread. by rewrite Ht, Ht'.
  - by rewrite Hid, Hid'.
  - exists ra. unfold thread_get_reactor. split_and!; [by mrun; rewrite Hr..|eauto].
Qed.

(** ** [thread_stop] and [thread_free] *)

Lemma thread_stop_inv thread w t self ra qa p Q its R :
  thread_inv w thread t self ra qa p Q its →
  heap w !! ra = Some (ObjReactor R) →
  let w1 := set_heap (<[ra := ObjReactor (mk_reactor (registered R) true)]> (heap w)) w in
  thread_stop thread w = Ret tt w1 ∧ thread_inv w1 thread t self ra qa p Q its.
Proof.
  intros Hinv HR w1.
  pose proof Hinv as (Ht & Hp & Hr & Hq & _ & Hos & HQ & _).
  split.
  - unfold thread_stop, reactor_stop. by mrun.
  - eapply thread_inv_stable; eauto; subst w1; simpl.
    + intros a o Ha Hst. destruct (decide (a = ra)) as [->|].
      * rewrite HR in Ha. by simplify_eq.
      * by rewrite lookup_insert_ne.
    + rewrite lookup_insert_eq. eauto.
Qed.

Lemma thread_stop_effect (thread : addr) (w : world) :
  thread_ok w thread →
  ∃ R w1,
    lookup_reactor w thread = Some R ∧
    thread_stop thread w = Ret tt w1 ∧
    lookup_reactor w1 thread = Some (mk_reactor (registered R) true) ∧
    thread_stop thread w1 = Ret tt w1 ∧
    dom (heap w1) = dom (heap w) ∧
    lookup_thread w1 thread = lookup_thread w thread ∧
    pending w1 thread = pending w thread ∧
    worker_pc w1 thread = worker_pc w thread ∧
    trace w1 = trace w ∧ syslog w1 = syslog w ∧
    thread_ok w1 thread.
Proof.
  intros (t & self & ra & qa & p & Q & its & Hinv).
  pose proof Hinv as (Ht & Hp & Hr & Hq & (R & HR) & Hos & HQ & _).
  destruct (thread_stop_inv _ _ _ _ _ _ _ _ _ _ Hinv HR) as [Hstop Hinv1].
  set (w1 := set_heap (<[ra := ObjReactor (mk_reactor (registered R) true)]> (heap w)) w)
    in *.
  exists R, w1. split_and!.
  - unfold lookup_reactor, lookup_thread. rewrite Ht. simpl. rewrite Hr. simpl. by rewrite HR.
  - done.
  - unfold lookup_reactor, lookup_thread. destruct Hinv1 as (-> & _). simpl. rewrite Hr. simpl.
    subst w1. simpl. by rewrite lookup_insert_eq.
  - unfold thread_stop, reactor_stop. destruct Hinv1 as (Ht1 & _).
    subst w1. simpl in *. mrun. by rewrite insert_insert_eq.
  - subst w1. simpl. apply dom_insert_lookup_L. eauto.
  - unfold lookup_thread. destruct Hinv1 as (-> & _). by rewrite Ht.
  - destruct (pending_inv _ _ _ _ _ _ _ _ _ Hinv) as (-> & _).
    by destruct (pending_inv _ _ _ _ _ _ _ _ _ Hinv1) as (-> & _).
  - destruct (pending_inv _ _ _ _ _ _ _ _ _ Hinv) as (_ & _ & ->).
    by destruct (pending_inv _ _ _ _ _ _ _ _ _ Hinv1) as (_ & _ & ->).
  - done.
  - done.
  - by do 7 eexists.
Qed.

(** X3: [thread_stop] on a well-formed thread returns, and all it does is
    set the stop request of the thread's reactor: no cell is allocated or
    freed, the control block, the pending work items, the position of the
    worker, the trace and the log are untouched.  A second call changes
    nothing at all. *)
Theorem thread_stop_spec (thread : addr) (w : world) :
  thread_ok w thread →
  ∃ R w1,
    lookup_reactor w thread = Some R ∧
    thread_stop thread w = Ret tt w1 ∧
    lookup_reactor w1 thread = Some (mk_reactor (registered R) true) ∧
    thread_stop thread w1 = Ret tt w1 ∧
    dom (heap w1) = dom (heap w) ∧
    lookup_thread w1 thread = lookup_thread w thread ∧
    pending w1 thread = pending w thread ∧
    worker_pc w1 thread = worker_pc w thread ∧
    trace w1 = trace w ∧ syslog w1 = syslog w ∧
    thread_ok w1 thread.
Proof. exact (thread_stop_effect thread w). Qed.

(** X4: nothing in thread.c withdraws a stop request.  Once the reactor of
    a thread has been asked to stop, it stays so through every further call
    and worker step short of [thread_free]; so whenever the worker is inside
    [reactor_start] afterwards, it can leave it for the drain loop. *)
Theorem stop_request_persists (thread : addr) (sched : list action)
    (w : world) (ps : list work_item_t) (w' : world) (R : reactor_t) :
  thread_ok w thread →
  lookup_reactor w thread = Some R → stop_requested R = true →
  act_free_join ∉ sched →
  run thread sched w = Ret ps w' →
  (∃ R', lookup_reactor w' thread = Some R' ∧ stop_requested R' = true) ∧
  (worker_pc w' thread = Some pc_loop →
   ∃ w'', step thread act_leave_reactor w' = Ret [] w'').
Proof.
  intros (t & self & ra & qa & stop & v & Hv)%thread_ok_view HR Hstop Hnf Hrun.
  assert (stop = true) as ->.
  { apply (lookup_reactor_view _ _ _ _ _ _ _ _ _ Hv) in HR.
    destruct Hv as (_ & (R0 & HR0 & <-) & _). congruence. }
  destruct (run_view _ _ _ _ _ _ _ _ _ _ _ Hv Hrun Hnf) as (stop' & v' & Hv' & _ & Hs).
  rewrite (Hs eq_refl) in Hv'. split.
  - pose proof Hv' as (_ & (R' & HR' & ?) & _). exists R'. split; [|done].
    by apply (lookup_reactor_view _ _ _ _ _ _ _ _ _ Hv').
  - intros Hpc. destruct (thread_view_obs _ _ _ _ _ _ _ _ Hv') as (_ & _ & Hpc' & _).
    eapply leave_progress; eauto. congruence.
Qed.

(** The whole of [thread_free] when its [pthread_join] returns. *)
Lemma thread_free_frees caller thread w t self ra qa p Q its :
  thread_inv w thread t self ra qa p Q its →
  p = pc_exited ∨ caller = self →
  ∃ w', thread_free caller (Some thread) w = Ret tt w' ∧
        (∀ a, heap w' !! a =
              if bool_decide (a ∈ thread :: ra :: qa :: items Q) then None
              else heap w !! a) ∧
        os_threads w' = match p with
                        | pc_exited => delete self (os_threads w)
                        | _ => os_threads w
                        end ∧
        trace w' = trace w ∧ syslog w' = syslog w.
Proof.
  intros Hinv Hc.
  pose proof Hinv as (Ht & Hp & Hr & Hq & (R & HR) & _).
  destruct (thread_stop_inv _ _ _ _ _ _ _ _ _ _ Hinv HR) as [Hstop Hinv1].
  destruct (thread_free_join_releases caller _ _ _ _ _ _ _ _ _ Hinv1 Hc)
    as (w' & Hfree & Hheap & Hos & Htr & Hlog).
  exists w'. split_and!; try done.
  - unfold thread_free. by rewrite bind_unfold, Hstop.
  - intros a. rewrite Hheap. simpl.
    destruct (bool_decide _) eqn:E; [done|].
    apply bool_decide_eq_false in E. rewrite lookup_insert_ne; [done|].
    intros <-. apply E. right; left.
Qed.

(** X5: [thread_free] on a thread whose worker has not returned from
    [run_thread].  Called on any other thread, it requests the stop and
    then waits in [pthread_join]: it does not return, and it has released
    nothing, neither the queue nor its items, nor the reactor, nor the
    control block.  Called on the worker's own thread (from a work item),
    its [pthread_join] fails at once, [thread_free] does not look at that,
    and it returns having released the queue with the items in it, the
    reactor and the control block, none of the items run, while the worker
    is still where it was in [run_thread]. *)
Theorem thread_free_waits (caller : nat) (thread : addr) (w : world) (p : pc) :
  thread_ok w thread →
  worker_pc w thread = Some p → p ≠ pc_exited →
  (worker_id w thread ≠ Some caller →
   ∃ w', thread_free caller (Some thread) w = Block w' ∧
         (∃ R, lookup_reactor w thread = Some R ∧
               lookup_reactor w' thread = Some (mk_reactor (registered R) true)) ∧
         dom (heap w') = dom (heap w) ∧
         lookup_thread w' thread = lookup_thread w thread ∧
         pending w' thread = pending w thread ∧
         os_threads w' = os_threads w ∧ trace w' = trace w) ∧
  (worker_id w thread = Some caller →
   ∃ t ra qa Q w',
     lookup_thread w thread = Some t ∧
     reactor t = Some ra ∧ work_queue t = Some qa ∧
     lookup_queue w thread = Some Q ∧
     thread_free caller (Some thread) w = Ret tt w' ∧
     (∀ a, heap w' !! a =
           if bool_decide (a ∈ thread :: ra :: qa :: items Q) then None
           else heap w !! a) ∧
     os_threads w' = os_threads w ∧ os_threads w' !! caller = Some p ∧
     trace w' = trace w).
Proof.
  intros Hok Hpc Hne. split.
  - intros Hcaller.
    destruct (thread_stop_effect thread w Hok)
      as (R & w1 & HR & Hstop & HR1 & _ & Hdom & Hth & Hpend & Hpc1 & Htr & _ & Hok1).
    destruct Hok1 as (t & self & ra & qa & p1 & Q & its & Hinv).
    pose proof Hinv as (Ht & Hp & Hr & Hq & _ & Hos & _).
    destruct (pending_inv _ _ _ _ _ _ _ _ _ Hinv) as (_ & Hid & Hpc').
    assert (p1 = p) as -> by congruence.
    assert (caller ≠ self).
    { intros ->. apply Hcaller. unfold worker_id in *. rewrite <- Hth. done. }
    exists w1. split_and!; eauto.
    + unfold thread_free. rewrite bind_unfold, Hstop.
      unfold thread_free_join, pthread_join, get_pc. mrun. by destruct p; mrun.
    + unfold thread_stop, reactor_stop in Hstop. by minv.
  - intros Hcaller.
    destruct Hok as (t & self & ra & qa & p1 & Q & its & Hinv).
    destruct (queued_inv _ _ _ _ _ _ _ _ _ Hinv) as (_ & Hpc' & HQ).
    destruct (pending_inv _ _ _ _ _ _ _ _ _ Hinv) as (_ & Hid & _).
    assert (p1 = p) as -> by congruence.
    assert (caller = self) as -> by congruence.
    pose proof Hinv as (Ht & Hp & Hr & Hq & _ & Hos & _).
    destruct (thread_free_frees self _ _ _ _ _ _ _ _ _ Hinv)
      as (w' & Hfree & Hheap & Hos' & Htr & _); [by right|].
    assert (os_threads w' = os_threads w) as Hsame by (by destruct p).
    exists t, ra, qa, Q, w'. split_and!; try done.
    + unfold lookup_thread. by rewrite Ht.
    + by rewrite Hsame.
Qed.

(** X6: [thread_free] on a thread whose worker has returned does return,
    and releases exactly the control block, the reactor, the queue and the
    work items still in the queue; every other cell of the heap is as it
    was.  The items left in the queue are released without being run, and
    the OS thread is reclaimed. *)
Theorem thread_free_releases (caller : nat) (thread : addr) (w : world) :
  thread_ok w thread →
  worker_pc w thread = Some pc_exited →
  ∃ t self ra qa Q w',
    lookup_thread w thread = Some t ∧ pthread t = Some self ∧
    reactor t = Some ra ∧ work_queue t = Some qa ∧
    lookup_queue w thread = Some Q ∧
    thread_free caller (Some thread) w = Ret tt w' ∧
    (∀ a, heap w' !! a =
          if bool_decide (a ∈ thread :: ra :: qa :: items Q) then None
          else heap w !! a) ∧
    os_threads w' = delete self (os_threads w) ∧
    executed w' = executed w ∧ syslog w' = syslog w.
Proof.
  intros (t & self & ra & qa & p & Q & its & Hinv) Hpc.
  destruct (queued_inv _ _ _ _ _ _ _ _ _ Hinv) as (_ & Hpc' & HQ').
  assert (p = pc_exited) as -> by congruence.
  pose proof Hinv as (Ht & Hp & Hr & Hq & _).
  destruct (thread_free_frees caller _ _ _ _ _ _ _ _ _ Hinv)
    as (w' & Hfree & Hheap & Hos & Htr & Hlog); [by left|].
  exists t, self, ra, qa, Q, w'. split_and!; try done.
  - unfold lookup_thread. by rewrite Ht.
  - unfold executed. by rewrite Htr.
Qed.

(** ** Registering and unregistering *)

Lemma in_reactor_inv w thread t self ra qa p Q its :
  thread_inv w thread t self ra qa p Q its →
  in_reactor w thread →
  p = pc_loop ∧
  ∃ R, heap w !! ra = Some (ObjReactor R) ∧
       lookup_reactor w thread = Some R ∧
       work_queue_object qa (Z.pos qa) ∈ registered R.
Proof.
  intros Hinv (Hpc & t' & q & R & Ht' & Hq' & HR' & Hin).
  destruct (pending_inv _ _ _ _ _ _ _ _ _ Hinv) as (_ & _ & Hpc').
  pose proof Hinv as (Ht & Hp & Hr & Hq & _).
  split; [congruence|]. exists R.
  unfold lookup_thread in Ht'. rewrite Ht in Ht'. simplify_eq.
  split_and!; try done.
  unfold lookup_reactor, lookup_thread in HR'. rewrite Ht in HR'. simpl in HR'.
  rewrite Hr in HR'. simpl in HR'. by repeat case_match; simplify_eq.
Qed.

Lemma empty_queue_inv w thread t self ra qa Q :
  thread_inv w thread t self ra qa pc_loop Q [] →
  Q = mk_queue WORK_QUEUE_CAPACITY [].
Proof.
  intros (_ & _ & _ & _ & _ & _ & _ & Hcap & _ & Hf & _). simpl in Hf.
  apply Forall2_nil_inv_r in Hf. destruct Q. simpl in *. by subst.
Qed.

(** X9: [thread_register], when its allocations succeed, only queues a
    request: the reactor is as before when it returns.  The registration
    happens when the worker dispatches the request, in
    [register_with_reactor_cb]: the object is then appended to the
    reactor's descriptors, and both the argument block and the work item
    have been freed, so that the heap differs from the one before the call
    in the reactor only. *)
Theorem register_takes_effect (thread : addr) (src : source) (w : world) :
  thread_ok w thread →
  in_reactor w thread →
  pending w thread = [] →
  alloc_fails w (alloc_calls w) = false →
  alloc_fails w (S (alloc_calls w)) = false →
  ∃ R ra w1 w2,
    lookup_reactor w thread = Some R ∧
    thread_get_reactor thread w = Ret (Some ra) w ∧
    thread_register thread (source_object src) w = Ret tt w1 ∧
    lookup_reactor w1 thread = Some R ∧
    step thread act_ready_queue w1 = Ret [] w2 ∧
    lookup_reactor w2 thread =
      Some (mk_reactor (registered R ++ [source_object src]) (stop_requested R)) ∧
    (∀ a, a ≠ ra → heap w2 !! a = heap w !! a) ∧
    pending w2 thread = [] ∧
    ∃ a, executed w2 =
           executed w ++ [mk_work_item fn_register_with_reactor_cb (ctx_register_arg a)].
Proof.
  intros (t & self & ra & qa & p & Q & its & Hinv) Hin Hpend Ha0 Ha1.
  destruct (in_reactor_inv _ _ _ _ _ _ _ _ _ Hinv Hin) as (-> & R & HR & HlR & Hwq).
  destruct (pending_inv _ _ _ _ _ _ _ _ _ Hinv) as (Hp' & _).
  assert (its = []) as -> by congruence.
  pose proof (empty_queue_inv _ _ _ _ _ _ _ Hinv) as ->.
  pose proof Hinv as (Ht & Hp & Hr & Hq & _ & Hos & HQ & _).
  exists R, ra.
  assert (ra ≠ qa ∧ thread ≠ qa ∧ thread ≠ ra) as (? & ? & ?) by (split_and!; congruence).
  unfold thread_register, malloc. rewrite bind_unfold.
  do_alloc Ha0. mrun.
  unfold thread_post, malloc. rewrite bind_unfold. do_alloc Ha1. mrun.
  eexists _, _. split; [done|]. split; [by rewrite Hr|]. split; [reflexivity|].
  split.
  { unfold lookup_reactor, lookup_thread. simpl. mrun. by rewrite Hr; simpl; mrun. }
  unfold step, worker_step, reactor_dispatch, work_queue_read_cb, call,
    register_with_reactor_cb.
  mrun.
  split; [reflexivity|]. split_and!.
  - unfold lookup_reactor, lookup_thread. simpl. mrun. by rewrite Hr; simpl; mrun.
  - intros a1 Hne1. simpl. rewrite !lookup_delete, !lookup_insert.
    repeat case_decide; simplify_eq; congruence.
  - unfold pending, worker_pc, queued, lookup_queue, lookup_thread. simpl. mrun.
    rewrite Hp. simpl. rewrite Hos. simpl. rewrite Hq. simpl. by mrun.
  - exists a. unfold executed. simpl. by rewrite omap_app.
Qed.

(** X10: [thread_unregister], when its allocations succeed, queues a
    request and waits on its semaphore: without a step of the worker it
    does not return (called as a whole, for instance from the worker's own
    thread, it blocks).  Once the worker has dispatched the request, in
    [unregister_with_reactor_cb], the wait returns; the object is no
    longer among the reactor's descriptors, the worker's queue still is,
    and semaphore and work item have been released. *)
Theorem unregister_waits_for_worker (thread : addr) (src : source) (w : world) :
  thread_ok w thread →
  in_reactor w thread →
  pending w thread = [] →
  alloc_fails w (alloc_calls w) = false →
  alloc_fails w (S (alloc_calls w)) = false →
  ∃ R ra s w1 w2 w3,
    lookup_reactor w thread = Some R ∧
    thread_get_reactor thread w = Ret (Some ra) w ∧
    thread_unregister_request thread (source_object src) w = Ret (Some s) w1 ∧
    thread_unregister_wait s w1 = Block w1 ∧
    thread_unregister thread (source_object src) w = Block w1 ∧
    step thread act_ready_queue w1 = Ret [] w2 ∧
    thread_unregister_wait s w2 = Ret tt w3 ∧
    lookup_reactor w3 thread =
      Some (mk_reactor (filter (λ o, o ≠ source_object src) (registered R))
                       (stop_requested R)) ∧
    (∀ a, a ≠ ra → heap w3 !! a = heap w !! a) ∧
    in_reactor w3 thread ∧
    pending w3 thread = [] ∧
    executed w3 =
      executed w ++ [mk_work_item fn_unregister_with_reactor_cb
                       (ctx_unregister_arg thread (source_object src) s)].
Proof.
  intros (t & self & ra & qa & p & Q & its & Hinv) Hin Hpend Ha0 Ha1.
  destruct (in_reactor_inv _ _ _ _ _ _ _ _ _ Hinv Hin) as (-> & R & HR & HlR & Hwq).
  destruct (pending_inv _ _ _ _ _ _ _ _ _ Hinv) as (Hp' & _).
  assert (its = []) as -> by congruence.
  pose proof (empty_queue_inv _ _ _ _ _ _ _ Hinv) as ->.
  pose proof Hinv as (Ht & Hp & Hr & Hq & _ & Hos & HQ & _).
  exists R, ra.
  assert (ra ≠ qa ∧ thread ≠ qa ∧ thread ≠ ra) as (? & ? & ?) by (split_and!; congruence).
  unfold thread_unregister, thread_unregister_request, thread_unregister_wait,
    semaphore_new.
  rewrite !bind_unfold.
  do_alloc Ha0. mrun.
  unfold thread_post, malloc. rewrite !bind_unfold. do_alloc Ha1. mrun.
  exists a. eexists _, _, _. split; [done|]. split; [by rewrite Hr|].
  split; [reflexivity|]. split; [by mrun|]. split; [reflexivity|].
  unfold step, worker_step, reactor_dispatch, work_queue_read_cb, call,
    unregister_with_reactor_cb.
  mrun. split; [reflexivity|]. mrun. split; [reflexivity|].
  assert (Hl : ∀ h, lookup_reactor
    (mk_world h (os_threads w) (alloc_fails w) (S (S (alloc_calls w))) (prctl_errno w)
       (prctl_calls w) (errno w) (syslog w)
       (trace w ++ [ev_item self fn_unregister_with_reactor_cb
                      (ctx_unregister_arg thread (source_object src) a)])
       (pthread_create_errno w) (pthread_create_calls w)) thread =
    match h !! thread with
    | Some (ObjThread t) =>
        r ← reactor t; match h !! r with Some (ObjReactor R) => Some R | _ => None end
    | _ => None
    end).
  { intros h. unfold lookup_reactor, lookup_thread. simpl. by repeat case_match. }
  split_and!.
  - rewrite Hl. mrun. by rewrite Hr; simpl; mrun.
  - intros a1 Hne1. simpl.
    repeat first [rewrite lookup_delete | rewrite lookup_insert | case_decide];
      simplify_eq; congruence.
  - split.
    + unfold worker_pc, lookup_thread. simpl. mrun. rewrite Hp. simpl. done.
    + eexists t, qa, _. split_and!.
      * unfold lookup_thread. simpl. by mrun.
      * done.
      * rewrite Hl. mrun. by rewrite Hr; simpl; mrun.
      * simpl. apply list_elem_of_filter. split; [|done].
        unfold work_queue_object, source_object. congruence.
  - unfold pending, worker_pc, queued, lookup_queue, lookup_thread. simpl. mrun.
    rewrite Hp. simpl. rewrite Hos. simpl. rewrite Hq. simpl. by mrun.
  - unfold executed. simpl. by rewrite omap_app.
Qed.

(** ** The drain loop and [work_queue_read_cb] *)

(** X7: when the drain loop of [run_thread] stops on its count (more than
    [WORK_QUEUE_CAPACITY] items run) with an item already taken from the
    queue, that item is neither run nor freed: the worker logs that the
    queue is growing and returns, and after [thread_free] the item is
    still allocated, out of reach. *)
Theorem drain_overflow_leaks (caller : nat) (thread : addr) (w : world)
    (it : addr) (n : nat) :
  thread_ok w thread →
  worker_pc w thread = Some (pc_drain (Some it) n) →
  WORK_QUEUE_CAPACITY < n →
  ∃ i w1 w2,
    lookup_item w it = Some i ∧
    step thread act_drain w = Ret [] w1 ∧
    worker_pc w1 thread = Some pc_exited ∧
    heap w1 = heap w ∧
    trace w1 = trace w ∧
    syslog w1 = syslog w ++ [log_growing_queue] ∧
    thread_free caller (Some thread) w1 = Ret tt w2 ∧
    lookup_item w2 it = Some i ∧
    lookup_thread w2 thread = None ∧
    trace w2 = trace w.
Proof.
  intros (t & self & ra & qa & p & Q & its & Hinv) Hpc Hn.
  destruct (pending_inv _ _ _ _ _ _ _ _ _ Hinv) as (_ & _ & Hpc').
  assert (p = pc_drain (Some it) n) as -> by congruence.
  pose proof Hinv as (Ht & Hp & Hr & Hq & (R & HR) & Hos & HQ & _ & _ & Hf & Hnd).
  simpl in Hf, Hnd.
  apply list.NoDup_cons in Hnd as [Hit Hnd].
  destruct its as [|i its]; [by apply Forall2_nil_inv_r in Hf|].
  apply Forall2_cons_1 in Hf as [Hi Hf].
  set (w1 := add_log log_growing_queue
               (set_os_threads (<[self := pc_exited]> (os_threads w)) w)).
  assert (Hstep : step thread act_drain w = Ret [] w1).
  { unfold step, worker_step, run_thread_drain. by mrun. }
  assert (Hinv1 : thread_inv w1 thread t self ra qa pc_exited Q its).
  { apply (thread_inv_exit w w1 _ _ _ _ _ _ _ _ Hinv); [done|].
    subst w1. simpl. by rewrite lookup_insert_eq. }
  destruct (thread_free_frees caller _ _ _ _ _ _ _ _ _ Hinv1)
    as (w2 & Hfree & Hheap & _ & Htr2 & _); [by left|].
  exists i, w1, w2. split_and!; try done.
  - unfold lookup_item. by rewrite Hi.
  - destruct (pending_inv _ _ _ _ _ _ _ _ _ Hinv1) as (_ & _ & ->). done.
  - unfold lookup_item. rewrite Hheap. rewrite bool_decide_eq_false_2.
    + simpl. by rewrite Hi.
    + rewrite !elem_of_cons. intros [->|[->|[->|?]]]; congruence.
  - unfold lookup_thread. rewrite Hheap. rewrite bool_decide_eq_true_2; [done|left].
Qed.

(** X8: one call of [work_queue_read_cb] by the reactor.  On an empty
    queue it blocks in [fixed_queue_dequeue].  Otherwise it takes the
    oldest item only, runs it if it is a caller's function, and frees it:
    exactly that cell leaves the heap, the other items stay pending in
    order, and the queue stays registered with the reactor. *)
Theorem work_queue_read_cb_spec (thread : addr) (w : world) :
  thread_ok w thread →
  in_reactor w thread →
  match pending w thread with
  | [] => step thread act_ready_queue w = Block w
  | i :: its =>
      is_user_item i →
      ∃ a w',
        lookup_item w a = Some i ∧
        step thread act_ready_queue w = Ret [] w' ∧
        executed w' = executed w ++ [i] ∧
        pending w' thread = its ∧
        dom (heap w') = dom (heap w) ∖ {[a]} ∧
        in_reactor w' thread ∧ thread_ok w' thread
  end.
Proof.
  intros (t & self & ra & qa & p & Q & its & Hinv) Hin.
  destruct (in_reactor_inv _ _ _ _ _ _ _ _ _ Hinv Hin) as (-> & R & HR & HlR & Hwq).
  destruct (pending_inv _ _ _ _ _ _ _ _ _ Hinv) as (-> & _).
  pose proof Hinv as (Ht & Hp & Hr & Hq & _ & Hos & HQ & Hcap & Hlen & Hf & Hnd).
  simpl in Hf, Hnd.
  assert (ra ≠ qa ∧ thread ≠ qa ∧ thread ≠ ra) as (? & ? & ?) by (split_and!; congruence).
  destruct its as [|i its].
  - apply Forall2_nil_inv_r in Hf.
    unfold step, worker_step, reactor_dispatch, work_queue_read_cb. mrun.
    rewrite Hf. by mrun.
  - intros Hu. destruct Q as [cap [|a l]]; [by apply Forall2_nil_inv_l in Hf|].
    simpl in *. apply Forall2_cons_1 in Hf as [Hi Hf].
    apply list.NoDup_cons in Hnd as [Ha Hnd].
    destruct i as [f c]. destruct f as [id| |]; try done.
    exists a. eexists. split; [unfold lookup_item; by rewrite Hi|].
    unfold step, worker_step, reactor_dispatch, work_queue_read_cb, call. mrun.
    assert (a ≠ qa ∧ a ≠ ra ∧ a ≠ thread) as (? & ? & ?) by (split_and!; congruence).
    mrun. split; [reflexivity|].
    match goal with |- context [pending ?w1 thread] =>
      assert (Hinv' : thread_inv w1 thread t self ra qa pc_loop (mk_queue cap l) its)
    end.
    { eapply (thread_inv_consume w _ _ _ _ _ _ pc_loop pc_loop _ (mk_queue cap l) a);
        [exact Hinv|done|done| |simpl; by mrun|simpl; mrun; eauto|done].
      intros b o Hb _ ? ?. simpl. by mrun. }
    split_and!.
    + unfold executed. simpl. by rewrite omap_app.
    + by destruct (pending_inv _ _ _ _ _ _ _ _ _ Hinv') as (-> & _).
    + simpl. rewrite dom_delete_L, dom_insert_lookup_L; [done|eauto].
    + split.
      * by destruct (pending_inv _ _ _ _ _ _ _ _ _ Hinv') as (_ & _ & ->).
      * exists t, qa, R. split_and!; try done.
        -- unfold lookup_thread. simpl. by mrun.
        -- unfold lookup_reactor, lookup_thread. simpl. mrun. rewrite Hr. simpl. by mrun.
    + by do 7 eexists.
Qed.

(** ** Every cell accounted for *)

Lemma accounted_same D w w' :
  (∀ a, a ∉ D → heap w' !! a = heap w !! a) → accounted D D w w'.
Proof.
  intros Hh. split; [|done].
  intros a Ha. rewrite bool_decide_eq_false_2 by done. by apply Hh.
Qed.

Lemma accounted_trans D1 D2 D3 w1 w2 w3 :
  accounted D1 D2 w1 w2 → accounted D2 D3 w2 w3 → accounted D1 D3 w1 w3.
Proof.
  intros [H1 F1] [H2 F2]. split.
  - intros a Ha. rewrite (H2 a Ha).
    destruct (bool_decide (a ∈ D2)) eqn:E2.
    + apply bool_decide_eq_true in E2.
      destruct (bool_decide (a ∈ D1)) eqn:E1; [done|].
      apply bool_decide_eq_false in E1. symmetry. by apply F1.
    + apply bool_decide_eq_false in E2. by apply H1.
  - intros a Ha3 Ha1. destruct (decide (a ∈ D2)) as [Ha2|Ha2]; [by apply F1|].
    pose proof (F2 a Ha3 Ha2) as Hn.
    rewrite (H1 a Ha2), bool_decide_eq_false_2 in Hn by done. done.
Qed.

Lemma thread_cells_inv w thread t self ra qa p Q its :
  thread_inv w thread t self ra qa p Q its →
  thread_cells w thread = thread :: ra :: qa :: cur_item p ++ items Q.
Proof.
  intros Hinv.
  destruct (queued_inv _ _ _ _ _ _ _ _ _ Hinv) as (_ & Hpc & HQ).
  destruct Hinv as (Ht & Hp & Hr & Hq & _).
  unfold thread_cells, lookup_thread. rewrite Ht.
  fold (lookup_thread w thread). rewrite Hpc, HQ, Hr, Hq. done.
Qed.

Lemma astep_user self a ps v v' :
  astep self a ps v v' → lifecycle_action a →
  Forall is_user_item (v_pending v) → Forall is_user_item (v_pending v').
Proof.
  destruct 1; simpl; try done; intros _ Hu.
  - apply Forall_app. split; [done|]. by repeat constructor.
  - by apply list.Forall_cons in Hu as [_ ?].
  - by apply list.Forall_cons in Hu as [_ ?].
  - by apply Forall_drop.
Qed.

Ltac read_state Hinv' :=
  let Hos' := fresh "Hos'" in
  let HQ' := fresh "HQ'" in
  pose proof Hinv' as (_ & _ & _ & _ & _ & Hos' & HQ' & _);
  simpl in Hos', HQ';
  repeat first
    [ rewrite lookup_insert_eq in Hos' | rewrite lookup_insert_eq in HQ'
    | rewrite lookup_insert_ne in HQ' by congruence
    | rewrite lookup_delete_ne in HQ' by congruence ].

Ltac list_mem := set_solver.

Lemma step_account thread t self ra qa p Q its a w ps w' :
  thread_inv w thread t self ra qa p Q its →
  Forall is_user_item its →
  lifecycle_action a →
  step thread a w = Ret ps w' →
  ∃ p' Q' its' l,
    thread_inv w' thread t self ra qa p' Q' its' ∧
    Forall is_user_item its' ∧
    syslog w' = syslog w ++ l ∧
    os_threads w' = <[self := p']> (os_threads w) ∧
    (log_growing_queue ∉ l →
       accounted (thread :: ra :: qa :: cur_item p ++ items Q)
                 (thread :: ra :: qa :: cur_item p' ++ items Q') w w').
Proof.
  intros Hinv Hu Hact H.
  destruct (thread_inv_view _ _ _ _ _ _ _ _ _ Hinv) as [stop Hv].
  destruct (step_view _ _ _ _ _ _ _ _ _ _ _ Hv H) as (v' & Hv' & Ha & _);
    [by destruct a|].
  pose proof (astep_user _ _ _ _ _ Ha Hact Hu) as Hu'.
  destruct v' as [p' its' tr' lg']. destruct Hv' as ([Q' Hinv'] & _).
  simpl in Hu', Hinv'. clear Hv Ha.
  exists p', Q', its'.
  pose proof Hinv as (Ht & Hp & Hr & Hq & (R & HR) & Hos & HQ & Hcap & Hlen & Hits & Hnd).
  assert (ra ≠ qa ∧ thread ≠ qa ∧ thread ≠ ra) as (? & ? & ?) by (split_and!; congruence).
  destruct a; try done.
  - (* thread_post *)
    unfold step in H. apply bind_Ret in H as (b & w1 & H & Hret).
    injection Hret as <- <-.
    destruct (alloc_fails w (alloc_calls w)) eqn:Hal.
    + rewrite thread_post_fail in H by done. injection H as <- <-.
      read_state Hinv'. simplify_eq.
      exists [log_post_alloc_failed]. split_and!; try done.
      * simpl. by rewrite insert_id.
      * intros _. by apply accounted_same.
    + destruct (decide (length (items Q) < capacity Q)) as [Hroom|Hfull].
      2:{ destruct (thread_post_full thread (fn_user id) c _ _ _ _ _ _ _ _ Hinv Hal Hfull)
            as [wb Hb]. congruence. }
      destruct (thread_post_ok thread (fn_user id) c _ _ _ _ _ _ _ _ Hinv Hal Hroom)
        as (i & w2 & Hi & Hpost & Hh & Hos2 & _ & Hlog2 & _).
      rewrite Hpost in H. injection H as <- <-.
      read_state Hinv'. rewrite Hh, lookup_insert_eq in HQ'. rewrite Hos2 in Hos'.
      simplify_eq.
      exists []. split_and!; try done.
      * by rewrite app_nil_r.
      * by rewrite Hos2, insert_id.
      * intros _. simpl. split.
        -- intros a Ha'. rewrite Hh.
           rewrite !lookup_insert_ne by (intros ->; apply Ha'; list_mem).
           rewrite bool_decide_eq_false_2; [done|]. intros Hin. apply Ha'. list_mem.
        -- intros a Ha' Hna.
           assert (a = i) as -> by list_mem. done.
  - (* thread_stop *)
    unfold step, thread_stop in H. minv. read_state Hinv'. simplify_eq.
    exists []. split_and!; try done.
    + by rewrite app_nil_r.
    + simpl. by rewrite insert_id.
    + intros _. apply accounted_same. intros a0 Hna. simpl.
      rewrite lookup_insert_ne by set_solver. done.
  - (* into the reactor *)
    unfold step, worker_step, run_thread_enter in H. minv. read_state Hinv'.
    simplify_eq.
    exists []. split_and!; try done.
    + by rewrite app_nil_r.
    + intros _. apply accounted_same. intros a0 Hna. simpl.
      rewrite lookup_insert_ne by set_solver. done.
  - (* work_queue_read_cb *)
    unfold step, worker_step, reactor_dispatch, work_queue_read_cb in H. minv.
    all: simplify_eq.
    destruct its as [|i its0]; [by apply Forall2_cons_nil_inv in Hits|].
    apply Forall2_cons_1 in Hits as [Hx Hits].
    apply list.Forall_cons in Hu as [Hui Hu].
    apply list.NoDup_cons in Hnd as [Hnx Hnd].
    assert (a0 ≠ qa ∧ a0 ≠ ra ∧ a0 ≠ thread) as (? & ? & ?) by (split_and!; congruence).
    match goal with
    | H : <[_:=_]> _ !! a0 = Some (ObjWorkItem ?j) |- _ =>
        rewrite lookup_insert_ne in H by congruence; rewrite Hx in H; injection H as <-
    end.
    destruct i as [[id| |] c]; try done. simpl in *.
    match goal with
    | H : call _ _ _ _ = Ret _ _ |- _ => rewrite call_user in H; injection H as <- <-
    end.
    simpl in *. read_state Hinv'. simplify_eq.
    exists []. split_and!; try done.
    + by rewrite app_nil_r.
    + by rewrite insert_id.
    + intros _. simpl. split.
      * intros b Hb. simpl. destruct (decide (b = a0)) as [->|Hne].
        -- rewrite lookup_delete_eq, bool_decide_eq_true_2; [done|set_solver].
        -- rewrite lookup_delete_ne, lookup_insert_ne by set_solver.
           rewrite bool_decide_eq_false_2; [done|set_solver].
      * intros b Hb Hnb. set_solver.
  - (* out of the reactor *)
    unfold step, worker_step, run_thread_leave_reactor in H. minv.
    all: read_state Hinv'; simplify_eq.
    + exists []. split_and!; try done; [by rewrite app_nil_r|].
      intros _. simpl.
      try match goal with H : items Q = _ |- _ => rewrite H end.
      by apply accounted_same.
    + exists []. split_and!; try done; [by rewrite app_nil_r|].
      intros _. simpl.
      try match goal with H : items Q = _ |- _ => rewrite H end.
      apply accounted_same. intros b Hb. simpl.
      rewrite lookup_insert_ne by set_solver. done.
  - (* the drain loop *)
    unfold step, worker_step in H. minv.
    match goal with
    | H : run_thread_drain _ _ ?it ?n _ = _ |- _ =>
        rename H into Hd; rename n into count; destruct it as [x|]
    end; simpl in *.
    + unfold run_thread_drain in Hd.
      destruct (decide (count ≤ WORK_QUEUE_CAPACITY)) as [Hle|Hgt].
      * destruct its as [|i its0]; [by apply Forall2_cons_nil_inv in Hits|].
        apply Forall2_cons_1 in Hits as [Hx Hits].
        apply list.Forall_cons in Hu as [Hui Hu].
        apply list.NoDup_cons in Hnd as [Hnx Hnd].
        assert (x ≠ qa ∧ x ≠ ra ∧ x ≠ thread) as (? & ? & ?)
          by (split_and!; congruence).
        apply bind_Ret in Hd as (i' & w0 & Hld & Hd).
        unfold load_work_item in Hld. rewrite Hx in Hld. injection Hld as <- <-.
        destruct i as [[id| |] c]; try done. simpl in *.
        apply bind_Ret in Hd as (u & w1 & Hcall & Hd).
        rewrite call_user in Hcall. injection Hcall as <- <-.
        minv.
        -- read_state Hinv'. simplify_eq.
           exists []. split_and!; try done; [by rewrite app_nil_r|].
           intros _. simpl.
           try match goal with H : items Q = _ |- _ => rewrite H end.
           split; [|intros b Hb Hnb; set_solver].
           intros b Hb. simpl. destruct (decide (b = x)) as [->|Hne].
           ++ rewrite lookup_delete_eq, bool_decide_eq_true_2; [done|set_solver].
           ++ rewrite lookup_delete_ne by done.
              rewrite bool_decide_eq_false_2; [done|set_solver].
        -- read_state Hinv'. simplify_eq.
           exists []. split_and!; try done; [by rewrite app_nil_r|].
           intros _. simpl.
           split; [|intros b Hb Hnb; set_solver].
           intros b Hb. simpl. destruct (decide (b = x)) as [->|Hne].
           ++ rewrite lookup_insert_ne by congruence.
              rewrite lookup_delete_eq, bool_decide_eq_true_2; [done|set_solver].
           ++ rewrite lookup_insert_ne by set_solver.
              rewrite lookup_delete_ne by done.
              rewrite bool_decide_eq_false_2; [done|set_solver].
      * minv; [|lia]. read_state Hinv'. simplify_eq.
        exists [log_growing_queue]. split_and!; try done.
        intros Hng. exfalso. apply Hng. left.
    + unfold run_thread_drain in Hd. minv.
      all: read_state Hinv'; simplify_eq.
      * exists [log_growing_queue]. split_and!; try done.
        intros Hng. exfalso. apply Hng. left.
      * exists []. split_and!; try done; [by rewrite app_nil_r|].
        intros _. by apply accounted_same.
Qed.

Lemma run_cons thread a sched w :
  run thread (a :: sched) w =
  (ps ← step thread a; qs ← run thread sched; mret (ps ++ qs)) w.
Proof. reflexivity. Qed.

Lemma run_account thread t self ra qa sched : ∀ p Q its w ps w',
  thread_inv w thread t self ra qa p Q its →
  Forall is_user_item its →
  Forall lifecycle_action sched →
  run thread sched w = Ret ps w' →
  ∃ p' Q' its' l,
    thread_inv w' thread t self ra qa p' Q' its' ∧
    Forall is_user_item its' ∧
    syslog w' = syslog w ++ l ∧
    os_threads w' = <[self := p']> (os_threads w) ∧
    (log_growing_queue ∉ l →
       accounted (thread :: ra :: qa :: cur_item p ++ items Q)
                 (thread :: ra :: qa :: cur_item p' ++ items Q') w w').
Proof.
  induction sched as [|a sched IH]; intros p Q its w ps w' Hinv Hu Hs H.
  - injection H as <- <-. exists p, Q, its, []. split_and!; try done.
    + by rewrite app_nil_r.
    + destruct Hinv as (_ & _ & _ & _ & _ & Hos & _). by rewrite insert_id.
    + intros _. by apply accounted_same.
  - rewrite run_cons in H. apply bind_Ret in H as (ps1 & w1 & Hstep & H).
    apply bind_Ret in H as (ps2 & w2 & Hrun & H). injection H as <- <-.
    apply list.Forall_cons in Hs as [Ha Hs].
    destruct (step_account _ _ _ _ _ _ _ _ _ _ _ _ Hinv Hu Ha Hstep)
      as (p1 & Q1 & its1 & l1 & Hinv1 & Hu1 & Hl1 & Hos1 & Hacc1).
    destruct (IH _ _ _ _ _ _ Hinv1 Hu1 Hs Hrun)
      as (p2 & Q2 & its2 & l2 & Hinv2 & Hu2 & Hl2 & Hos2 & Hacc2).
    exists p2, Q2, its2, (l1 ++ l2). split_and!; try done.
    + by rewrite Hl2, Hl1, app_assoc.
    + by rewrite Hos2, Hos1, insert_insert_eq.
    + intros Hng. eapply accounted_trans; [apply Hacc1|apply Hacc2]; set_solver.
Qed.

(** X12: posting callers' functions, stopping, and the worker's steps
    keep the books of the heap, as long as the drain loop has not logged a
    growing queue: a cell the thread does not hold at the end is as it was
    at the start, or has been freed if the thread held it then, and what
    the thread holds at the end and did not hold at the start did not
    exist then.  So every work item that has been run has been freed, and
    nothing else has been touched. *)
Theorem lifecycle_keeps_account (thread : addr) (sched : list action)
    (w : world) (ps : list work_item_t) (w' : world) :
  thread_ok w thread →
  Forall is_user_item (pending w thread) →
  Forall lifecycle_action sched →
  run thread sched w = Ret ps w' →
  log_growing_queue ∉ syslog w' →
  accounted (thread_cells w thread) (thread_cells w' thread) w w'.
Proof.
  intros (t & self & ra & qa & p & Q & its & Hinv) Hu Hs Hrun Hng.
  destruct (pending_inv _ _ _ _ _ _ _ _ _ Hinv) as (Hp & _). rewrite Hp in Hu.
  destruct (run_account _ _ _ _ _ _ _ _ _ _ _ _ Hinv Hu Hs Hrun)
    as (p' & Q' & its' & l & Hinv' & _ & Hl & _ & Hacc).
  rewrite (thread_cells_inv _ _ _ _ _ _ _ _ _ Hinv),
    (thread_cells_inv _ _ _ _ _ _ _ _ _ Hinv').
  apply Hacc. intros Hin. apply Hng. rewrite Hl. set_solver.
Qed.

Section thread_new_free.
Variable THREAD_NAME_MAX : nat.

(** X13: [thread_new] then [thread_free], with any posting of callers'
    functions, stop requests and worker steps in between that bring the
    worker to its end without the growing-queue diagnostic, leave the heap
    and the set of OS threads exactly as they were before [thread_new];
    [thread_free] itself runs no callback. *)
Theorem thread_new_free_no_leak (caller : nat) (nm : list byte) (w : world)
    (r : addr) (w1 : world) (sched : list action) (ps : list work_item_t)
    (w2 : world) :
  thread_new THREAD_NAME_MAX nm w = Ret (Some r) w1 →
  Forall lifecycle_action sched →
  run r sched w1 = Ret ps w2 →
  worker_pc w2 r = Some pc_exited →
  log_growing_queue ∉ syslog w2 →
  ∃ w3, thread_free caller (Some r) w2 = Ret tt w3 ∧
        heap w3 = heap w ∧ os_threads w3 = os_threads w ∧
        trace w3 = trace w2.
Proof.
  intros Hnew Hs Hrun Hpc Hng.
  destruct (thread_new_Some THREAD_NAME_MAX _ _ _ _ Hnew)
    as ((t & self & ra & qa & Hinv & _ & _ & Hfr & Hfra & Hfqa & Hh1 & Hfos & Hos1) & _).
  destruct (run_account _ _ _ _ _ _ _ _ _ _ _ _ Hinv (Forall_nil_2 _) Hs Hrun)
    as (p' & Q' & its' & l & Hinv2 & _ & Hl & Hos2 & Hacc).
  destruct (pending_inv _ _ _ _ _ _ _ _ _ Hinv2) as (_ & _ & Hpc2).
  assert (p' = pc_exited) as -> by congruence.
  destruct Hacc as [Hkeep Hfresh]; [intros Hin; apply Hng; rewrite Hl; set_solver|].
  destruct (thread_free_frees caller _ _ _ _ _ _ _ _ _ Hinv2)
    as (w3 & Hfree & Hheap & Hos3 & Htr3 & _); [by left|].
  exists w3. split_and!.
  - done.
  - apply map_eq. intros a. rewrite Hheap. simpl in *.
    destruct (bool_decide (a ∈ r :: ra :: qa :: items Q')) eqn:E.
    + apply bool_decide_eq_true in E.
      destruct (decide (a ∈ [r; ra; qa])) as [Ho|Ho].
      * symmetry. set_solver.
      * pose proof (Hfresh a E Ho) as Hn.
        rewrite Hh1, !lookup_insert_ne in Hn by set_solver. done.
    + apply bool_decide_eq_false in E.
      rewrite (Hkeep a E), bool_decide_eq_false_2 by set_solver.
      rewrite Hh1. rewrite !lookup_insert_ne by set_solver. done.
  - rewrite Hos3. simpl. rewrite Hos2, Hos1, insert_insert_eq, delete_insert_eq.
    by apply delete_id.
  - done.
Qed.
End thread_new_free.

(** ** A wait that never ends *)

Ltac keep_cell :=
  simpl;
  repeat first [ rewrite lookup_insert_ne by congruence
               | rewrite lookup_delete_ne by congruence ];
  done.

Lemma step_keeps_sem thread t self ra qa p Q its a w ps w' s n :
  thread_inv w thread t self ra qa p Q its →
  Forall is_user_item its →
  lifecycle_action a →
  step thread a w = Ret ps w' →
  heap w !! s = Some (ObjSem n) →
  heap w' !! s = Some (ObjSem n).
Proof.
  intros Hinv Hu Hact H Hs.
  pose proof Hinv as (Ht & Hp & Hr & Hq & (R & HR) & Hos & HQ & Hcap & Hlen & Hits & Hnd).
  destruct a; try done.
  - unfold step in H. apply bind_Ret in H as (b & w1 & H & Hret).
    injection Hret as <- <-.
    destruct (alloc_fails w (alloc_calls w)) eqn:Hal.
    + rewrite thread_post_fail in H by done. by injection H as <- <-.
    + destruct (decide (length (items Q) < capacity Q)) as [Hroom|Hfull].
      2:{ destruct (thread_post_full thread (fn_user id) c _ _ _ _ _ _ _ _ Hinv Hal Hfull)
            as [wb Hb]. congruence. }
      destruct (thread_post_ok thread (fn_user id) c _ _ _ _ _ _ _ _ Hinv Hal Hroom)
        as (i & w2 & Hi & Hpost & Hh & _).
      rewrite Hpost in H. injection H as <- <-. rewrite Hh. keep_cell.
  - unfold step, thread_stop in H. minv. keep_cell.
  - unfold step, worker_step, run_thread_enter in H. minv. keep_cell.
  - unfold step, worker_step, reactor_dispatch, work_queue_read_cb in H. minv.
    all: simplify_eq.
    destruct its as [|i its0]; [by apply Forall2_cons_nil_inv in Hits|].
    apply Forall2_cons_1 in Hits as [Hx Hits].
    apply list.Forall_cons in Hu as [Hui Hu].
    match goal with
    | H : <[_:=_]> _ !! ?a0 = Some (ObjWorkItem ?j) |- _ =>
        rewrite lookup_insert_ne in H by congruence; rewrite Hx in H; injection H as <-
    end.
    destruct i as [[id| |] c]; try done. simpl in *.
    match goal with
    | H : call _ _ _ _ = Ret _ _ |- _ => rewrite call_user in H; injection H as <- <-
    end.
    keep_cell.
  - unfold step, worker_step, run_thread_leave_reactor in H. minv; keep_cell.
  - unfold step, worker_step in H. minv.
    match goal with
    | H : run_thread_drain _ _ ?it ?n _ = _ |- _ =>
        rename H into Hd; destruct it as [x|]
    end; simpl in *.
    + unfold run_thread_drain in Hd. destruct (decide _) as [Hle|Hgt] in Hd.
      * destruct its as [|i its0]; [by apply Forall2_cons_nil_inv in Hits|].
        apply Forall2_cons_1 in Hits as [Hx Hits].
        apply list.Forall_cons in Hu as [Hui Hu].
        apply bind_Ret in Hd as (i' & w0 & Hld & Hd).
        unfold load_work_item in Hld. rewrite Hx in Hld. injection Hld as <- <-.
        destruct i as [[id| |] c]; try done. simpl in *.
        apply bind_Ret in Hd as (u & w1 & Hcall & Hd).
        rewrite call_user in Hcall. injection Hcall as <- <-.
        minv; keep_cell.
      * minv; keep_cell.
    + unfold run_thread_drain in Hd. minv; keep_cell.
Qed.

Lemma run_keeps_sem thread t self ra qa sched s n : ∀ p Q its w ps w',
  thread_inv w thread t self ra qa p Q its →
  Forall is_user_item its →
  Forall lifecycle_action sched →
  run thread sched w = Ret ps w' →
  heap w !! s = Some (ObjSem n) →
  heap w' !! s = Some (ObjSem n).
Proof.
  induction sched as [|a sched IH]; intros p Q its w ps w' Hinv Hu Hs H Hsem.
  - by injection H as <- <-.
  - rewrite run_cons in H. apply bind_Ret in H as (ps1 & w1 & Hstep & H).
    apply bind_Ret in H as (ps2 & w2 & Hrun & H). injection H as <- <-.
    apply list.Forall_cons in Hs as [Ha Hs].
    destruct (step_account _ _ _ _ _ _ _ _ _ _ _ _ Hinv Hu Ha Hstep)
      as (p1 & Q1 & its1 & l1 & Hinv1 & Hu1 & _).
    apply (IH _ _ _ _ _ _ Hinv1 Hu1 Hs Hrun).
    exact (step_keeps_sem _ _ _ _ _ _ _ _ _ _ _ _ _ _ Hinv Hu Ha Hstep Hsem).
Qed.

(** X11: [thread_unregister] does not look at what [thread_post] returns.
    When the semaphore is allocated and the allocation of the work item
    fails, no request is queued, and the caller waits on a semaphore that
    nothing will ever post: whatever is posted, and however far the worker
    goes on with its callers' items, the wait still blocks. *)
Theorem unregister_post_failure_deadlocks (thread : addr) (obj : reactor_object_t)
    (w : world) :
  thread_ok w thread →
  Forall is_user_item (pending w thread) →
  alloc_fails w (alloc_calls w) = false →
  alloc_fails w (S (alloc_calls w)) = true →
  ∃ s w1,
    thread_unregister_request thread obj w = Ret (Some s) w1 ∧
    thread_unregister thread obj w = Block w1 ∧
    pending w1 thread = pending w thread ∧
    lookup_reactor w1 thread = lookup_reactor w thread ∧
    syslog w1 = syslog w ++ [log_post_alloc_failed] ∧
    ∀ sched ps w2,
      Forall lifecycle_action sched →
      run thread sched w1 = Ret ps w2 →
      thread_unregister_wait s w2 = Block w2.
Proof.
  intros (t & self & ra & qa & p & Q & its & Hinv) Hu Ha0 Ha1.
  destruct (pending_inv _ _ _ _ _ _ _ _ _ Hinv) as (Hpend & _). rewrite Hpend in Hu.
  pose proof Hinv as (Ht & Hp & Hr & Hq & (R & HR) & Hos & HQ & _).
  unfold thread_unregister, thread_unregister_request, semaphore_new.
  rewrite !bind_unfold. do_alloc Ha0. simpl.
  rewrite !bind_unfold, thread_post_fail by done. simpl.
  set (w1 := mk_world _ _ _ _ _ _ _ _ _ _ _).
  assert (Hinv1 : thread_inv w1 thread t self ra qa p Q its).
  { eapply thread_inv_stable; eauto; subst w1; simpl.
    - intros b o Hb _. rewrite lookup_insert_ne by congruence. done.
    - rewrite lookup_insert_ne by congruence. eauto. }
  assert (Hsem : heap w1 !! a = Some (ObjSem 0)) by (subst w1; simpl; by mrun).
  exists a, w1. split_and!; try done.
  - unfold thread_unregister_wait, semaphore_wait. rewrite !bind_unfold.
    unfold load_sem. by rewrite Hsem.
  - by destruct (pending_inv _ _ _ _ _ _ _ _ _ Hinv1) as (-> & _).
  - unfold lookup_reactor, lookup_thread. destruct Hinv1 as (-> & _). rewrite Ht.
    simpl. rewrite Hr. simpl. subst w1. simpl.
    rewrite lookup_insert_ne by congruence. done.
  - intros sched ps w2 Hs Hrun.
    pose proof (run_keeps_sem _ _ _ _ _ _ _ _ _ _ _ _ _ _ Hinv1 Hu Hs Hrun Hsem) as Hsem2.
    unfold thread_unregister_wait, semaphore_wait. rewrite !bind_unfold.
    unfold load_sem. by rewrite Hsem2.
Qed.

(** ** The course of the worker *)

Lemma astep_rank self a ps v v' :
  astep self a ps v v' →
  pc_rank (v_pc v) ≤ pc_rank (v_pc v') ∧
  (v_pc v' = pc_started → v_trace v' = v_trace v).
Proof. destruct 1; simpl; split; first [lia | done]. Qed.

Lemma aruns_rank self sched ps v v' :
  aruns self sched ps v v' →
  pc_rank (v_pc v) ≤ pc_rank (v_pc v') ∧
  (v_pc v' = pc_started → v_trace v' = v_trace v).
Proof.
  induction 1 as [v|a sched ps qs v1 v2 v3 Ha Hr [IH1 IH2]]; [done|].
  destruct (astep_rank _ _ _ _ _ Ha) as [H1 H2]. split; [lia|].
  intros Hst. rewrite IH2 by done. apply H2.
  rewrite Hst in IH1. simpl in IH1. destruct (v_pc v2); simpl in *; first [done | lia].
Qed.

(** X14: the worker goes through [run_thread] in one direction (started,
    inside the reactor, in the drain loop, returned) whatever the callers
    do; as long as it has not entered the reactor no callback has run,
    however many were posted; and the queue never holds more than
    [WORK_QUEUE_CAPACITY] items. *)
Theorem worker_lifecycle (thread : addr) (sched : list action) (w : world)
    (ps : list work_item_t) (w' : world) (p : pc) :
  thread_ok w thread →
  act_free_join ∉ sched →
  run thread sched w = Ret ps w' →
  worker_pc w thread = Some p →
  ∃ p', worker_pc w' thread = Some p' ∧
        pc_rank p ≤ pc_rank p' ∧
        (p' = pc_started → trace w' = trace w) ∧
        length (queued w' thread) ≤ WORK_QUEUE_CAPACITY.
Proof.
  intros (t & self & ra & qa & stop & v & Hv)%thread_ok_view Hnf Hrun Hpc.
  destruct (run_view _ _ _ _ _ _ _ _ _ _ _ Hv Hrun Hnf) as (stop' & v' & Hv' & Hr & _).
  destruct (thread_view_obs _ _ _ _ _ _ _ _ Hv) as (_ & _ & Hp0 & Htr & _).
  destruct (thread_view_obs _ _ _ _ _ _ _ _ Hv') as (_ & _ & Hp' & Htr' & _).
  destruct (aruns_rank _ _ _ _ _ Hr) as [Hrk Hst].
  assert (v_pc v = p) as <- by congruence.
  exists (v_pc v'). split_and!; try done.
  - intros E. rewrite Htr, Htr'. by apply Hst.
  - destruct Hv' as ([Q' Hinv'] & _).
    destruct (queued_inv _ _ _ _ _ _ _ _ _ Hinv') as (Hq & _).
    pose proof Hinv' as (_ & _ & _ & _ & _ & _ & _ & Hcap & Hlen & Hf & _).
    apply Forall2_length in Hf. rewrite length_app in Hf.
    rewrite Hq, length_drop. lia.
Qed.

(** * The statements on the test thread *)

Lemma thread_new_ok MAX nm w r w1 :
  thread_new MAX nm w = Ret (Some r) w1 → thread_ok w1 r.
Proof.
  intros Hnew.
  destruct (thread_new_Some MAX _ _ _ _ Hnew) as ((t & self & ra & qa & Hinv & _) & _).
  by do 7 eexists.
Qed.

Ltac by_compute := vm_compute; first [reflexivity | done].

Lemma world1_new : thread_new 16 name_test world0 = Ret (Some thread1) world1.
Proof. by_compute. Qed.

Lemma world1_ok : thread_ok world1 thread1.
Proof. exact (thread_new_ok _ _ _ _ _ world1_new). Qed.

Lemma not_free_join_sched (sched : list action) :
  bool_decide (act_free_join ∉ sched) = true → act_free_join ∉ sched.
Proof. intros H. by apply bool_decide_eq_true in H. Qed.

Lemma world2_run : run thread1 (act_enter :: posts3) world1 = Ret items3 world2.
Proof. by_compute. Qed.

Lemma world2_ok : thread_ok world2 thread1.
Proof.
  apply (run_ok _ _ _ _ _ world1_ok world2_run).
  apply not_free_join_sched. by_compute.
Qed.

Lemma world2_in_reactor : in_reactor world2 thread1.
Proof.
  split; [by_compute|].
  eexists _, _, _. split_and!; [by_compute..|]. vm_compute. constructor.
Qed.

Lemma thread_ok_no_memory w thread :
  thread_ok w thread → thread_ok (no_memory w) thread.
Proof. intros H. exact H. Qed.

Lemma thread_ok_second_alloc_fails w thread :
  thread_ok w thread → thread_ok (second_alloc_fails w) thread.
Proof. intros H. exact H. Qed.

Lemma world_full_ok : thread_ok world_full thread1.
Proof.
  apply (run_ok thread1 fill_sched world1 (map item_nth (seq 1 128)) world_full
           world1_ok).
  - by_compute.
  - apply not_free_join_sched. by_compute.
Qed.

Lemma drain_completes_witness :
  loop_tests overflow_drain_sched ≤ WORK_QUEUE_CAPACITY + 2 ∧
  length (queued world_full thread1) = WORK_QUEUE_CAPACITY ∧
  ∃ extra lg,
    executed world_drained =
      executed world_full ++ queued world_full thread1 ++ extra ∧
    length (queued world_full thread1 ++ extra) = WORK_QUEUE_CAPACITY + 1 ∧
    syslog world_drained = syslog world_full ++ lg ∧
    log_growing_queue ∈ lg.
Proof.
  assert (H2 : worker_pc world_full thread1 = Some pc_loop)
    by (vm_compute; reflexivity).
  assert (H3 : Forall drain_phase overflow_drain_sched)
    by (unfold overflow_drain_sched; simpl; repeat constructor).
  assert (H4 : run thread1 overflow_drain_sched world_full =
               Ret [item_nth 129; item_nth 130] world_drained)
    by (vm_compute; reflexivity).
  assert (H5 : worker_pc world_drained thread1 = Some pc_exited)
    by (vm_compute; reflexivity).
  assert (H6 : length (executed world_drained) = 129) by (vm_compute; reflexivity).
  assert (H7 : length (executed world_full) = 0) by (vm_compute; reflexivity).
  destruct (drain_completes thread1 overflow_drain_sched world_full
              [item_nth 129; item_nth 130] world_drained world_full_ok H2 H3 H4)
    as (Hn & _ & Hex).
  destruct (Hex H5) as (extra & lg & He & _ & Hl & Hlog).
  assert (Hlen : length (queued world_full thread1 ++ extra) = WORK_QUEUE_CAPACITY + 1).
  { rewrite He, length_app, H7 in H6. unfold WORK_QUEUE_CAPACITY. exact H6. }
  split; [exact Hn|]. split; [vm_compute; reflexivity|].
  exists extra, lg. split; [exact He|]. split; [exact Hlen|]. split; [exact Hl|].
  apply Hlog. rewrite Hlen. unfold WORK_QUEUE_CAPACITY. lia.
Defined.

Lemma thread_unregister_sem_failure_witness :
  ∃ w', thread_unregister thread1 (source_object source1) (no_memory world2) = Ret tt w' ∧
        heap w' = heap (no_memory world2) ∧
        syslog w' = syslog (no_memory world2) ++ [log_unregister_sem_failed] ∧
        queued w' thread1 = queued (no_memory world2) thread1.
Proof.
  assert (Ha : alloc_fails (no_memory world2) (alloc_calls (no_memory world2)) = true)
    by (vm_compute; reflexivity).
  destruct (thread_unregister_sem_failure thread1 (source_object source1)
              (no_memory world2) Ha)
    as (w' & H & _ & Hh & _ & _ & Hl & Hq & _).
  exists w'. split_and!; [exact H | exact Hh | exact Hl | exact Hq].
Defined.


Lemma work_items_run_in_order_witness :
  ∃ self evs rest,
    worker_id world1 thread1 = Some self ∧
    trace world4 = trace world1 ++ evs ∧
    Forall (λ e, ran_on e = self) evs ∧
    filter is_user_item (pending world1 thread1) ++ items3 =
      filter is_user_item (items_of evs) ++ rest ∧
    rest = filter is_user_item (pending world4 thread1).
Proof.
  assert (H2 : act_free_join ∉ order_sched)
    by (apply not_free_join_sched; vm_compute; reflexivity).
  assert (H3 : run thread1 order_sched world1 = Ret items3 world4)
    by (vm_compute; reflexivity).
  destruct (work_items_run_in_order thread1 order_sched world1 items3 world4
              world1_ok H2 H3)
    as (self & evs & rest & Hid & Htr & Hon & Hfifo & Hrest & _).
  exists self, evs, rest.
  split; [exact Hid|]. split; [exact Htr|]. split; [exact Hon|].
  split; [exact Hfifo|]. apply Hrest. vm_compute. discriminate.
Defined.

Lemma thread_new_init_failure_witness :
  ∃ w', thread_new 16 name_test world_eperm = Ret None w' ∧
        heap w' = heap world_eperm ∧ trace w' = trace world_eperm ∧
        ∃ self, os_threads world_eperm !! self = None ∧
                os_threads w' !! self = Some pc_exited ∧
                log_set_name_failed 1 ∈ syslog w'.
Proof.
  assert (H : prctl_errno world_eperm (prctl_calls world_eperm) ≠ 0%Z)
    by (vm_compute; discriminate).
  assert (Hc : pthread_create_errno world_eperm (pthread_create_calls world_eperm)
               = 0%Z) by (vm_compute; reflexivity).
  destruct (thread_new_init_failure 16 name_test world_eperm H) as (_ & Hnew).
  destruct (Hnew Hc) as (w' & Hn & Hh & Htr & _ & Hos).
  exists w'. split; [exact Hn|]. split; [exact Hh|]. split; [exact Htr|].
  apply Hos; reflexivity.
Defined.

Lemma thread_post_spec_witness :
  (∃ w', thread_post thread1 (fn_user 1) (ctx_opaque 1) world1 = Ret false w') ↔
  alloc_fails world1 (alloc_calls world1) = true.
Proof.
  exact (proj1 (thread_post_spec thread1 (fn_user 1) (ctx_opaque 1) world1 world1_ok)).
Defined.

Lemma thread_name_invariant_witness :
  ∃ buf, thread_name thread1 world2 = Ret buf world2 ∧
         length buf = 17 ∧
         buf !! 16 = Some x00 ∧
         length (c_str buf) ≤ 16 ∧
         c_str buf = take 16 (c_str name_test).
Proof.
  apply (thread_name_invariant 16 name_test world0 thread1 world1
           (act_enter :: posts3) items3 world2).
  - vm_compute; reflexivity.
  - apply not_free_join_sched. vm_compute; reflexivity.
  - vm_compute; reflexivity.
Defined.

Lemma thread_register_silent_failure_witness :
  ∃ a w',
    thread_register thread1 (source_object source1) (second_alloc_fails world2)
      = Ret tt w' ∧
    heap w' = <[a := ObjRegisterArg (mk_register_arg thread1 (source_object source1))]>
                (heap (second_alloc_fails world2)) ∧
    pending w' thread1 = pending (second_alloc_fails world2) thread1 ∧
    lookup_reactor w' thread1 = lookup_reactor (second_alloc_fails world2) thread1.
Proof.
  assert (H : thread_ok (second_alloc_fails world2) thread1)
    by exact (thread_ok_second_alloc_fails _ _ world2_ok).
  destruct (thread_register_silent_failure thread1 (source_object source1)
              (second_alloc_fails world2) H)
    as (_ & Hsilent & _).
  destruct Hsilent as (a & w' & Hr & _ & Hh & Hp & Hre & _).
  - vm_compute; reflexivity.
  - vm_compute; reflexivity.
  - exists a, w'. split; [exact Hr|]. split; [exact Hh|]. split; [exact Hp | exact Hre].
Defined.

(** C2 as the specification has it fails: [thread_unregister] hands back
    the same value when the semaphore could not be allocated as it does
    when the unregistration has been carried out, so its caller is told
    nothing. *)
Lemma thread_unregister_failure_not_reported :
  ¬ (∀ r1 w1 r2 w2,
       thread_unregister thread1 (source_object source1) (no_memory world2)
         = Ret r1 w1 →
       thread_unregister_wait sem1 world_unregistered = Ret r2 w2 →
       r1 ≠ r2).
Proof.
  intros H.
  eapply (H tt _ tt _); [vm_compute; reflexivity | vm_compute; reflexivity | reflexivity].
Qed.


(** C4 as the specification has it fails: a callback posted after the
    worker has left its drain loop is accepted, never runs, and is thrown
    away with the queue by [thread_free]. *)
Lemma late_post_never_runs :
  ∃ w', run thread1 late_post_sched world1
          = Ret [mk_work_item (fn_user 7) (ctx_opaque 7)] w' ∧
        (mk_work_item (fn_user 7) (ctx_opaque 7) ∉ executed w') ∧
        heap w' = ∅.
Proof.
  eexists. split_and!; [vm_compute; reflexivity | |].
  - vm_compute. apply not_elem_of_nil.
  - vm_compute. reflexivity.
Qed.

(** ** The rest of thread.c on the test thread *)

Lemma world_idle_run : run thread1 [act_enter] world1 = Ret [] world_idle.
Proof. by_compute. Qed.

Lemma world_idle_ok : thread_ok world_idle thread1.
Proof.
  apply (run_ok _ _ _ _ _ world1_ok world_idle_run).
  apply not_free_join_sched. by_compute.
Qed.

Lemma world_idle_in_reactor : in_reactor world_idle thread1.
Proof.
  split; [by_compute|].
  eexists _, _, _. split_and!; [by_compute..|]. vm_compute. constructor.
Qed.

Lemma world_stopped_ok : thread_ok world_stopped thread1.
Proof.
  apply (run_ok thread1 [act_stop] world2 [] world_stopped world2_ok).
  - by_compute.
  - apply not_free_join_sched. by_compute.
Qed.

Lemma world_late_ok : thread_ok world_late thread1.
Proof.
  apply (run_ok thread1 [act_enter; act_stop; act_leave_reactor; act_drain;
                         act_post 7 (ctx_opaque 7)] world1
                [mk_work_item (fn_user 7) (ctx_opaque 7)] world_late world1_ok).
  - by_compute.
  - apply not_free_join_sched. by_compute.
Qed.

Lemma world_overflow_ok : thread_ok world_overflow thread1.
Proof.
  apply (run_ok thread1 overflow_sched world1 (map item_nth (seq 1 130))
                world_overflow world1_ok).
  - by_compute.
  - apply not_free_join_sched. by_compute.
Qed.

Lemma order_sched_run : run thread1 order_sched world1 = Ret items3 world4.
Proof. by_compute. Qed.

Lemma order_sched_not_free : act_free_join ∉ order_sched.
Proof. apply not_free_join_sched. by_compute. Qed.

Lemma thread_new_succeeds_iff_witness :
  (∃ r w', thread_new 16 name_test world0 = Ret (Some r) w') ∧
  (∃ w', thread_new 16 name_test (no_memory world0) = Ret None w' ∧
         os_threads w' = os_threads (no_memory world0) ∧
         pthread_create_calls w' = pthread_create_calls (no_memory world0)) ∧
  (∃ w', thread_new 16 name_test world_eagain = Block w' ∧
         os_threads w' = os_threads world_eagain ∧
         trace w' = trace world_eagain).
Proof.
  pose proof (thread_new_succeeds_iff 16 name_test world0) as H0.
  pose proof (thread_new_succeeds_iff 16 name_test (no_memory world0)) as H1.
  pose proof (thread_new_succeeds_iff 16 name_test world_eagain) as H2.
  cbv zeta in H0, H1, H2.
  destruct H0 as (Hiff & _). destruct H1 as (_ & Hnull & _).
  destruct H2 as (_ & _ & Hblock).
  split; [|split].
  - apply Hiff. vm_compute. repeat split.
  - destruct Hnull as (w' & Hn & Hos & _ & Hc).
    + left. vm_compute; reflexivity.
    + exists w'. split; [exact Hn|]. split; [exact Hos | exact Hc].
  - apply Hblock; [vm_compute; reflexivity..|vm_compute; discriminate].
Defined.

Lemma control_block_immutable_witness :
  lookup_thread world4 thread1 = lookup_thread world1 thread1 ∧
  worker_id world4 thread1 = worker_id world1 thread1.
Proof.
  destruct (control_block_immutable thread1 order_sched world1 items3 world4
              world1_ok order_sched_not_free order_sched_run) as (H1 & H2 & _).
  split; [exact H1 | exact H2].
Defined.

Lemma thread_stop_spec_witness :
  ∃ R w1,
    lookup_reactor world2 thread1 = Some R ∧
    thread_stop thread1 world2 = Ret tt w1 ∧
    lookup_reactor w1 thread1 = Some (mk_reactor (registered R) true) ∧
    thread_stop thread1 w1 = Ret tt w1 ∧
    pending w1 thread1 = pending world2 thread1.
Proof.
  destruct (thread_stop_spec thread1 world2 world2_ok)
    as (R & w1 & H1 & H2 & H3 & H4 & _ & _ & H5 & _).
  exists R, w1. split; [exact H1|]. split; [exact H2|]. split; [exact H3|].
  split; [exact H4 | exact H5].
Defined.

Lemma stop_request_persists_witness :
  ∃ R', lookup_reactor world_stopped_later thread1 = Some R' ∧
        stop_requested R' = true.
Proof.
  assert (HR : lookup_reactor world_stopped thread1 =
               Some (mk_reactor [work_queue_object 3%positive 3%Z] true))
    by (vm_compute; reflexivity).
  assert (Hnf : act_free_join ∉ stopped_sched)
    by (apply not_free_join_sched; vm_compute; reflexivity).
  assert (Hrun : run thread1 stopped_sched world_stopped =
                 Ret [mk_work_item (fn_user 4) (ctx_opaque 4)] world_stopped_later)
    by (vm_compute; reflexivity).
  exact (proj1 (stop_request_persists thread1 stopped_sched world_stopped _
                  world_stopped_later _ world_stopped_ok HR eq_refl Hnf Hrun)).
Defined.

Lemma thread_free_waits_witness :
  (∃ w', thread_free 1 (Some thread1) world2 = Block w' ∧
         dom (heap w') = dom (heap world2) ∧
         pending w' thread1 = pending world2 thread1) ∧
  (∃ w', thread_free 0 (Some thread1) world2 = Ret tt w' ∧
         lookup_thread w' thread1 = None ∧
         os_threads w' !! 0 = Some pc_loop).
Proof.
  assert (Hpc : worker_pc world2 thread1 = Some pc_loop) by (vm_compute; reflexivity).
  assert (Hne : pc_loop ≠ pc_exited) by discriminate.
  assert (Hother : worker_id world2 thread1 ≠ Some 1) by (vm_compute; discriminate).
  assert (Hself : worker_id world2 thread1 = Some 0) by (vm_compute; reflexivity).
  destruct (thread_free_waits 1 thread1 world2 pc_loop world2_ok Hpc Hne) as (Hw & _).
  destruct (thread_free_waits 0 thread1 world2 pc_loop world2_ok Hpc Hne) as (_ & Hr).
  destruct (Hw Hother) as (w' & H1 & _ & H2 & _ & H3 & _).
  destruct (Hr Hself) as (t & ra & qa & Q & w'' & _ & _ & _ & _ & H4 & H5 & _ & H6 & _).
  split.
  - exists w'. split; [exact H1|]. split; [exact H2 | exact H3].
  - exists w''. split; [exact H4|]. split; [|exact H6].
    unfold lookup_thread. rewrite H5.
    rewrite bool_decide_eq_true_2; [reflexivity|]. left.
Defined.

Lemma thread_free_releases_witness :
  ∃ Q w', lookup_queue world_late thread1 = Some Q ∧
          thread_free 1 (Some thread1) world_late = Ret tt w' ∧
          (∀ a, a ∈ items Q → heap w' !! a = None) ∧
          executed w' = executed world_late.
Proof.
  assert (Hpc : worker_pc world_late thread1 = Some pc_exited)
    by (vm_compute; reflexivity).
  destruct (thread_free_releases 1 thread1 world_late world_late_ok Hpc)
    as (t & self & ra & qa & Q & w' & _ & _ & _ & _ & HQ & Hf & Hh & _ & He & _).
  exists Q, w'. split; [exact HQ|]. split; [exact Hf|]. split; [|exact He].
  intros a Ha. rewrite Hh.
  rewrite bool_decide_eq_true_2; [reflexivity|].
  right. right. right. exact Ha.
Defined.

Lemma drain_overflow_leaks_witness :
  ∃ i w1 w2,
    lookup_item world_overflow item_overflow = Some i ∧
    step thread1 act_drain world_overflow = Ret [] w1 ∧
    worker_pc w1 thread1 = Some pc_exited ∧
    trace w1 = trace world_overflow ∧
    syslog w1 = syslog world_overflow ++ [log_growing_queue] ∧
    thread_free 1 (Some thread1) w1 = Ret tt w2 ∧
    lookup_item w2 item_overflow = Some i ∧
    lookup_thread w2 thread1 = None.
Proof.
  assert (Hpc : worker_pc world_overflow thread1 =
                Some (pc_drain (Some item_overflow) 129))
    by (vm_compute; reflexivity).
  assert (Hn : WORK_QUEUE_CAPACITY < 129) by (unfold WORK_QUEUE_CAPACITY; lia).
  destruct (drain_overflow_leaks 1 thread1 world_overflow item_overflow 129
              world_overflow_ok Hpc Hn)
    as (i & w1 & w2 & H1 & H2 & H3 & _ & H4 & H5 & H6 & H7 & H8 & _).
  exists i, w1, w2. split; [exact H1|]. split; [exact H2|]. split; [exact H3|].
  split; [exact H4|]. split; [exact H5|]. split; [exact H6|].
  split; [exact H7 | exact H8].
Defined.

Lemma work_queue_read_cb_spec_witness :
  ∃ a w',
    lookup_item world2 a = Some (mk_work_item (fn_user 1) (ctx_opaque 1)) ∧
    step thread1 act_ready_queue world2 = Ret [] w' ∧
    executed w' = executed world2 ++ [mk_work_item (fn_user 1) (ctx_opaque 1)] ∧
    pending w' thread1 =
      [mk_work_item (fn_user 2) (ctx_opaque 2); mk_work_item (fn_user 3) (ctx_opaque 3)] ∧
    dom (heap w') = dom (heap world2) ∖ {[a]}.
Proof.
  pose proof (work_queue_read_cb_spec thread1 world2 world2_ok world2_in_reactor) as H.
  assert (Hp : pending world2 thread1 = items3) by (vm_compute; reflexivity).
  rewrite Hp in H. unfold items3 in H.
  destruct (H I) as (a & w' & H1 & H2 & H3 & H4 & H5 & _).
  exists a, w'. split; [exact H1|]. split; [exact H2|]. split; [exact H3|].
  split; [exact H4 | exact H5].
Defined.

Lemma register_takes_effect_witness :
  ∃ R ra w1 w2,
    lookup_reactor world_idle thread1 = Some R ∧
    thread_get_reactor thread1 world_idle = Ret (Some ra) world_idle ∧
    thread_register thread1 (source_object source1) world_idle = Ret tt w1 ∧
    lookup_reactor w1 thread1 = Some R ∧
    step thread1 act_ready_queue w1 = Ret [] w2 ∧
    lookup_reactor w2 thread1 =
      Some (mk_reactor (registered R ++ [source_object source1]) (stop_requested R)) ∧
    (∀ a, a ≠ ra → heap w2 !! a = heap world_idle !! a).
Proof.
  assert (Hp : pending world_idle thread1 = []) by (vm_compute; reflexivity).
  destruct (register_takes_effect thread1 source1 world_idle world_idle_ok
              world_idle_in_reactor Hp eq_refl eq_refl)
    as (R & ra & w1 & w2 & H1 & H2 & H3 & H4 & H5 & H6 & H7 & _).
  exists R, ra, w1, w2. split; [exact H1|]. split; [exact H2|]. split; [exact H3|].
  split; [exact H4|]. split; [exact H5|]. split; [exact H6 | exact H7].
Defined.

Lemma unregister_waits_for_worker_witness :
  ∃ s w1 w2 w3,
    thread_unregister_request thread1 (source_object source1) world_idle
      = Ret (Some s) w1 ∧
    thread_unregister_wait s w1 = Block w1 ∧
    thread_unregister thread1 (source_object source1) world_idle = Block w1 ∧
    step thread1 act_ready_queue w1 = Ret [] w2 ∧
    thread_unregister_wait s w2 = Ret tt w3 ∧
    in_reactor w3 thread1.
Proof.
  assert (Hp : pending world_idle thread1 = []) by (vm_compute; reflexivity).
  destruct (unregister_waits_for_worker thread1 source1 world_idle world_idle_ok
              world_idle_in_reactor Hp eq_refl eq_refl)
    as (R & ra & s & w1 & w2 & w3 & _ & _ & H1 & H2 & H3 & H4 & H5 & _ & _ & H6 & _).
  exists s, w1, w2, w3. split; [exact H1|]. split; [exact H2|]. split; [exact H3|].
  split; [exact H4|]. split; [exact H5 | exact H6].
Defined.

Lemma unregister_post_failure_deadlocks_witness :
  ∃ s w1,
    thread_unregister_request thread1 (source_object source1)
      (second_alloc_fails world2) = Ret (Some s) w1 ∧
    thread_unregister thread1 (source_object source1) (second_alloc_fails world2)
      = Block w1 ∧
    pending w1 thread1 = pending (second_alloc_fails world2) thread1 ∧
    ∀ sched ps w2,
      Forall lifecycle_action sched →
      run thread1 sched w1 = Ret ps w2 →
      thread_unregister_wait s w2 = Block w2.
Proof.
  assert (Hok : thread_ok (second_alloc_fails world2) thread1)
    by exact (thread_ok_second_alloc_fails _ _ world2_ok).
  assert (Hu : Forall is_user_item (pending (second_alloc_fails world2) thread1))
    by (vm_compute; repeat constructor).
  assert (Ha0 : alloc_fails (second_alloc_fails world2)
                  (alloc_calls (second_alloc_fails world2)) = false)
    by (vm_compute; reflexivity).
  assert (Ha1 : alloc_fails (second_alloc_fails world2)
                  (S (alloc_calls (second_alloc_fails world2))) = true)
    by (vm_compute; reflexivity).
  destruct (unregister_post_failure_deadlocks thread1 (source_object source1)
              (second_alloc_fails world2) Hok Hu Ha0 Ha1)
    as (s & w1 & H1 & H2 & H3 & _ & _ & H4).
  exists s, w1. split; [exact H1|]. split; [exact H2|]. split; [exact H3 | exact H4].
Defined.

Lemma lifecycle_keeps_account_witness :
  accounted (thread_cells world1 thread1) (thread_cells world4 thread1) world1 world4.
Proof.
  apply (lifecycle_keeps_account thread1 order_sched world1 items3 world4
           world1_ok).
  - vm_compute. constructor.
  - repeat constructor.
  - exact order_sched_run.
  - vm_compute. apply not_elem_of_nil.
Defined.

Lemma thread_new_free_no_leak_witness :
  ∃ w3, thread_free 1 (Some thread1) world3 = Ret tt w3 ∧
        heap w3 = heap world0 ∧ os_threads w3 = os_threads world0 ∧
        trace w3 = trace world3.
Proof.
  apply (thread_new_free_no_leak 16 1 name_test world0 thread1 world1 full_sched
           items3 world3).
  - vm_compute; reflexivity.
  - repeat constructor.
  - vm_compute; reflexivity.
  - vm_compute; reflexivity.
  - vm_compute. apply not_elem_of_nil.
Defined.

Lemma worker_lifecycle_witness :
  ∃ p', worker_pc world4 thread1 = Some p' ∧
        pc_rank pc_started ≤ pc_rank p' ∧
        (p' = pc_started → trace world4 = trace world1) ∧
        length (queued world4 thread1) ≤ WORK_QUEUE_CAPACITY.
Proof.
  apply (worker_lifecycle thread1 order_sched world1 items3 world4 pc_started
           world1_ok order_sched_not_free order_sched_run).
  vm_compute; reflexivity.
Defined.
